(** * sora-lite: upload intake, bounded optimisation, bundling and cleanup

    A shallow embedding of [server.js], [utils/processor.js] and the
    selection of files in [public/js/app.js].

    Conventions of the embedding.
    - A JavaScript string is a [list ascii]: the model covers strings of
      8-bit characters.  Literals are written [lit "..."].
    - Node's [path] module is the POSIX flavour ([path.posix]); its
      functions are transcribed from their documented algorithm.
    - The filesystem is a finite map from absolute path to node; the
      content of a file is an opaque buffer of which only the length is
      observed.
    - Numbers that the source only adds and compares (sizes, timestamps)
      are in [Z]. *)

From Stdlib Require Import ZArith Ascii String List Lia Bool.
From Stdlib Require DecimalString DecimalZ.
From stdpp Require Import base option list gmap strings.

Import ListNotations.
Local Open Scope Z_scope.

Abbreviation str := (list ascii).
Abbreviation lit := list_ascii_of_string.

(** ** Node's [path] (POSIX) *)

Module NodePath.

Definition is_slash (c : ascii) : bool := Ascii.eqb c "/".
Definition is_dot (c : ascii) : bool := Ascii.eqb c ".".

Fixpoint skip (f : ascii -> bool) (s : str) : str :=
  match s with
  | c :: r => if f c then skip f r else s
  | [] => []
  end.

Fixpoint span (f : ascii -> bool) (s : str) : str :=
  match s with
  | c :: r => if f c then c :: span f r else []
  | [] => []
  end.

(** The right-most path component, trailing separators ignored: the loop
    that [basename] and [extname] share scans from the end, passes over
    the separators at the end, and stops at the next separator. *)
Definition last_component (p : str) : str :=
  rev (span (fun c => negb (is_slash c)) (skip is_slash (rev p))).

(** The separators at the end of [p]. *)
Definition trailing_slashes (p : str) : str := span is_slash (rev p).

Fixpoint str_eqb (a b : str) : bool :=
  match a, b with
  | [], [] => true
  | x :: a', y :: b' => Ascii.eqb x y && str_eqb a' b'
  | _, _ => false
  end.

(** [s.startsWith(t)] *)
Fixpoint startsWith (s t : str) : bool :=
  match t, s with
  | [], _ => true
  | y :: t', x :: s' => Ascii.eqb x y && startsWith s' t'
  | _ :: _, [] => false
  end.

(** [s.endsWith(t)] *)
Definition endsWith (s t : str) : bool := startsWith (rev s) (rev t).

(** [path.basename(p)] *)
Definition basename (p : str) : str := last_component p.

(** [path.basename(p, suffix)].  The suffix is compared, from the end and
    case-sensitively, with the last component; a component equal to the
    suffix is kept whole.  When the component is a proper end of the
    suffix the scan leaves [end] unset and the slice runs to the end of the
    path, trailing separators included. *)
Definition basename_ext (p suffix : str) : str :=
  if (Nat.eqb (length suffix) 0 || Nat.ltb (length p) (length suffix))%bool
  then basename p
  else if str_eqb suffix p then []
  else
    let comp := last_component p in
    if endsWith comp suffix then
      if Nat.eqb (length comp) (length suffix) then comp
      else firstn (length comp - length suffix) comp
    else if endsWith suffix comp then comp ++ trailing_slashes p
    else comp.

(** [path.extname(p)]: from the last dot of the last component to its end;
    empty when there is no dot, when the last dot is the first character
    of the component, or when the component is [".."]. *)
Definition extname (p : str) : str :=
  let comp := last_component p in
  let rc := rev comp in
  let tail_rev := span (fun c => negb (is_dot c)) rc in
  match skip (fun c => negb (is_dot c)) rc with
  | [] => []
  | _dot :: [] => []
  | _dot :: _ :: _ =>
      if str_eqb comp (lit "..") then [] else "."%char :: rev tail_rev
  end.

(** Segments of a path, the empty ones included. *)
Fixpoint split_slash (p : str) : list str :=
  match p with
  | [] => [[]]
  | c :: r =>
      if is_slash c then [] :: split_slash r
      else match split_slash r with
           | s :: ss => (c :: s) :: ss
           | [] => [[c]]
           end
  end.

Fixpoint join_slash (segs : list str) : str :=
  match segs with
  | [] => []
  | [s] => s
  | s :: ss => s ++ "/"%char :: join_slash ss
  end.

(** One separator met by [normalizeString], with [stack] the segments
    kept so far, innermost first. *)
Definition push_segment (allowAboveRoot : bool) (stack : list str) (seg : str)
  : list str :=
  if str_eqb seg [] || str_eqb seg (lit ".") then stack
  else if str_eqb seg (lit "..") then
    match stack with
    | top :: below =>
        if str_eqb top (lit "..") then seg :: stack else below
    | [] => if allowAboveRoot then [seg] else []
    end
  else seg :: stack.

Definition normalizeString (p : str) (allowAboveRoot : bool) : str :=
  join_slash (rev (fold_left (push_segment allowAboveRoot) (split_slash p) [])).

Definition isAbsolute (p : str) : bool :=
  match p with c :: _ => is_slash c | [] => false end.

Definition has_trailing_slash (p : str) : bool :=
  match rev p with c :: _ => is_slash c | [] => false end.

(** [path.normalize(p)] *)
Definition normalize (p : str) : str :=
  match p with
  | [] => (lit ".")
  | _ =>
      let abs := isAbsolute p in
      let trailing := has_trailing_slash p in
      let q := normalizeString p (negb abs) in
      match q with
      | [] => if abs then (lit "/") else if trailing then (lit "./") else (lit ".")
      | _ =>
          let q' := if trailing then q ++ (lit "/") else q in
          if abs then "/"%char :: q' else q'
      end
  end.

(** [path.join(...args)]: the non-empty arguments joined by separators,
    then normalised. *)
Definition join (args : list str) : str :=
  match List.filter (fun a => negb (Nat.eqb (length a) 0)) args with
  | [] => (lit ".")
  | parts => normalize (join_slash parts)
  end.

End NodePath.

(** ** JavaScript string methods *)

Definition lower_char (c : ascii) : ascii :=
  let n := nat_of_ascii c in
  if ((Nat.leb 65 n && Nat.leb n 90)
      || (Nat.leb 192 n && Nat.leb n 222 && negb (Nat.eqb n 215)))%bool
  then ascii_of_nat (n + 32) else c.

(** [s.toLowerCase()] on 8-bit strings: the letters A-Z and the capital
    letters of Latin-1 (192 to 222, the multiplication sign 215 apart)
    change. *)
Definition toLowerCase (s : str) : str := map lower_char s.

(** The class [\s] restricted to 8-bit characters. *)
Definition is_space (c : ascii) : bool :=
  let n := nat_of_ascii c in
  (Nat.leb 9 n && Nat.leb n 13)%bool || Nat.eqb n 32 || Nat.eqb n 160.

(** [s.replace(/\s+/g, '_')]: every maximal run of white space becomes one
    underscore. *)
Fixpoint replace_spaces_from (in_run : bool) (s : str) : str :=
  match s with
  | [] => []
  | c :: r =>
      if is_space c then
        if in_run then replace_spaces_from true r
        else "_"%char :: replace_spaces_from true r
      else c :: replace_spaces_from false r
  end.

Definition replace_spaces (s : str) : str := replace_spaces_from false s.

(** [String(n)] for an integer number. *)
Definition number_to_string (n : Z) : str :=
  lit (DecimalString.NilZero.string_of_int (Z.to_int n)).

Definition hex_digit (n : N) : ascii :=
  nth (N.to_nat n) (lit "0123456789abcdef") "f"%char.

(** [buf.toString('hex')] *)
Definition to_hex (bytes : list Byte.byte) : str :=
  flat_map (fun b => let n := Byte.to_N b in
                     [hex_digit (n / 16)%N; hex_digit (n mod 16)%N]) bytes.

(** [`bundle-${crypto.randomBytes(8).toString('hex')}.zip`], given the
    random bytes. *)
Definition zip_name (random : list Byte.byte) : str :=
  lit "bundle-" ++ to_hex random ++ lit ".zip".

(** ** Configuration constants of [server.js] *)

Definition CLEANUP_AFTER_MS : Z := 5 * 60 * 1000.
Definition MAX_TOTAL_SIZE : Z := 100 * 1024 * 1024.
Definition MAX_FILES : nat := 20.
Arguments CLEANUP_AFTER_MS : simpl never.
Arguments MAX_TOTAL_SIZE : simpl never.
Arguments MAX_FILES : simpl never.

Definition no_slash (s : str) : bool :=
  forallb (fun c => negb (NodePath.is_slash c)) s.

(** A path segment that [path.normalize] keeps as it is. *)
Definition proper_segment (s : str) : bool :=
  negb (NodePath.str_eqb s []) && negb (NodePath.str_eqb s (lit "."))
  && negb (NodePath.str_eqb s (lit ".."))
  && no_slash s.

(** The absolute path made of the given segments. *)
Definition abs_path (segs : list str) : str := "/"%char :: NodePath.join_slash segs.

(** ** Data *)

Inductive errno := ENOENT | EISDIR | ENOTDIR.

(** The two imagemin plugins of [optimiseFile], with their fixed options:
    [imageminPngquant({ quality: [0.6, 0.8] })] and
    [imageminMozjpeg({ quality: 75 })]. *)
Inductive plugin := Pngquant | Mozjpeg.

Inductive error :=
  | FsError (code : errno)
  | UnsupportedFileType      (* new Error('Unsupported file type') *)
  | CodecError               (* imagemin.buffer rejected *)
  | ArchiveError             (* archiver emitted 'error' *)
  | ConcurrencyTypeError.    (* pLimit refused the limit *)

(** The state of a promise once it is no longer pending. *)
Inductive settled (A : Type) :=
  | Fulfilled (value : A)
  | Rejected (reason : error).
Arguments Fulfilled {A} value.
Arguments Rejected {A} reason.

(** Multer's file object, the fields the server reads. *)
Record MulterFile := {
  file_originalname : str;
  file_filename : str;
  file_path : str;
  file_size : Z
}.

(** The object returned by [optimiseFile]. *)
Record Meta := {
  meta_filename : str;
  originalName : str;
  optimizedPath : str;
  sizeBefore : Z;
  sizeAfter : Z
}.

(** One entry of [payload.files]. *)
Record FileEntry := {
  entry_originalName : str;
  entry_optimizedName : str;
  downloadUrl : str;
  uploadUrl : str;
  entry_sizeBefore : Z;
  entry_sizeAfter : Z
}.

Record Payload := { payload_files : list FileEntry; payload_zip : option str }.

Inductive MulterError :=
  | LIMIT_FILE_COUNT
  | LIMIT_FILE_SIZE
  | LIMIT_UNEXPECTED_FILE
  | FileFilterError          (* 'Only .jpg, .jpeg and .png files are allowed' *)
  | StorageError (code : errno).

(** What a route answers.  [Download] is a file sent as an attachment by
    [res.download].  [DownloadFailed] is no answer at all: [res.download]
    failed, its callback logged 'Download error', and nothing was sent. *)
Inductive response :=
  | Json200 (payload : Payload)
  | Json400 (err : MulterError + str)
  | Json500 (err : str)
  | Send400 (body : str)
  | Send404 (body : str)
  | Download (filePath downloadName : str)
  | DownloadFailed (filePath : str) (code : errno).

Inductive log_entry :=
  | WarnFailedToDelete (filePath : str) (code : errno)
  | WarnCleanupError (folder : str) (code : errno)
  | InfoCleanedUp (filePath : str)
  | WarnUploadError (err : MulterError)
  | ErrorProcessing (reason : error).

(** [fs.Dirent], as [readdir(..., { withFileTypes: true })] returns it. *)
Record Dirent := { dirent_name : str; dirent_isFile : bool }.

(** One event of the event loop while a batch is processed: the clock at
    that moment and the choice of the pending I/O operation that
    completes. *)
Record tick := { tick_now : Z; tick_pick : nat }.

(** The outcome of the archiver run of one [createZip] call: the bytes
    that reached the output stream, and whether the run ended in the
    archiver's ['error'] event. *)
Record archive_run (Buffer : Type) := {
  archive_written : Buffer;
  archive_failed : bool
}.
Arguments archive_written {Buffer} _.
Arguments archive_failed {Buffer} _.

(** [allowed.test(name)] for [/\.(jpe?g|png)$/i]. *)
Definition allowed (name : str) : bool :=
  let n := toLowerCase name in
  NodePath.endsWith n (lit ".jpg") || NodePath.endsWith n (lit ".jpeg")
  || NodePath.endsWith n (lit ".png").

(** The branch of [optimiseFile] on the lower-cased extension. *)
Definition select_plugin (ext : str) : option plugin :=
  if NodePath.str_eqb ext (lit ".png") then Some Pngquant
  else if NodePath.str_eqb ext (lit ".jpg") || NodePath.str_eqb ext (lit ".jpeg")
  then Some Mozjpeg
  else None.

(** [`${path.basename(file.originalname, ext)}-opt${ext}`] with
    [ext = path.extname(file.originalname).toLowerCase()]. *)
Definition optimizedName (originalname : str) : str :=
  let ext := toLowerCase (NodePath.extname originalname) in
  NodePath.basename_ext originalname ext ++ lit "-opt" ++ ext.

(** The [filename] callback of the disk storage:
    [`${safeName}-${uniq}${ext}`]. *)
Definition storage_filename (originalname : str) (now random : Z) : str :=
  let uniq := number_to_string now ++ lit "-" ++ number_to_string random in
  let ext := NodePath.extname originalname in
  let safeName := replace_spaces (NodePath.basename_ext originalname ext) in
  safeName ++ lit "-" ++ uniq ++ ext.

(** A node of the filesystem: a regular file with its modification time
    and content, or a directory. *)
Inductive node {Buffer : Type} :=
  | File (mtimeMs : Z) (data : Buffer)
  | Dir (mtimeMs : Z).

(** One file part of a multipart request, with the two values the
    [filename] callback draws when the part arrives. *)
Record Part {Buffer : Type} := {
  part_fieldname : str;
  part_originalname : str;
  part_data : Buffer;
  part_now : Z;          (* Date.now() *)
  part_random : Z        (* Math.round(Math.random() * 1e9) *)
}.

(** ** [public/js/app.js]: the selection of files *)

(** A [File] of the browser, the fields the page reads. *)
Record ClientFile := { cf_name : str; cf_size : Z }.

Inductive ui_effect :=
  | Alert (message : str)
  | RenderPreviews.

(** [handleFilesSelection(fileListObj)], with the global [selectedFiles]
    passed in and returned.  The constant [allowed] of the function is
    [allowedFiles] here. *)
Definition handleFilesSelection (selectedFiles fileListObj : list ClientFile)
  : list ClientFile * list ui_effect :=
  let filesArray := fileListObj in
  let allowedFiles := List.filter (fun f => allowed (cf_name f)) filesArray in
  let warned :=
    if negb (Nat.eqb (length allowedFiles) (length filesArray))
    then [Alert (lit "Only .jpg, .jpeg and .png files are allowed.")]
    else [] in
  if Nat.ltb 20 (length allowedFiles + length selectedFiles)
  then (selectedFiles,
        warned ++ [Alert (lit "You can upload a maximum of 20 files at a time.")])
  else (selectedFiles ++ allowedFiles, warned ++ [RenderPreviews]).

(** The selections of one visit of the page, one after the other, from
    the empty [selectedFiles]. *)
Definition select_each (selections : list (list ClientFile)) : list ClientFile :=
  fold_left (fun selected files => (handleFilesSelection selected files).1)
            selections [].

(** The form that [uploadAll] posts: none for an empty selection, else
    one ['images'] field per selected file, in order. *)
Definition uploadAll_form (selectedFiles : list ClientFile)
  : option (list (str * ClientFile)) :=
  if Nat.eqb (length selectedFiles) 0 then None
  else Some ((fun f => (lit "images", f)) <$> selectedFiles).

(** ** Concrete inputs

    The inputs of the concrete runs at the end of the file.  Their
    buffers are represented by their length. *)

Definition demo_root : list str := [lit "srv"; lit "sora-lite"].

(** The two storage directories, empty. *)
Definition demo_fs : gmap str (@node Z) :=
  {[ lit "/srv/sora-lite/uploads" := Dir 0; lit "/srv/sora-lite/optimized" := Dir 0 ]}.

(** A codec that halves every buffer, and fails on a buffer of length 13. *)
Definition demo_codec (pl : plugin) (buffer : Z) : option Z :=
  if buffer =? 13 then None else Some (buffer / 2).

Definition demo_archiver (fs : gmap str (@node Z)) (entries : list (str * str))
  : archive_run Z :=
  {| archive_written := 1 + Z.of_nat (length entries); archive_failed := false |}.

(** The zip archiver as [createZip] drives it, with buffers counted in
    bytes.  [archive.file] with an empty source path emits 'error'; a
    source that is not a regular file is skipped with a warning, which
    [createZip] does not listen to.  The size written is nominal: the 22
    bytes of an empty archive, and the bytes of the sources stored. *)
Definition zip_archiver (fs : gmap str (@node Z)) (entries : list (str * str))
  : archive_run Z :=
  let stored :=
    omap (fun e : str * str =>
            match fs !! e.1 with Some (File _ d) => Some d | _ => None end)
         entries in
  {| archive_written := 22 + fold_right Z.add 0 stored;
     archive_failed := existsb (fun e : str * str => Nat.eqb (length e.1) 0) entries |}.

Definition demo_random : list Byte.byte :=
  [Byte.x01; Byte.x23; Byte.x45; Byte.x67; Byte.x89; Byte.xab; Byte.xcd; Byte.xef].


(** A filesystem with an old and a recent file in each area. *)
Definition swept_fs : gmap str (@node Z) :=
  <[lit "/srv/sora-lite/uploads/old-1-2.png" := File 1000 10]>
  (<[lit "/srv/sora-lite/uploads/new-3-4.png" := File 290000 10]>
  (<[lit "/srv/sora-lite/optimized/old-opt.png" := File 2000 5]>
  (<[lit "/srv/sora-lite/optimized/new-opt.png" := File 295000 5]> demo_fs))).

Definition demo_part (name : string) (size random : Z) : @Part Z :=
  {| part_fieldname := lit "images"; part_originalname := lit name;
     part_data := size; part_now := 1700; part_random := random |}.

(** Two images of 60 MiB each. *)
Definition oversize_parts : list (@Part Z) :=
  [demo_part "a.png" 62914560 1; demo_part "b.png" 62914560 2].

(** Three accepted images, and a batch of twelve. *)
Definition demo_parts : list (@Part Z) :=
  [demo_part "a b.png" 100 1; demo_part "photo.jpg" 50 2; demo_part "c.jpeg" 30 3].

Definition twelve_parts : list (@Part Z) :=
  (fun i => demo_part "img.png" 100 (Z.of_nat i)) <$> seq 0 12.

Definition demo_ticks (picks : list nat) : list tick :=
  (fun k => {| tick_now := 3000; tick_pick := k |}) <$> picks.

(** A batch whose second image the codec refuses. *)
Definition failing_parts : list (@Part Z) :=
  [demo_part "a.png" 100 1; demo_part "bad.png" 13 2; demo_part "c.jpeg" 30 3].

(** Two selections in the page: an image with a text file, then an image
    with an upper-case extension. *)
Definition demo_selections : list (list ClientFile) :=
  [[{| cf_name := lit "a.png"; cf_size := 100 |};
    {| cf_name := lit "notes.txt"; cf_size := 7 |}];
   [{| cf_name := lit "b.JPG"; cf_size := 50 |}]].

(** The parts of the request that the page then posts. *)
Definition selected_parts : list (@Part Z) :=
  [demo_part "a.png" 100 1; demo_part "b.JPG" 50 2].


Section Pipeline.

Context {Buffer : Type}.

(** [buffer.length] *)
Variable byteLength : Buffer -> Z.

(** [imagemin.buffer(buffer, { plugins })]: the codec is an opaque,
    deterministic capability; [None] is a rejection. *)
Variable imagemin_buffer : plugin -> Buffer -> option Buffer.

(** The segments of the directory of [server.js]. *)
Variable root : list str.

(** *** Filesystem *)

Local Abbreviation FS := (gmap str (@node Buffer)).

Record Stats := { stats_mtimeMs : Z; stats_isFile : bool }.

Definition fs_access (fs : FS) (p : str) : bool :=
  match fs !! p with Some _ => true | None => false end.

Definition fs_readFile (fs : FS) (p : str) : errno + Buffer :=
  match fs !! p with
  | Some (File _ d) => inr d
  | Some (Dir _) => inl EISDIR
  | None => inl ENOENT
  end.

(** [fs.writeFile(p, d)] and [fs.open(p, 'w')] create or replace the file;
    the directory that holds it is taken to exist ([ensureFolders]). *)
Definition fs_writeFile (now : Z) (fs : FS) (p : str) (d : Buffer) : errno + FS :=
  match fs !! p with
  | Some (Dir _) => inl EISDIR
  | _ => inr (<[p := File now d]> fs)
  end.

Definition fs_unlink (fs : FS) (p : str) : errno + FS :=
  match fs !! p with
  | Some (File _ _) => inr (delete p fs)
  | Some (Dir _) => inl EISDIR
  | None => inl ENOENT
  end.

Definition fs_stat (fs : FS) (p : str) : errno + Stats :=
  match fs !! p with
  | Some (File m _) => inr {| stats_mtimeMs := m; stats_isFile := true |}
  | Some (Dir m) => inr {| stats_mtimeMs := m; stats_isFile := false |}
  | None => inl ENOENT
  end.

(** The entry of [folder] that the path [p] denotes, when it is a direct
    child. *)
Definition child_of (folder : str) (entry : str * @node Buffer) : option Dirent :=
  let '(p, nd) := entry in
  if NodePath.startsWith p (folder ++ lit "/") then
    let name := drop (length folder + 1) p in
    if proper_segment name then
      Some {| dirent_name := name;
              dirent_isFile := match nd with File _ _ => true | Dir _ => false end |}
    else None
  else None.

Definition fs_readdir (fs : FS) (folder : str) : errno + list Dirent :=
  match fs !! folder with
  | Some (Dir _) => inr (omap (child_of folder) (map_to_list fs))
  | Some (File _ _) => inl ENOTDIR
  | None => inl ENOENT
  end.

(** *** [server.js]: directories and helpers *)

Definition __dirname : str := abs_path root.

(** The text before the name of an area: [__dirname] and a separator. *)
Definition root_slash : str :=
  match root with [] => lit "/" | _ => __dirname ++ lit "/" end.
Definition UPLOAD_DIR : str := NodePath.join [__dirname; lit "uploads"].
Definition OPTIMIZED_DIR : str := NodePath.join [__dirname; lit "optimized"].

(** [safeUnlink]: a failure other than [ENOENT] is logged, none is
    thrown. *)
Definition safeUnlink (fs : FS) (filePath : str) : FS * list log_entry :=
  match fs_unlink fs filePath with
  | inr fs' => (fs', [])
  | inl ENOENT => (fs, [])
  | inl code => (fs, [WarnFailedToDelete filePath code])
  end.

(** [await Promise.all(req.files.map(f => safeUnlink(f.path)))] *)
Definition unlink_all (files : list MulterFile) (fs : FS) : FS * list log_entry :=
  fold_left (fun '(fs', log) f =>
               let '(fs'', l) := safeUnlink fs' (file_path f) in (fs'', log ++ l))
            files (fs, []).

(** *** Multer: the [upload] middleware *)

(** Modelled from the spec: Multer itself (the [multer] package behind
    [multer({ storage, limits, fileFilter }).array('images', MAX_FILES)])
    is not part of the sources.  Parts are taken in order.  A part past
    the file limit, a part under another field name, a part that
    [fileFilter] refuses and a part longer than [limits.fileSize] each
    end the request with an error; every other part is written to
    [UPLOAD_DIR] under the name the [filename] callback gives, before the
    next part is looked at.  The result is the error if any, the files
    written so far and the filesystem. *)
Fixpoint multer_receive (parts : list Part) (stored : list MulterFile) (fs : FS)
  : option MulterError * list MulterFile * FS :=
  match parts with
  | [] => (None, stored, fs)
  | part :: rest =>
      if Nat.leb MAX_FILES (length stored) then (Some LIMIT_FILE_COUNT, stored, fs)
      else if negb (NodePath.str_eqb (part_fieldname part) (lit "images"))
      then (Some LIMIT_UNEXPECTED_FILE, stored, fs)
      else if negb (allowed (part_originalname part))
      then (Some FileFilterError, stored, fs)
      else
        let filename :=
          storage_filename (part_originalname part) (part_now part) (part_random part) in
        let file := {| file_originalname := part_originalname part;
                       file_filename := filename;
                       file_path := NodePath.join [UPLOAD_DIR; filename];
                       file_size := byteLength (part_data part) |} in
        match fs_writeFile (part_now part) fs (file_path file) (part_data part) with
        | inl code => (Some (StorageError code), stored, fs)
        | inr fs' =>
            if MAX_TOTAL_SIZE <? file_size file
            then (Some LIMIT_FILE_SIZE, stored ++ [file], fs')
            else multer_receive rest (stored ++ [file]) fs'
        end
  end.

(** Modelled from the spec: on an error Multer removes the files it has
    written for the request before it calls back with the error;
    otherwise it calls back with [req.files]. *)
Definition upload (parts : list Part) (fs : FS) : (MulterError + list MulterFile) * FS :=
  match multer_receive parts [] fs with
  | (Some err, stored, fs') => (inl err, (unlink_all stored fs').1)
  | (None, stored, fs') => (inr stored, fs')
  end.

(** A file object whose path is a name directly in [UPLOAD_DIR]. *)
Definition staged (f : MulterFile) : Prop :=
  exists name, proper_segment name = true /\ file_path f = UPLOAD_DIR ++ "/"%char :: name.

(** The bytes of a batch, added up as the handler adds [f.size]. *)
Definition aggregate_size (parts : list (@Part Buffer)) : Z :=
  fold_left (fun acc p => acc + byteLength (part_data p)) parts 0.

(** A batch that fails one of the three checks of the intake. *)
Definition violates_intake (parts : list Part) : Prop :=
  (MAX_FILES < length parts)%nat \/
  Exists (fun p => allowed (part_originalname p) = false) parts \/
  MAX_TOTAL_SIZE < aggregate_size parts.

(** *** [utils/processor.js] *)

(** Where a running [optimiseFile] call is suspended. *)
Inductive phase :=
  | AwaitRead
  | AwaitCodec (pl : plugin) (buffer : Buffer)
  | AwaitWrite (buffer optimizedBuffer : Buffer).

Inductive progress :=
  | Next (ph : phase)
  | Done (outcome : settled Meta).

(** [optimiseFile(file, outDir)], from one [await] to the next. *)
Definition optimiseFile_step (now : Z) (fs : FS) (file : MulterFile) (outDir : str)
    (ph : phase) : progress * FS :=
  match ph with
  | AwaitRead =>
      match fs_readFile fs (file_path file) with
      | inl code => (Done (Rejected (FsError code)), fs)
      | inr buffer =>
          let ext := toLowerCase (NodePath.extname (file_originalname file)) in
          match select_plugin ext with
          | Some pl => (Next (AwaitCodec pl buffer), fs)
          | None => (Done (Rejected UnsupportedFileType), fs)
          end
      end
  | AwaitCodec pl buffer =>
      match imagemin_buffer pl buffer with
      | Some optimizedBuffer => (Next (AwaitWrite buffer optimizedBuffer), fs)
      | None => (Done (Rejected CodecError), fs)
      end
  | AwaitWrite buffer optimizedBuffer =>
      let optimizedPath :=
        NodePath.join [outDir; optimizedName (file_originalname file)] in
      match fs_writeFile now fs optimizedPath optimizedBuffer with
      | inl code => (Done (Rejected (FsError code)), fs)
      | inr fs' =>
          (Done (Fulfilled {| meta_filename := file_filename file;
                              originalName := file_originalname file;
                              optimizedPath := optimizedPath;
                              sizeBefore := byteLength buffer;
                              sizeAfter := byteLength optimizedBuffer |}), fs')
      end
  end.

(** [optimiseFile] run alone, its three awaits completing at [now]. *)
Definition optimiseFile (now : Z) (fs : FS) (file : MulterFile) (outDir : str)
  : settled Meta * FS :=
  match optimiseFile_step now fs file outDir AwaitRead with
  | (Done o, fs1) => (o, fs1)
  | (Next ph1, fs1) =>
      match optimiseFile_step now fs1 file outDir ph1 with
      | (Done o, fs2) => (o, fs2)
      | (Next ph2, fs2) =>
          match optimiseFile_step now fs2 file outDir ph2 with
          | (Done o, fs3) => (o, fs3)
          | (Next _, fs3) => (Rejected UnsupportedFileType, fs3)
          end
      end
  end.

(** [processFiles] in flight: the limiter's queue and running units (by
    index in [files]), the value of every unit that has completed, and
    the reason of the first rejection, which is what [Promise.all]
    rejects with. *)
Record pool := {
  pool_fs : FS;
  pool_queue : list nat;
  pool_active : list (nat * phase);
  pool_slots : list (option (settled Meta));
  pool_rejected : option error
}.

(** Modelled from the spec: the limiter ([p-limit]) is not part of the
    sources.  [pLimit(concurrency)] refuses a limit below one.  Of the
    units submitted by [files.map], the first [concurrency] start at once,
    each up to its first [await]; the others queue in submission order. *)
Definition pool_start (files : list MulterFile) (concurrency : nat) (fs : FS) : pool :=
  let n := length files in
  match concurrency with
  | O => {| pool_fs := fs; pool_queue := []; pool_active := [];
            pool_slots := replicate n None;
            pool_rejected := Some ConcurrencyTypeError |}
  | _ => {| pool_fs := fs;
            pool_queue := drop concurrency (seq 0 n);
            pool_active := (fun i => (i, AwaitRead)) <$> take concurrency (seq 0 n);
            pool_slots := replicate n None;
            pool_rejected := None |}
  end.

(** Modelled from the spec: when a running unit completes, whether it
    fulfilled or rejected, the limiter starts the unit at the head of the
    queue, if there is one. *)
Definition limit_next (queue : list nat) (active : list (nat * phase))
  : list nat * list (nat * phase) :=
  match queue with
  | j :: queue' => (queue', active ++ [(j, AwaitRead)])
  | [] => ([], active)
  end.

(** One event: the awaited operation of one running unit completes and
    the unit runs to its next [await] or to its end. *)
Definition pool_step (files : list MulterFile) (outDir : str) (t : tick) (p : pool)
  : pool :=
  let k := (tick_pick t `mod` length (pool_active p))%nat in
  match pool_active p !! k with
  | None => p
  | Some (i, ph) =>
      match files !! i with
      | None => p
      | Some file =>
          match optimiseFile_step (tick_now t) (pool_fs p) file outDir ph with
          | (Next ph', fs') =>
              {| pool_fs := fs'; pool_queue := pool_queue p;
                 pool_active := <[k := (i, ph')]> (pool_active p);
                 pool_slots := pool_slots p;
                 pool_rejected := pool_rejected p |}
          | (Done outcome, fs') =>
              let '(queue', active') :=
                limit_next (pool_queue p) (delete k (pool_active p)) in
              {| pool_fs := fs'; pool_queue := queue'; pool_active := active';
                 pool_slots := <[i := Some outcome]> (pool_slots p);
                 pool_rejected :=
                   match pool_rejected p, outcome with
                   | None, Rejected reason => Some reason
                   | r, _ => r
                   end |}
          end
      end
  end.

Definition pool_run (files : list MulterFile) (outDir : str) (ticks : list tick)
    (p : pool) : pool :=
  fold_left (fun p t => pool_step files outDir t p) ticks p.

Definition fulfilled_value (slot : option (settled Meta)) : option Meta :=
  match slot with Some (Fulfilled m) => Some m | _ => None end.

(** [processFiles(files, { outDir, concurrency = 6 })] up to its
    [Promise.all]. *)
Definition processFiles (files : list MulterFile) (concurrency : option nat) (fs : FS)
  : pool :=
  pool_start files (default 6%nat concurrency) fs.

(** [Promise.all(jobs)]: rejected with the first rejection; fulfilled,
    once every unit has fulfilled, with the values in the order of
    [jobs]; pending otherwise. *)
Definition promise_all (p : pool) : option (settled (list Meta)) :=
  match pool_rejected p with
  | Some reason => Some (Rejected reason)
  | None => Fulfilled <$> mapM fulfilled_value (pool_slots p)
  end.

(** Units that have completed, and units that were started by the
    limiter: running or completed. *)
Definition completed (p : pool) : nat := length (omap id (pool_slots p)).
Definition started (p : pool) : nat := (length (pool_active p) + completed p)%nat.

(** The awaits a unit has ahead of it, and those of the whole pool. *)
Definition remaining (ph : phase) : nat :=
  match ph with AwaitRead => 3 | AwaitCodec _ _ => 2 | AwaitWrite _ _ => 1 end%nat.

Definition work (p : pool) : nat :=
  (3 * length (pool_queue p) + list_sum ((fun u => remaining u.2) <$> pool_active p))%nat.

(** The value of unit [i] is the metadata of file [i]. *)
Definition meta_of (outDir : str) (file : MulterFile) (m : Meta) : Prop :=
  meta_filename m = file_filename file /\
  originalName m = file_originalname file /\
  optimizedPath m = NodePath.join [outDir; optimizedName (file_originalname file)].

(** The state of a pool that [processFiles] started with limit [N]. *)
Record pool_inv (files : list MulterFile) (outDir : str) (N : nat) (p : pool) : Prop := {
  inv_slots : length (pool_slots p) = length files;
  inv_queue : pool_queue p = seq (started p) (length files - started p);
  inv_started : started p = Nat.min (length files) (N + completed p);
  inv_nodup : NoDup (pool_active p).*1;
  inv_active : forall i, i ∈ (pool_active p).*1 ->
                 (i < started p)%nat /\ pool_slots p !! i = Some None;
  inv_waiting : forall i, (started p <= i)%nat -> (i < length files)%nat ->
                  pool_slots p !! i = Some None;
  inv_rejected : forall reason, pool_rejected p = Some reason ->
                   exists i, pool_slots p !! i = Some (Some (Rejected reason));
  inv_rejected_slot : forall i reason,
                   pool_slots p !! i = Some (Some (Rejected reason)) ->
                   pool_rejected p <> None;
  inv_values : forall i m, pool_slots p !! i = Some (Some (Fulfilled m)) ->
                 exists file, files !! i = Some file /\ meta_of outDir file m
}.

(** The archiver: given the filesystem and the entries [(fp, nameInZip)]
    queued by [archive.file], the bytes it pipes and whether it fails. *)
Variable archiver : FS -> list (str * str) -> archive_run Buffer.

(** [__dirname] of [utils/processor.js]. *)
Definition processor_dirname : str := abs_path (root ++ [lit "utils"]).

(** [createZip(filePaths)]: [fs.open(zipPath, 'w')] creates the container
    at its final path, then the archive is piped into it; the promise
    resolves on the stream's ['close'] and rejects on the archiver's
    ['error']. *)
Definition createZip (random : list Byte.byte) (now : Z) (fs : FS)
    (filePaths : list str) : settled str * FS :=
  let zipName := zip_name random in
  let zipPath :=
    NodePath.join [processor_dirname; lit ".."; lit "optimized"; zipName] in
  let run := archiver fs (map (fun fp => (fp, NodePath.basename fp)) filePaths) in
  match fs_writeFile now fs zipPath (archive_written run) with
  | inl code => (Rejected (FsError code), fs)
  | inr fs' =>
      if archive_failed run then (Rejected ArchiveError, fs')
      else (Fulfilled zipName, fs')
  end.

(** *** [server.js]: POST /upload *)

(** A request to [POST /upload] in flight. *)
Record request := {
  req_files : list MulterFile;
  req_pool : pool;
  req_response : option response;
  req_log : list log_entry
}.

(** [processed.map(p => ({ ... }))] *)
Definition payload_entry (p : Meta) : FileEntry :=
  {| entry_originalName := originalName p;
     entry_optimizedName := NodePath.basename (optimizedPath p);
     downloadUrl := lit "/download/" ++ NodePath.basename (optimizedPath p);
     uploadUrl := lit "/upload/" ++ NodePath.basename (meta_filename p);
     entry_sizeBefore := sizeBefore p;
     entry_sizeAfter := sizeAfter p |}.

Definition with_fs (p : pool) (fs : FS) : pool :=
  {| pool_fs := fs; pool_queue := pool_queue p; pool_active := pool_active p;
     pool_slots := pool_slots p; pool_rejected := pool_rejected p |}.

(** The [catch (procErr)] block. *)
Definition on_processing_error (procErr : error) (r : request) : request :=
  let '(fs', l) := unlink_all (req_files r) (pool_fs (req_pool r)) in
  {| req_files := req_files r;
     req_pool := with_fs (req_pool r) fs';
     req_response := Some (Json500 (lit "Failed to process images"));
     req_log := req_log r ++ [ErrorProcessing procErr] ++ l |}.

(** The rest of the [try] block once [processFiles] has fulfilled. *)
Definition on_processed (random : list Byte.byte) (now : Z) (processed : list Meta)
    (r : request) : request :=
  let respond zipInfo fs :=
    {| req_files := req_files r;
       req_pool := with_fs (req_pool r) fs;
       req_response :=
         Some (Json200 {| payload_files := map payload_entry processed;
                          payload_zip := zipInfo |});
       req_log := req_log r |} in
  if Nat.ltb 1 (length processed) then
    match createZip random now (pool_fs (req_pool r)) (map optimizedPath processed) with
    | (Fulfilled zipName, fs') => respond (Some (lit "/download/" ++ zipName)) fs'
    | (Rejected procErr, fs') =>
        on_processing_error procErr
          {| req_files := req_files r; req_pool := with_fs (req_pool r) fs';
             req_response := req_response r; req_log := req_log r |}
    end
  else respond None (pool_fs (req_pool r)).

(** The handler resumes when [await processFiles(...)] settles. *)
Definition resume (random : list Byte.byte) (now : Z) (r : request) : request :=
  match req_response r with
  | Some _ => r
  | None =>
      match promise_all (req_pool r) with
      | None => r
      | Some (Fulfilled processed) => on_processed random now processed r
      | Some (Rejected procErr) => on_processing_error procErr r
      end
  end.

Definition idle (fs : FS) : pool :=
  {| pool_fs := fs; pool_queue := []; pool_active := []; pool_slots := [];
     pool_rejected := None |}.

(** [app.post('/upload', ...)] up to the first event of the batch. *)
Definition post_upload (random : list Byte.byte) (now : Z) (parts : list Part)
    (fs : FS) : request :=
  match upload parts fs with
  | (inl err, fs1) =>
      {| req_files := []; req_pool := idle fs1;
         req_response := Some (Json400 (inl err));
         req_log := [WarnUploadError err] |}
  | (inr files, fs1) =>
      let totalSize := fold_left (fun acc f => acc + file_size f) files 0 in
      if MAX_TOTAL_SIZE <? totalSize then
        let '(fs2, l) := unlink_all files fs1 in
        {| req_files := files; req_pool := idle fs2;
           req_response := Some (Json400 (inr (lit "Total upload size exceeds 100 MiB")));
           req_log := l |}
      else
        resume random now
          {| req_files := files; req_pool := processFiles files (Some 6%nat) fs1;
             req_response := None; req_log := [] |}
  end.

(** One event of the batch, then the handler if it was waiting. *)
Definition request_step (random : list Byte.byte) (r : request) (t : tick) : request :=
  resume random (tick_now t)
    {| req_files := req_files r;
       req_pool := pool_step (req_files r) OPTIMIZED_DIR t (req_pool r);
       req_response := req_response r;
       req_log := req_log r |}.

Definition request_run (random : list Byte.byte) (ticks : list tick) (r : request)
  : request :=
  fold_left (request_step random) ticks r.

(** The answer of the [catch] block. *)
Definition failure_response : response := Json500 (lit "Failed to process images").

(** What holds of a request that passed the intake, in every state,
    before the handler has been given the chance to resume. *)
Record req_pre (r : request) : Prop := {
  pre_staged : Forall staged (req_files r);
  pre_pool : pool_inv (req_files r) OPTIMIZED_DIR 6 (req_pool r);
  pre_present : req_response r = None ->
                forall f, f ∈ req_files r ->
                  exists m d, pool_fs (req_pool r) !! file_path f = Some (File m d);
  pre_rejected : forall resp, req_response r = Some resp ->
                 pool_rejected (req_pool r) <> None -> resp = failure_response;
  pre_quiet : forall resp, req_response r = Some resp -> resp <> failure_response ->
              pool_active (req_pool r) = [];
  pre_cleaned : req_response r = Some failure_response ->
                forall f, f ∈ req_files r ->
                  pool_fs (req_pool r) !! file_path f = None
}.

(** The same once the handler has resumed: while there is no response,
    [processFiles] is still pending. *)
Definition req_inv (r : request) : Prop :=
  req_pre r /\ (req_response r = None -> promise_all (req_pool r) = None).

(** A request that was answered at the intake. *)
Definition answered_at_intake (r : request) : Prop :=
  req_response r <> None /\ pool_active (req_pool r) = [] /\ pool_slots (req_pool r) = [].

(** *** [server.js]: GET /download/:filename and GET /upload/:filename *)

(** [res.download(filePath, safeName, err => { if (err) logger.warn(...) })]:
    Express sends a regular file as an attachment named [safeName]; for a
    directory the transfer fails with [EISDIR], and for a missing path
    with [ENOENT].  The callback of the two routes only logs the error,
    so that nothing is answered then. *)
Definition res_download (fs : FS) (filePath safeName : str) : response :=
  match fs !! filePath with
  | Some (File _ _) => Download filePath safeName
  | Some (Dir _) => DownloadFailed filePath EISDIR
  | None => DownloadFailed filePath ENOENT
  end.

Definition get_download (fs : FS) (filename : str) : response :=
  let safeName := NodePath.basename filename in
  let filePath := NodePath.join [OPTIMIZED_DIR; safeName] in
  if negb (NodePath.startsWith filePath OPTIMIZED_DIR)
  then Send400 (lit "Invalid file request")
  else if fs_access fs filePath then res_download fs filePath safeName
  else Send404 (lit "File not found").




(** *** [server.js]: the cleanup job *)

(** The [for] loop of [cleanFolder]; an exception of [fs.stat] leaves the
    loop for the [catch] of [cleanFolder]. *)
Fixpoint clean_entries (now : Z) (folder : str) (entries : list Dirent) (fs : FS)
  : FS * list log_entry :=
  match entries with
  | [] => (fs, [])
  | entry :: rest =>
      if negb (dirent_isFile entry) then clean_entries now folder rest fs
      else
        let filePath := NodePath.join [folder; dirent_name entry] in
        match fs_stat fs filePath with
        | inl code => (fs, [WarnCleanupError folder code])
        | inr stats =>
            if CLEANUP_AFTER_MS <? now - stats_mtimeMs stats then
              let '(fs1, l1) := safeUnlink fs filePath in
              let '(fs2, l2) := clean_entries now folder rest fs1 in
              (fs2, l1 ++ [InfoCleanedUp filePath] ++ l2)
            else clean_entries now folder rest fs
        end
  end.

Definition cleanFolder (now : Z) (folder : str) (fs : FS) : FS * list log_entry :=
  match fs_readdir fs folder with
  | inl code => (fs, [WarnCleanupError folder code])
  | inr entries => clean_entries now folder entries fs
  end.

(** The body of the scheduled job.  The two [cleanFolder] calls of
    [Promise.all] touch different directories; they are run one after the
    other. *)
Definition sweep (now : Z) (fs : FS) : FS * list log_entry :=
  let '(fs1, l1) := cleanFolder now UPLOAD_DIR fs in
  let '(fs2, l2) := cleanFolder now OPTIMIZED_DIR fs1 in
  (fs2, l1 ++ l2).

(** No file directly in [dir] is older than the retention threshold at
    [now]. *)
Definition nothing_expired (now : Z) (dir : str) (fs : FS) : Prop :=
  forall name m d,
    proper_segment name = true ->
    fs !! (dir ++ "/"%char :: name) = Some (File m d) ->
    (CLEANUP_AFTER_MS <? now - m) = false.

(** From [fs] to [fs'] files were removed and nothing else changed. *)
Definition only_removes_files (fs fs' : FS) : Prop :=
  forall q,
    fs' !! q = fs !! q \/ (fs' !! q = None /\ exists m d, fs !! q = Some (File m d)).



(** *** Further notions used to state what the code guarantees *)

(** The file object of a stored part, as [multer_receive] builds it. *)
Definition stored_file (part : @Part Buffer) : MulterFile :=
  let filename :=
    storage_filename (part_originalname part) (part_now part) (part_random part) in
  {| file_originalname := part_originalname part;
     file_filename := filename;
     file_path := NodePath.join [UPLOAD_DIR; filename];
     file_size := byteLength (part_data part) |}.

(** A regular file directly in one of the two areas whose age at [now]
    is past the retention threshold. *)
Definition expired_file (now : Z) (fs : FS) (q : str) : Prop :=
  exists name m d,
    proper_segment name = true /\
    (q = UPLOAD_DIR ++ "/"%char :: name \/ q = OPTIMIZED_DIR ++ "/"%char :: name) /\
    fs !! q = Some (File m d) /\ CLEANUP_AFTER_MS < now - m.

(** Every output that a fulfilled unit reports is on disk. *)
Definition outputs_present (p : pool) : Prop :=
  forall i m, pool_slots p !! i = Some (Some (Fulfilled m)) ->
    is_Some (pool_fs p !! optimizedPath m).

(** What the 200 answer [payload] says about the state [r] it was sent
    in: the entries are those of the values of [processFiles], the
    archive is announced exactly for more than one file and is then on
    disk, and the originals are still in the incoming area. *)
Record success_inv (random : list Byte.byte) (r : request) (payload : Payload)
  : Prop := {
  ok_processed : exists processed,
      promise_all (req_pool r) = Some (Fulfilled processed) /\
      payload_files payload = map payload_entry processed;
  ok_zip : payload_zip payload
           = if Nat.ltb 1 (length (req_files r))
             then Some (lit "/download/" ++ zip_name random) else None;
  ok_zip_present : (1 < length (req_files r))%nat ->
      exists t written,
        pool_fs (req_pool r) !! (OPTIMIZED_DIR ++ "/"%char :: zip_name random)
        = Some (File t written);
  ok_originals : forall f, f ∈ req_files r ->
      is_Some (pool_fs (req_pool r) !! file_path f)
}.

(** A request that passed the intake, with what its answer implies. *)
Definition req_served (random : list Byte.byte) (r : request) : Prop :=
  req_inv r /\ outputs_present (req_pool r) /\
  forall payload, req_response r = Some (Json200 payload) -> success_inv random r payload.

(** The answers the handler of [POST /upload] can send. *)
Definition handler_answer (resp : response) : Prop :=
  match resp with
  | Json200 _ | Json400 _ => True
  | Json500 err => err = lit "Failed to process images"
  | _ => False
  end.

(** Whatever is at the staged path of [f] is a regular file that holds
    the bytes [d]. *)
Definition holds_upload (fs : FS) (f : MulterFile) (d : Buffer) : Prop :=
  forall nd, fs !! file_path f = Some nd -> exists m, nd = File m d.

(** [ob] is what the codec makes of [d] with the plugin selected by the
    extension of [originalname]. *)
Definition codec_of (originalname : str) (d ob : Buffer) : Prop :=
  exists pl,
    select_plugin (toLowerCase (NodePath.extname originalname)) = Some pl /\
    imagemin_buffer pl d = Some ob.

(** A running unit of the file [f], uploaded as [d], holds [d] and what
    the codec made of it. *)
Definition unit_ok (f : MulterFile) (d : Buffer) (ph : phase) : Prop :=
  match ph with
  | AwaitRead => True
  | AwaitCodec pl b =>
      b = d /\
      select_plugin (toLowerCase (NodePath.extname (file_originalname f))) = Some pl
  | AwaitWrite b ob => b = d /\ codec_of (file_originalname f) d ob
  end.

(** The sizes in the value of a unit are those of the upload and of the
    codec's output for it. *)
Definition value_ok (f : MulterFile) (d : Buffer) (m : Meta) : Prop :=
  exists ob, codec_of (file_originalname f) d ob /\
             sizeBefore m = byteLength d /\ sizeAfter m = byteLength ob.

(** The bytes that the units of a batch work on, with [datas] the bytes
    uploaded for each file. *)
Record data_inv (datas : list Buffer) (files : list MulterFile) (p : pool) : Prop := {
  data_uploads : forall i f d, files !! i = Some f -> datas !! i = Some d ->
                   holds_upload (pool_fs p) f d;
  data_units : forall i ph f d, (i, ph) ∈ pool_active p ->
                 files !! i = Some f -> datas !! i = Some d -> unit_ok f d ph;
  data_values : forall i m f d, pool_slots p !! i = Some (Some (Fulfilled m)) ->
                  files !! i = Some f -> datas !! i = Some d -> value_ok f d m
}.

(** The output that a fulfilled unit reports is a regular file on disk,
    and holds what the codec made of the bytes uploaded for the file at
    the unit's position. *)
Definition outputs_hold (datas : list Buffer) (files : list MulterFile) (p : pool)
  : Prop :=
  forall i m f d, pool_slots p !! i = Some (Some (Fulfilled m)) ->
    files !! i = Some f -> datas !! i = Some d ->
    exists t ob, pool_fs p !! optimizedPath m = Some (File t ob) /\
                 codec_of (file_originalname f) d ob.

(** ** Strings *)

Lemma str_eqb_eq (a b : str) : NodePath.str_eqb a b = true <-> a = b.
Proof.
  revert b. induction a as [|x a IH]; intros [|y b]; simpl; try easy.
  rewrite andb_true_iff, Ascii.eqb_eq, IH. split.
  - intros [-> ->]. reflexivity.
  - intros [= -> ->]. easy.
Qed.

Lemma str_eqb_refl (a : str) : NodePath.str_eqb a a = true.
Proof. apply str_eqb_eq. reflexivity. Qed.

Lemma str_eqb_neq (a b : str) : NodePath.str_eqb a b = false <-> a <> b.
Proof.
  rewrite <- str_eqb_eq. destruct (NodePath.str_eqb a b); split; congruence.
Qed.

Lemma startsWith_app (s t : str) :
  NodePath.startsWith s t = true <-> exists k, s = t ++ k.
Proof.
  revert s. induction t as [|y t IH]; intros s; simpl.
  - split; [intros _; exists s; reflexivity | intros _; destruct s; reflexivity].
  - destruct s as [|x s].
    + split; [discriminate | intros [k Hk]; discriminate].
    + simpl. rewrite andb_true_iff, Ascii.eqb_eq, IH. split.
      * intros [-> [k ->]]. exists k. reflexivity.
      * intros [k [= -> ->]]. split; [reflexivity | exists k; reflexivity].
Qed.

Lemma endsWith_app (s t : str) :
  NodePath.endsWith s t = true <-> exists k, s = k ++ t.
Proof.
  unfold NodePath.endsWith. rewrite startsWith_app. split.
  - intros [k Hk]. exists (rev k).
    rewrite <- (rev_involutive s), Hk, rev_app_distr, rev_involutive. reflexivity.
  - intros [k ->]. exists (rev k). apply rev_app_distr.
Qed.

Lemma endsWith_length (s t : str) :
  NodePath.endsWith s t = true -> (length t <= length s)%nat.
Proof.
  intros [k ->]%endsWith_app. rewrite length_app. lia.
Qed.

Lemma no_slash_app (a b : str) : no_slash (a ++ b) = no_slash a && no_slash b.
Proof. apply forallb_app. Qed.

Lemma no_slash_rev (a : str) : no_slash (rev a) = no_slash a.
Proof.
  induction a as [|c a IH]; [reflexivity|].
  simpl. rewrite no_slash_app, IH. simpl. rewrite andb_true_r. apply andb_comm.
Qed.

Lemma no_slash_firstn (k : nat) (a : str) :
  no_slash a = true -> no_slash (firstn k a) = true.
Proof.
  revert k. induction a as [|c a IH]; intros [|k]; simpl; try easy.
  rewrite !andb_true_iff. intros [? ?]. auto.
Qed.

Lemma no_slash_In (a : str) : no_slash a = true <-> ~ In "/"%char a.
Proof.
  unfold no_slash. rewrite forallb_forall. split.
  - intros H Hin. specialize (H _ Hin). discriminate.
  - intros H c Hc. unfold NodePath.is_slash.
    destruct (Ascii.eqb_spec c "/"); [subst; contradiction | reflexivity].
Qed.

Lemma span_not_slash (s : str) :
  no_slash (NodePath.span (fun c => negb (NodePath.is_slash c)) s) = true.
Proof.
  induction s as [|c s IH]; [reflexivity|].
  simpl. destruct (NodePath.is_slash c) eqn:E; simpl; [reflexivity|].
  rewrite E. exact IH.
Qed.

Lemma span_skip (f : ascii -> bool) (s : str) :
  NodePath.span f s ++ NodePath.skip f s = s.
Proof.
  induction s as [|c s IH]; [reflexivity|].
  simpl. destruct (f c); simpl; [f_equal; exact IH | reflexivity].
Qed.

Lemma span_length (f : ascii -> bool) (s : str) :
  (length (NodePath.span f s) <= length s)%nat.
Proof.
  rewrite <- (span_skip f s) at 2. rewrite length_app. lia.
Qed.

Lemma skip_length (f : ascii -> bool) (s : str) :
  (length (NodePath.skip f s) <= length s)%nat.
Proof.
  rewrite <- (span_skip f s) at 2. rewrite length_app. lia.
Qed.

Lemma last_component_no_slash (p : str) : no_slash (NodePath.last_component p) = true.
Proof.
  unfold NodePath.last_component. rewrite no_slash_rev. apply span_not_slash.
Qed.

Lemma last_component_length (p : str) :
  (length (NodePath.last_component p) <= length p)%nat.
Proof.
  unfold NodePath.last_component. rewrite length_rev.
  etransitivity; [apply span_length|].
  etransitivity; [apply skip_length|]. rewrite length_rev. lia.
Qed.


(** A path without separator is its own last component. *)
Lemma last_component_id (s : str) :
  no_slash s = true -> NodePath.last_component s = s.
Proof.
  intros H. unfold NodePath.last_component.
  rewrite <- (rev_involutive s) at 2. f_equal.
  rewrite <- no_slash_rev in H. revert H.
  generalize (rev s) as r. intros r Hr.
  assert (Hskip : NodePath.skip NodePath.is_slash r = r).
  { destruct r as [|c r]; [reflexivity|]. simpl in *.
    apply andb_true_iff in Hr as [Hc _].
    destruct (NodePath.is_slash c); [discriminate | reflexivity]. }
  rewrite Hskip. clear Hskip.
  induction r as [|c r IH]; [reflexivity|]. simpl in *.
  apply andb_true_iff in Hr as [Hc Hr]. rewrite Hc. f_equal. auto.
Qed.

(** The extension is a proper end of the last component. *)
Lemma extname_spec (p : str) :
  NodePath.extname p = [] \/
  exists stem, stem <> [] /\
    NodePath.last_component p = stem ++ NodePath.extname p /\
    exists e, NodePath.extname p = "."%char :: e.
Proof.
  unfold NodePath.extname.
  set (comp := NodePath.last_component p).
  set (nd := fun c => negb (NodePath.is_dot c)).
  pose proof (span_skip nd (rev comp)) as Hsplit.
  destruct (NodePath.skip nd (rev comp)) as [|d [|b before]] eqn:Hskip; auto.
  destruct (NodePath.str_eqb comp (lit "..")); auto.
  right. exists (rev (b :: before)). split.
  { intros Hnil. apply (f_equal (@length ascii)) in Hnil.
    rewrite length_rev in Hnil. discriminate. }
  assert (Hd : d = "."%char).
  { assert (Hh : nd d = false).
    { clear Hsplit. revert Hskip. generalize (rev comp) as r.
      induction r as [|c r IH]; simpl; [discriminate|].
      destruct (nd c) eqn:E; [exact IH|]. intros [= -> _]. exact E. }
    unfold nd, NodePath.is_dot in Hh. apply negb_false_iff in Hh.
    apply Ascii.eqb_eq in Hh. exact Hh. }
  subst d. split; [|eexists; reflexivity].
  apply (f_equal (@rev ascii)) in Hsplit.
  rewrite rev_involutive, rev_app_distr in Hsplit. rewrite <- Hsplit at 1.
  simpl. rewrite <- !app_assoc. reflexivity.
Qed.

Lemma extname_no_slash (p : str) : no_slash (NodePath.extname p) = true.
Proof.
  destruct (extname_spec p) as [-> | (stem & _ & Hc & _)]; [reflexivity|].
  pose proof (last_component_no_slash p) as H.
  rewrite Hc, no_slash_app in H. apply andb_true_iff in H as [_ H]. exact H.
Qed.

Lemma extname_shorter (p : str) :
  NodePath.extname p <> [] ->
  (length (NodePath.extname p) < length (NodePath.last_component p))%nat.
Proof.
  intros Hne. destruct (extname_spec p) as [? | (stem & Hs & Hc & _)]; [contradiction|].
  rewrite Hc, length_app. destruct stem; [contradiction | simpl; lia].
Qed.

(** With a suffix shorter than the last component, [basename] returns a
    beginning of that component. *)
Lemma basename_ext_prefix (p suffix : str) :
  suffix = [] \/ (length suffix < length (NodePath.last_component p))%nat ->
  exists k, NodePath.last_component p = NodePath.basename_ext p suffix ++ k.
Proof.
  intros H. unfold NodePath.basename_ext, NodePath.basename.
  destruct (Nat.eqb (length suffix) 0 || Nat.ltb (length p) (length suffix))%bool eqn:E.
  { exists []. rewrite app_nil_r. reflexivity. }
  apply orb_false_iff in E as [E1 E2].
  apply Nat.eqb_neq in E1. apply Nat.ltb_ge in E2.
  destruct H as [-> | H]; [simpl in E1; lia|].
  pose proof (last_component_length p) as Hlen.
  destruct (NodePath.str_eqb suffix p) eqn:Eq.
  { apply str_eqb_eq in Eq. subst. lia. }
  destruct (NodePath.endsWith (NodePath.last_component p) suffix) eqn:E3.
  - destruct (Nat.eqb_spec (length (NodePath.last_component p)) (length suffix)); [lia|].
    exists (skipn (length (NodePath.last_component p) - length suffix)
                  (NodePath.last_component p)).
    symmetry. apply firstn_skipn.
  - destruct (NodePath.endsWith suffix (NodePath.last_component p)) eqn:E4.
    + apply endsWith_length in E4. lia.
    + exists []. rewrite app_nil_r. reflexivity.
Qed.

Lemma basename_ext_no_slash (p suffix : str) :
  suffix = [] \/ (length suffix < length (NodePath.last_component p))%nat ->
  no_slash (NodePath.basename_ext p suffix) = true.
Proof.
  intros H. destruct (basename_ext_prefix p suffix H) as [k Hk].
  pose proof (last_component_no_slash p) as Hn.
  rewrite Hk, no_slash_app in Hn. apply andb_true_iff in Hn as [Hn _]. exact Hn.
Qed.

Lemma lower_char_slash (c : ascii) :
  NodePath.is_slash (lower_char c) = NodePath.is_slash c.
Proof. destruct c as [[] [] [] [] [] [] [] []]; reflexivity. Qed.

Lemma toLowerCase_no_slash (s : str) : no_slash (toLowerCase s) = no_slash s.
Proof.
  induction s as [|c s IH]; [reflexivity|].
  change (negb (NodePath.is_slash (lower_char c)) && no_slash (toLowerCase s)
          = negb (NodePath.is_slash c) && no_slash s).
  rewrite lower_char_slash, IH. reflexivity.
Qed.

Lemma toLowerCase_length (s : str) : length (toLowerCase s) = length s.
Proof. apply length_map. Qed.

Lemma replace_spaces_from_no_slash (b : bool) (s : str) :
  no_slash s = true -> no_slash (replace_spaces_from b s) = true.
Proof.
  revert b. induction s as [|c s IH]; intros b; [reflexivity|].
  simpl. intros [Hc Hs]%andb_true_iff.
  destruct (is_space c); [destruct b|]; simpl; rewrite ?Hc; simpl; auto.
Qed.

Lemma number_to_string_no_slash (n : Z) : no_slash (number_to_string n) = true.
Proof.
  unfold number_to_string.
  assert (Hu : forall d, no_slash (lit (DecimalString.NilEmpty.string_of_uint d)) = true).
  { induction d; simpl; auto. }
  assert (Hz : forall d, no_slash (lit (DecimalString.NilZero.string_of_uint d)) = true).
  { intros d. unfold DecimalString.NilZero.string_of_uint.
    destruct d; try apply Hu. reflexivity. }
  unfold DecimalString.NilZero.string_of_int.
  destruct (Z.to_int n); [apply Hz|]. simpl. apply Hz.
Qed.

(** A slash-free name that holds a hyphen is a proper segment. *)
Lemma proper_segment_hyphen (s : str) :
  no_slash s = true -> In "-"%char s -> proper_segment s = true.
Proof.
  intros Hn Hin. unfold proper_segment. rewrite Hn, andb_true_r.
  destruct s as [|a [|b [|c s]]]; simpl in *; try tauto.
  - destruct Hin as [-> | []]. reflexivity.
  - destruct Hin as [-> | [-> | []]]; [reflexivity|].
    destruct (Ascii.eqb a "."); reflexivity.
  - rewrite !andb_false_r. reflexivity.
Qed.

(** ** Normalisation of absolute paths *)

Lemma proper_segment_no_slash (s : str) : proper_segment s = true -> no_slash s = true.
Proof. unfold proper_segment. rewrite !andb_true_iff. tauto. Qed.

Lemma proper_segment_nonempty (s : str) : proper_segment s = true -> s <> [].
Proof. intros H ->. discriminate. Qed.

Lemma Forall_proper_no_slash (segs : list str) :
  Forall (fun s => proper_segment s = true) segs ->
  Forall (fun s => no_slash s = true) segs.
Proof.
  intros H. eapply Forall_impl; [exact H | exact proper_segment_no_slash].
Qed.

Lemma push_segment_proper (b : bool) (stack : list str) (seg : str) :
  proper_segment seg = true -> NodePath.push_segment b stack seg = seg :: stack.
Proof.
  unfold proper_segment, NodePath.push_segment.
  rewrite !andb_true_iff, !negb_true_iff. intros [[[-> ->] ->] _]. reflexivity.
Qed.

Lemma fold_push_proper (b : bool) (segs stack : list str) :
  Forall (fun s => proper_segment s = true) segs ->
  fold_left (NodePath.push_segment b) segs stack = rev segs ++ stack.
Proof.
  intros H. revert stack. induction H as [|s segs Hs _ IH]; intros stack; [reflexivity|].
  simpl. rewrite push_segment_proper by exact Hs.
  rewrite IH, <- app_assoc. reflexivity.
Qed.

Lemma split_slash_nonempty (p : str) : NodePath.split_slash p <> [].
Proof.
  destruct p as [|c p]; simpl; [discriminate|].
  destruct (NodePath.is_slash c); [discriminate|].
  destruct (NodePath.split_slash p); discriminate.
Qed.

Lemma split_slash_no_slash (s : str) : no_slash s = true -> NodePath.split_slash s = [s].
Proof.
  induction s as [|c s IH]; [reflexivity|].
  simpl. intros [Hc Hs]%andb_true_iff. apply negb_true_iff in Hc.
  rewrite Hc, (IH Hs). reflexivity.
Qed.

Lemma split_slash_app (a b : str) :
  no_slash a = true ->
  NodePath.split_slash (a ++ "/"%char :: b) = a :: NodePath.split_slash b.
Proof.
  induction a as [|c a IH]; [reflexivity|].
  simpl. intros [Hc Ha]%andb_true_iff. apply negb_true_iff in Hc.
  rewrite Hc, (IH Ha). reflexivity.
Qed.

Lemma split_slash_join (segs : list str) :
  segs <> [] -> Forall (fun s => no_slash s = true) segs ->
  NodePath.split_slash (NodePath.join_slash segs) = segs.
Proof.
  intros Hne H. induction H as [|s segs Hs Hsegs IH]; [contradiction|].
  destruct segs as [|s' segs].
  - simpl. apply split_slash_no_slash. exact Hs.
  - change (NodePath.join_slash (s :: s' :: segs))
      with (s ++ "/"%char :: NodePath.join_slash (s' :: segs)).
    rewrite split_slash_app by exact Hs. f_equal. apply IH. discriminate.
Qed.

Lemma join_slash_cons (s : str) (segs : list str) :
  segs <> [] ->
  NodePath.join_slash (s :: segs) = s ++ "/"%char :: NodePath.join_slash segs.
Proof. destruct segs; [contradiction | reflexivity]. Qed.

Lemma join_slash_app (l1 l2 : list str) :
  l1 <> [] -> l2 <> [] ->
  NodePath.join_slash (l1 ++ l2)
  = NodePath.join_slash l1 ++ "/"%char :: NodePath.join_slash l2.
Proof.
  intros H1 H2. induction l1 as [|s l1 IH]; [contradiction|].
  destruct l1 as [|s' l1].
  - simpl app. rewrite join_slash_cons by exact H2. reflexivity.
  - change ((s :: s' :: l1) ++ l2) with (s :: ((s' :: l1) ++ l2)).
    rewrite join_slash_cons by discriminate.
    rewrite IH by discriminate.
    rewrite (join_slash_cons s (s' :: l1)) by discriminate.
    rewrite <- app_assoc. reflexivity.
Qed.

Lemma abs_path_snoc (segs : list str) (name : str) :
  segs <> [] -> abs_path (segs ++ [name]) = abs_path segs ++ "/"%char :: name.
Proof.
  intros H. unfold abs_path. rewrite join_slash_app by (exact H || discriminate).
  reflexivity.
Qed.

Lemma abs_path_inj (l1 l2 : list str) :
  l1 <> [] -> l2 <> [] ->
  Forall (fun s => no_slash s = true) l1 -> Forall (fun s => no_slash s = true) l2 ->
  abs_path l1 = abs_path l2 -> l1 = l2.
Proof.
  intros N1 N2 H1 H2 [= E].
  rewrite <- (split_slash_join l1 N1 H1), <- (split_slash_join l2 N2 H2), E.
  reflexivity.
Qed.

(** The last character of a joined path is that of its last segment. *)
Lemma trailing_slash_abs (segs : list str) (s : str) :
  s <> [] -> no_slash s = true ->
  NodePath.has_trailing_slash (abs_path (segs ++ [s])) = false.
Proof.
  intros Hne Hs.
  assert (Hpre : exists pre, abs_path (segs ++ [s]) = pre ++ s).
  { unfold abs_path. destruct segs as [|s0 segs].
    - exists ["/"%char]. reflexivity.
    - rewrite join_slash_app by discriminate.
      exists ("/"%char :: NodePath.join_slash (s0 :: segs) ++ ["/"%char]).
      simpl. rewrite <- app_assoc. reflexivity. }
  destruct Hpre as [pre ->].
  destruct (exists_last Hne) as (s' & z & ->).
  unfold NodePath.has_trailing_slash.
  rewrite app_assoc, rev_app_distr. simpl.
  rewrite no_slash_app in Hs. apply andb_true_iff in Hs as [_ Hz].
  simpl in Hz. rewrite andb_true_r in Hz. apply negb_true_iff in Hz. exact Hz.
Qed.

(** [normalize] of an absolute path, by segments. *)
Lemma normalize_abs (segs : list str) :
  Forall (fun s => no_slash s = true) segs -> last segs <> Some [] ->
  NodePath.normalize (abs_path segs)
  = abs_path (rev (fold_left (NodePath.push_segment false) segs [])).
Proof.
  intros Hns Hlast. unfold NodePath.normalize, abs_path. cbv beta iota.
  assert (Hq : NodePath.normalizeString ("/"%char :: NodePath.join_slash segs)
                 (negb (NodePath.isAbsolute ("/"%char :: NodePath.join_slash segs)))
               = NodePath.join_slash
                   (rev (fold_left (NodePath.push_segment false) segs []))).
  { unfold NodePath.normalizeString. simpl NodePath.split_slash. simpl negb.
    destruct segs as [|s segs]; [reflexivity|].
    rewrite split_slash_join by (discriminate || exact Hns). reflexivity. }
  rewrite Hq. clear Hq. simpl NodePath.isAbsolute. cbv iota.
  destruct (NodePath.join_slash (rev (fold_left (NodePath.push_segment false) segs [])))
    as [|c q] eqn:Eq; [reflexivity|].
  destruct segs as [|s0 segs' _] using rev_ind; [discriminate|].
  assert (Hs0 : s0 <> []).
  { intros ->. apply Hlast. apply last_snoc. }
  apply Forall_app in Hns as [_ Hs0n]. inversion Hs0n; subst.
  pose proof (trailing_slash_abs segs' s0 Hs0 H1) as Ht.
  unfold abs_path in Ht. rewrite Ht. reflexivity.
Qed.

(** [path.join(dir, name)] for a slash-free, non-empty [name]. *)
Lemma join_abs (segs : list str) (name : str) :
  Forall (fun s => proper_segment s = true) segs ->
  no_slash name = true -> name <> [] ->
  NodePath.join [abs_path segs; name]
  = abs_path (rev (NodePath.push_segment false (rev segs) name)).
Proof.
  intros Hp Hn Hne. unfold NodePath.join.
  assert (Hf : List.filter (fun a : str => negb (Nat.eqb (length a) 0))
                 [abs_path segs; name] = [abs_path segs; name]).
  { simpl. destruct name; [contradiction | reflexivity]. }
  rewrite Hf. clear Hf.
  destruct segs as [|s segs].
  - change (NodePath.join_slash [abs_path []; name]) with (abs_path [[]; name]).
    rewrite normalize_abs.
    + reflexivity.
    + repeat constructor. exact Hn.
    + simpl. intros [= ->]. contradiction.
  - assert (E : NodePath.join_slash [abs_path (s :: segs); name]
                = abs_path ((s :: segs) ++ [name])).
    { rewrite abs_path_snoc by discriminate. reflexivity. }
    rewrite E, normalize_abs.
    + rewrite fold_left_app.
      rewrite (fold_push_proper false (s :: segs) []) by exact Hp.
      rewrite app_nil_r. reflexivity.
    + apply Forall_app. split; [apply Forall_proper_no_slash; exact Hp|].
      repeat constructor. exact Hn.
    + rewrite last_snoc. intros [= ->]. contradiction.
Qed.

Lemma join_abs_proper (segs : list str) (name : str) :
  Forall (fun s => proper_segment s = true) segs -> proper_segment name = true ->
  NodePath.join [abs_path segs; name] = abs_path (segs ++ [name]).
Proof.
  intros Hp Hn. rewrite join_abs.
  - rewrite push_segment_proper by exact Hn. simpl. rewrite rev_involutive. reflexivity.
  - exact Hp.
  - apply proper_segment_no_slash. exact Hn.
  - apply proper_segment_nonempty. exact Hn.
Qed.


(** ** The two storage areas *)

(** [__dirname] is an absolute, normalised path. *)
Hypothesis root_proper : Forall (fun s => proper_segment s = true) root.

Lemma UPLOAD_DIR_abs : UPLOAD_DIR = abs_path (root ++ [lit "uploads"]).
Proof. apply join_abs_proper; [exact root_proper | reflexivity]. Qed.

Lemma OPTIMIZED_DIR_abs : OPTIMIZED_DIR = abs_path (root ++ [lit "optimized"]).
Proof. apply join_abs_proper; [exact root_proper | reflexivity]. Qed.

Lemma area_proper (area : str) :
  proper_segment area = true ->
  Forall (fun s => proper_segment s = true) (root ++ [area]).
Proof.
  intros H. apply Forall_app. split; [exact root_proper | repeat constructor; exact H].
Qed.

Lemma root_area_nonempty (area : str) : root ++ [area] <> [].
Proof. destruct root; discriminate. Qed.

(** A proper name joined to an area is the area, a separator and the name. *)
Lemma join_area_child (area name : str) :
  proper_segment area = true -> proper_segment name = true ->
  NodePath.join [abs_path (root ++ [area]); name]
  = abs_path (root ++ [area]) ++ "/"%char :: name.
Proof.
  intros Ha Hn. rewrite join_abs_proper by (apply area_proper; exact Ha) || exact Hn.
  apply abs_path_snoc, root_area_nonempty.
Qed.

Lemma join_upload_child (name : str) :
  proper_segment name = true ->
  NodePath.join [UPLOAD_DIR; name] = UPLOAD_DIR ++ "/"%char :: name.
Proof. rewrite UPLOAD_DIR_abs. apply join_area_child. reflexivity. Qed.

Lemma join_optimized_child (name : str) :
  proper_segment name = true ->
  NodePath.join [OPTIMIZED_DIR; name] = OPTIMIZED_DIR ++ "/"%char :: name.
Proof. rewrite OPTIMIZED_DIR_abs. apply join_area_child. reflexivity. Qed.


Lemma abs_root_area (area : str) : abs_path (root ++ [area]) = root_slash ++ area.
Proof.
  unfold root_slash, __dirname. destruct root as [|s l] eqn:E; [reflexivity|].
  rewrite abs_path_snoc by discriminate. rewrite <- app_assoc. reflexivity.
Qed.

(** No path lies in both areas. *)
Lemma areas_disjoint (a b : str) :
  UPLOAD_DIR ++ "/"%char :: a <> OPTIMIZED_DIR ++ "/"%char :: b.
Proof.
  rewrite UPLOAD_DIR_abs, OPTIMIZED_DIR_abs, !abs_root_area, <- !app_assoc.
  intros H. apply app_inv_head in H. discriminate.
Qed.

Lemma upload_area_not_optimized (p : str) :
  NodePath.startsWith p (UPLOAD_DIR ++ lit "/") = true ->
  NodePath.startsWith p (OPTIMIZED_DIR ++ lit "/") = false.
Proof.
  intros [a ->]%startsWith_app.
  destruct (NodePath.startsWith _ (OPTIMIZED_DIR ++ lit "/")) eqn:E; [|reflexivity].
  apply startsWith_app in E as [b Hb]. rewrite <- !app_assoc in Hb.
  apply areas_disjoint in Hb. contradiction.
Qed.

(** The names the server derives are proper segments. *)
Lemma storage_filename_proper (originalname : str) (now random : Z) :
  proper_segment (storage_filename originalname now random) = true.
Proof.
  apply proper_segment_hyphen.
  - unfold storage_filename. rewrite !no_slash_app, !andb_true_iff.
    repeat split;
      try reflexivity; try apply number_to_string_no_slash; try apply extname_no_slash.
    apply replace_spaces_from_no_slash, basename_ext_no_slash.
    destruct (NodePath.extname originalname) eqn:E; [left; reflexivity|].
    right. rewrite <- E. apply extname_shorter. rewrite E. discriminate.
  - unfold storage_filename. apply in_or_app. right. left. reflexivity.
Qed.

Lemma optimizedName_proper (originalname : str) :
  proper_segment (optimizedName originalname) = true.
Proof.
  apply proper_segment_hyphen.
  - unfold optimizedName. rewrite !no_slash_app, toLowerCase_no_slash, !andb_true_iff.
    repeat split; try reflexivity; try apply extname_no_slash.
    apply basename_ext_no_slash. rewrite toLowerCase_length.
    destruct (NodePath.extname originalname) eqn:E; [left; reflexivity|].
    right. rewrite <- E. apply extname_shorter. rewrite E. discriminate.
  - unfold optimizedName. apply in_or_app. right. left. reflexivity.
Qed.

(** ** Download routes *)

Lemma startsWith_self_app (a b : str) : NodePath.startsWith (a ++ b) a = true.
Proof. apply startsWith_app. exists b. reflexivity. Qed.



(** The route after its two guards: an entry that exists is handed to
    [res.download]. *)
Lemma access_download (fs : FS) (filePath safeName : str) :
  (if fs_access fs filePath then res_download fs filePath safeName
   else Send404 (lit "File not found")) =
  match fs !! filePath with
  | Some (File _ _) => Download filePath safeName
  | Some (Dir _) => DownloadFailed filePath EISDIR
  | None => Send404 (lit "File not found")
  end.
Proof.
  unfold fs_access, res_download.
  destruct (fs !! filePath) as [[]|]; reflexivity.
Qed.



(** ** The archive *)

Lemma hex_digit_not_slash (n : N) : NodePath.is_slash (hex_digit n) = false.
Proof.
  unfold hex_digit.
  destruct (nth_in_or_default (N.to_nat n) (lit "0123456789abcdef") "f"%char)
    as [Hin | ->]; [|reflexivity].
  assert (Hall : forallb (fun c => negb (NodePath.is_slash c))
                   (lit "0123456789abcdef") = true) by reflexivity.
  rewrite forallb_forall in Hall. apply Hall in Hin.
  apply negb_true_iff in Hin. exact Hin.
Qed.

Lemma to_hex_no_slash (bytes : list Byte.byte) : no_slash (to_hex bytes) = true.
Proof.
  induction bytes as [|b bytes IH]; [reflexivity|].
  unfold to_hex in *. simpl. rewrite !hex_digit_not_slash. exact IH.
Qed.

Lemma zip_name_proper (random : list Byte.byte) : proper_segment (zip_name random) = true.
Proof.
  apply proper_segment_hyphen.
  - unfold zip_name. rewrite !no_slash_app, to_hex_no_slash. reflexivity.
  - unfold zip_name. simpl. tauto.
Qed.

(** The container is created in the outgoing area, under its final name. *)
Lemma zip_path_eq (random : list Byte.byte) :
  NodePath.join [processor_dirname; lit ".."; lit "optimized"; zip_name random]
  = OPTIMIZED_DIR ++ "/"%char :: zip_name random.
Proof.
  pose proof (zip_name_proper random) as Hz.
  set (z := zip_name random) in *.
  assert (Hne : z <> []) by (apply proper_segment_nonempty; exact Hz).
  unfold NodePath.join.
  assert (Hf : List.filter (fun a : str => negb (Nat.eqb (length a) 0))
                 [processor_dirname; lit ".."; lit "optimized"; z]
               = [processor_dirname; lit ".."; lit "optimized"; z]).
  { simpl. destruct z; [contradiction | reflexivity]. }
  rewrite Hf. clear Hf.
  assert (E : NodePath.join_slash [processor_dirname; lit ".."; lit "optimized"; z]
              = abs_path ((root ++ [lit "utils"]) ++ [lit ".."; lit "optimized"; z])).
  { unfold processor_dirname, abs_path.
    rewrite (join_slash_app (root ++ [lit "utils"])) by
      (discriminate || apply root_area_nonempty).
    reflexivity. }
  rewrite E, normalize_abs.
  - rewrite !fold_left_app, (fold_push_proper false root []) by exact root_proper.
    rewrite app_nil_r.
    assert (Hfold : fold_left (NodePath.push_segment false)
                      [lit ".."; lit "optimized"; z]
                      (fold_left (NodePath.push_segment false) [lit "utils"] (rev root))
                    = z :: lit "optimized" :: rev root).
    { simpl. rewrite (push_segment_proper false _ z Hz). reflexivity. }
    rewrite Hfold. simpl rev. rewrite rev_involutive, <- app_assoc. simpl app.
    rewrite OPTIMIZED_DIR_abs.
    rewrite <- (abs_path_snoc (root ++ [lit "optimized"]) z)
      by apply root_area_nonempty.
    rewrite <- app_assoc. reflexivity.
  - apply Forall_app. split; [apply Forall_app; split|].
    + apply Forall_proper_no_slash, root_proper.
    + repeat constructor.
    + repeat constructor. apply proper_segment_no_slash. exact Hz.
  - change ((root ++ [lit "utils"]) ++ [lit ".."; lit "optimized"; z])
      with ((root ++ [lit "utils"]) ++ [lit ".."; lit "optimized"] ++ [z]).
    rewrite !app_assoc, last_snoc. intros Hz0. discriminate Hz0.
Qed.

(** C8, as the code has it.  When [createZip] fails because the container
    cannot be opened, nothing is created.  When it fails afterwards, in
    the archiver, the container, with whatever was written to it, is left
    at its final path in the outgoing area, where [GET /download] serves
    it under its name; no other path changes. *)
Theorem createZip_failure_leaves_container
    (random : list Byte.byte) (now : Z) (fs : FS) (filePaths : list str)
    (reason : error) :
  (createZip random now fs filePaths).1 = Rejected reason ->
  let fs' := (createZip random now fs filePaths).2 in
  let zipName := zip_name random in
  let zipPath := OPTIMIZED_DIR ++ "/"%char :: zipName in
  (exists code, reason = FsError code /\ fs' = fs) \/
  (reason = ArchiveError /\
   (exists written, fs' !! zipPath = Some (File now written)) /\
   (forall p, p <> zipPath -> fs' !! p = fs !! p) /\
   get_download fs' zipName = Download zipPath zipName).
Proof.
  unfold createZip. rewrite zip_path_eq.
  set (zipName := zip_name random).
  set (zipPath := OPTIMIZED_DIR ++ "/"%char :: zipName).
  set (run := archiver fs _).
  unfold fs_writeFile.
  assert (Hcase : (exists m, fs !! zipPath = Some (Dir m))
                  \/ forall m, fs !! zipPath <> Some (Dir m)).
  { destruct (fs !! zipPath) as [[|m]|]; eauto; right; congruence. }
  destruct Hcase as [[m Hm] | Hm].
  { rewrite Hm. simpl. intros [= <-]. left. eauto. }
  assert (H' : match fs !! zipPath with
               | Some (Dir _) => inl EISDIR
               | _ => inr (<[zipPath := File now (archive_written run)]> fs)
               end = inr (<[zipPath := File now (archive_written run)]> fs)).
  { destruct (fs !! zipPath) as [[|m]|]; [reflexivity | exfalso; eapply Hm; reflexivity
                                         | reflexivity]. }
  rewrite H'. clear H'. destruct (archive_failed run); simpl; [|discriminate].
  intros [= <-]. right. split; [reflexivity|]. split; [|split].
  - eexists. apply lookup_insert_eq.
  - intros p Hp. apply lookup_insert_ne. congruence.
  - unfold get_download.
    assert (Hb : NodePath.basename zipName = zipName).
    { apply last_component_id, proper_segment_no_slash, zip_name_proper. }
    rewrite Hb, join_optimized_child by apply zip_name_proper.
    fold zipPath. unfold zipPath at 1. rewrite startsWith_self_app. simpl negb. cbv iota.
    unfold fs_access, res_download. rewrite !lookup_insert_eq. reflexivity.
Qed.

(** ** Derived names *)

Lemma span_app_stop (f : ascii -> bool) (a x : str) (c : ascii) :
  forallb f a = true -> f c = false -> NodePath.span f (a ++ c :: x) = a.
Proof.
  intros Ha Hc. induction a as [|y a IH]; simpl in *; [rewrite Hc; reflexivity|].
  apply andb_true_iff in Ha as [Hy Ha]. rewrite Hy, (IH Ha). reflexivity.
Qed.

Lemma skip_app_stop (f : ascii -> bool) (a x : str) (c : ascii) :
  forallb f a = true -> f c = false -> NodePath.skip f (a ++ c :: x) = c :: x.
Proof.
  intros Ha Hc. induction a as [|y a IH]; simpl in *; [rewrite Hc; reflexivity|].
  apply andb_true_iff in Ha as [Hy Ha]. rewrite Hy. exact (IH Ha).
Qed.

Lemma forallb_rev (f : ascii -> bool) (a : str) : forallb f (rev a) = forallb f a.
Proof.
  induction a as [|c a IH]; [reflexivity|].
  simpl. rewrite forallb_app, IH. simpl. rewrite andb_true_r. apply andb_comm.
Qed.

(** The extension of [stem ++ "." ++ e], for a dot-free [e]. *)
Lemma extname_stem_ext (stem e : str) :
  stem <> [] -> e <> [] -> no_slash stem = true -> no_slash e = true ->
  forallb (fun c => negb (NodePath.is_dot c)) e = true ->
  NodePath.extname (stem ++ "."%char :: e) = "."%char :: e.
Proof.
  intros Hs He Hns Hne Hdots. unfold NodePath.extname.
  assert (Hc : NodePath.last_component (stem ++ "."%char :: e) = stem ++ "."%char :: e).
  { apply last_component_id. rewrite no_slash_app, Hns. simpl. exact Hne. }
  rewrite Hc.
  assert (Hr : rev (stem ++ "."%char :: e) = rev e ++ "."%char :: rev stem).
  { rewrite rev_app_distr. simpl. rewrite <- app_assoc. reflexivity. }
  rewrite Hr.
  rewrite span_app_stop, skip_app_stop by (rewrite ?forallb_rev; auto).
  destruct (rev stem) as [|x r] eqn:Ex.
  { apply (f_equal (@rev ascii)) in Ex. rewrite rev_involutive in Ex. contradiction. }
  assert (Hneq : NodePath.str_eqb (stem ++ "."%char :: e) (lit "..") = false).
  { apply str_eqb_neq. intros Heq. apply (f_equal (@length ascii)) in Heq.
    rewrite length_app in Heq. simpl in Heq.
    destruct stem; [contradiction|]. destruct e; [contradiction|]. simpl in Heq. lia. }
  rewrite Hneq, rev_involutive. reflexivity.
Qed.

(** Removing a suffix that the last component ends with. *)
Lemma basename_ext_strip (stem ext : str) :
  stem <> [] -> ext <> [] -> no_slash stem = true -> no_slash ext = true ->
  NodePath.basename_ext (stem ++ ext) ext = stem.
Proof.
  intros Hs He Hns Hne. unfold NodePath.basename_ext.
  assert (Hc : NodePath.last_component (stem ++ ext) = stem ++ ext).
  { apply last_component_id. rewrite no_slash_app, Hns, Hne. reflexivity. }
  assert (Hlen : (length ext < length (stem ++ ext))%nat).
  { rewrite length_app. destruct stem; [contradiction | simpl; lia]. }
  assert (H0 : Nat.eqb (length ext) 0 = false).
  { apply Nat.eqb_neq. destruct ext; [contradiction | discriminate]. }
  assert (H1 : Nat.ltb (length (stem ++ ext)) (length ext) = false).
  { apply Nat.ltb_ge. lia. }
  rewrite H0, H1. simpl orb. cbv iota.
  assert (H2 : NodePath.str_eqb ext (stem ++ ext) = false).
  { apply str_eqb_neq. intros Heq. rewrite <- Heq in Hlen. lia. }
  rewrite H2, Hc.
  assert (H3 : NodePath.endsWith (stem ++ ext) ext = true).
  { apply endsWith_app. exists stem. reflexivity. }
  rewrite H3.
  assert (H4 : Nat.eqb (length (stem ++ ext)) (length ext) = false).
  { apply Nat.eqb_neq. lia. }
  rewrite H4.
  replace (length (stem ++ ext) - length ext)%nat with (length stem)
    by (rewrite length_app; lia).
  rewrite firstn_app, Nat.sub_diag, firstn_all. simpl. apply app_nil_r.
Qed.

(** For a name whose extension is written in lower case, the derived
    name is the stem, "-opt" and the extension. *)
Lemma optimizedName_lowercase (stem ext : str) :
  stem <> [] -> no_slash stem = true ->
  In ext [lit ".png"; lit ".jpg"; lit ".jpeg"] ->
  optimizedName (stem ++ ext) = stem ++ lit "-opt" ++ ext.
Proof.
  intros Hs Hns Hin. unfold optimizedName.
  assert (He : NodePath.extname (stem ++ ext) = ext /\ toLowerCase ext = ext
               /\ ext <> [] /\ no_slash ext = true).
  { simpl in Hin. destruct Hin as [<- | [<- | [<- | []]]];
      (split; [apply extname_stem_ext; easy | easy]). }
  destruct He as (-> & -> & Hne & Hnse).
  rewrite basename_ext_strip by assumption. reflexivity.
Qed.

(** ** The cleanup job *)

Lemma child_of_Some (dir p : str) (nd : node) (e : Dirent) :
  child_of dir (p, nd) = Some e ->
  p = dir ++ "/"%char :: dirent_name e /\
  proper_segment (dirent_name e) = true /\
  dirent_isFile e = match nd with File _ _ => true | Dir _ => false end.
Proof.
  unfold child_of.
  destruct (NodePath.startsWith p (dir ++ lit "/")) eqn:Es; [|discriminate].
  apply startsWith_app in Es as [k ->].
  assert (Hd : drop (length dir + 1) ((dir ++ lit "/") ++ k) = k).
  { replace (length dir + 1)%nat with (length (dir ++ lit "/"))
      by (rewrite length_app; reflexivity).
    apply drop_app_length. }
  rewrite Hd. destruct (proper_segment k) eqn:Ek; [|discriminate].
  intros [= <-]. simpl. rewrite <- app_assoc. auto.
Qed.

Lemma child_of_intro (dir name : str) (nd : node) :
  proper_segment name = true ->
  child_of dir (dir ++ "/"%char :: name, nd)
  = Some {| dirent_name := name;
            dirent_isFile := match nd with File _ _ => true | Dir _ => false end |}.
Proof.
  intros Hn. unfold child_of.
  change (dir ++ "/"%char :: name) with (dir ++ lit "/" ++ name).
  rewrite app_assoc, startsWith_self_app.
  replace (length dir + 1)%nat with (length (dir ++ lit "/"))
    by (rewrite length_app; reflexivity).
  rewrite drop_app_length, Hn. reflexivity.
Qed.

(** [safeUnlink] removes [p] when it is a file and changes nothing else. *)
Lemma safeUnlink_file (fs : FS) (p : str) (m : Z) (d : Buffer) :
  fs !! p = Some (File m d) -> safeUnlink fs p = (delete p fs, []).
Proof. intros H. unfold safeUnlink, fs_unlink. rewrite H. reflexivity. Qed.

Lemma safeUnlink_lookup (fs : FS) (p q : str) :
  (safeUnlink fs p).1 !! q
  = match fs !! q with
    | Some (File m d) => if decide (p = q) then None else Some (File m d)
    | other => other
    end.
Proof.
  unfold safeUnlink, fs_unlink.
  destruct (fs !! p) as [[m d|m]|] eqn:Ep; simpl;
    destruct (decide (p = q)) as [<-|Hne];
    rewrite ?lookup_delete_eq, ?Ep; try reflexivity;
    rewrite ?lookup_delete_ne by exact Hne;
    destruct (fs !! q) as [[? ?|?]|]; reflexivity.
Qed.

Lemma only_removes_refl (fs : FS) : only_removes_files fs fs.
Proof. intros q. left. reflexivity. Qed.

Lemma only_removes_trans (fs1 fs2 fs3 : FS) :
  only_removes_files fs1 fs2 -> only_removes_files fs2 fs3 -> only_removes_files fs1 fs3.
Proof.
  intros H12 H23 q. destruct (H23 q) as [E | [E (m & d & Hm)]].
  - rewrite E. apply H12.
  - right. split; [exact E|]. destruct (H12 q) as [E' | [E' _]]; [|congruence].
    rewrite <- E'. eauto.
Qed.

Lemma safeUnlink_only_removes (fs : FS) (p : str) :
  only_removes_files fs (safeUnlink fs p).1.
Proof.
  intros q. rewrite safeUnlink_lookup.
  destruct (fs !! q) as [[m d|m]|]; auto.
  destruct (decide (p = q)); eauto.
Qed.

Lemma clean_entries_only_removes (now : Z) (dir : str) (es : list Dirent) (fs : FS) :
  only_removes_files fs (clean_entries now dir es fs).1.
Proof.
  revert fs. induction es as [|e es IH]; intros fs; simpl; [apply only_removes_refl|].
  destruct (dirent_isFile e); simpl; [|apply IH].
  destruct (fs_stat fs _) as [code|st]; simpl; [apply only_removes_refl|].
  destruct (CLEANUP_AFTER_MS <? now - stats_mtimeMs st); [|apply IH].
  pose proof (safeUnlink_only_removes fs (NodePath.join [dir; dirent_name e])) as H1.
  destruct (safeUnlink fs _) as [fs1 l1]. simpl in H1.
  specialize (IH fs1). destruct (clean_entries now dir es fs1) as [fs2 l2]. simpl in *.
  eapply only_removes_trans; eassumption.
Qed.

Lemma cleanFolder_only_removes (now : Z) (dir : str) (fs : FS) :
  only_removes_files fs (cleanFolder now dir fs).1.
Proof.
  unfold cleanFolder. destruct (fs_readdir fs dir); simpl.
  - apply only_removes_refl.
  - apply clean_entries_only_removes.
Qed.

Lemma only_removes_dir (fs fs' : FS) (p : str) (m : Z) :
  only_removes_files fs fs' -> fs !! p = Some (Dir m) -> fs' !! p = Some (Dir m).
Proof.
  intros H Hp. destruct (H p) as [E | [_ (m' & d & E)]]; congruence.
Qed.


Lemma omap_cons {A B} (f : A -> option B) (x : A) (l : list A) :
  omap f (x :: l) = match f x with Some y => y :: omap f l | None => omap f l end.
Proof. reflexivity. Qed.

Section Folder.

Variable dir : str.
Hypothesis child_path : forall name,
  proper_segment name = true ->
  NodePath.join [dir; name] = dir ++ "/"%char :: name.

(** The loop removes every listed file that is past the threshold. *)
Lemma clean_entries_removes (now : Z) (es : list Dirent) (fs : FS) :
  NoDup (dirent_name <$> es) ->
  (forall e, e ∈ es -> proper_segment (dirent_name e) = true) ->
  (forall e, e ∈ es -> dirent_isFile e = true ->
     exists m d, fs !! (dir ++ "/"%char :: dirent_name e) = Some (File m d)) ->
  forall e m d,
    e ∈ es -> dirent_isFile e = true ->
    fs !! (dir ++ "/"%char :: dirent_name e) = Some (File m d) ->
    (CLEANUP_AFTER_MS <? now - m) = true ->
    (clean_entries now dir es fs).1 !! (dir ++ "/"%char :: dirent_name e) = None.
Proof.
  revert fs. induction es as [|e0 es IH]; intros fs Hnd Hpr Hfile e m d Hin Hf Hl Hexp.
  { apply elem_of_nil in Hin. contradiction. }
  rewrite fmap_cons in Hnd. apply NoDup_cons in Hnd as [Hnotin Hnd].
  assert (Hpr' : forall e', e' ∈ es -> proper_segment (dirent_name e') = true).
  { intros e' He'. apply Hpr. apply elem_of_cons. auto. }
  assert (Hother : forall e', e' ∈ es ->
            dir ++ "/"%char :: dirent_name e' <> dir ++ "/"%char :: dirent_name e0).
  { intros e' He' Heq. apply app_inv_head in Heq. injection Heq as Heq.
    apply Hnotin. rewrite <- Heq. apply list_elem_of_fmap. eauto. }
  simpl. rewrite child_path by (apply Hpr, elem_of_cons; auto).
  destruct (dirent_isFile e0) eqn:Ef0; simpl.
  2:{ apply elem_of_cons in Hin as [-> | Hin]; [congruence|].
      apply (IH fs Hnd Hpr') with (m := m) (d := d); try assumption.
      intros e' He' Hf'. apply Hfile; [apply elem_of_cons; auto | exact Hf']. }
  destruct (Hfile e0 (proj2 (elem_of_cons _ _ _) (or_introl eq_refl)) Ef0) as (m0 & d0 & Hl0).
  unfold fs_stat. rewrite Hl0. simpl.
  destruct (CLEANUP_AFTER_MS <? now - m0) eqn:Ex0.
  - rewrite (safeUnlink_file _ _ _ _ Hl0).
    pose proof (clean_entries_only_removes now dir es
                  (delete (dir ++ "/"%char :: dirent_name e0) fs)) as Hrest.
    specialize (IH (delete (dir ++ "/"%char :: dirent_name e0) fs) Hnd Hpr').
    destruct (clean_entries now dir es _) as [fs2 l2]. simpl in *.
    apply elem_of_cons in Hin as [-> | Hin].
    + destruct (Hrest (dir ++ "/"%char :: dirent_name e0)) as [E | [E _]]; [|exact E].
      rewrite E. apply lookup_delete_eq.
    + refine (IH _ e m d Hin Hf _ Hexp).
      * intros e' He' Hf'. rewrite lookup_delete_ne by (apply not_eq_sym, Hother, He').
        apply Hfile; [apply elem_of_cons; auto | exact Hf'].
      * rewrite lookup_delete_ne by (apply not_eq_sym, Hother, Hin). exact Hl.
  - apply elem_of_cons in Hin as [-> | Hin]; [congruence|].
    apply (IH fs Hnd Hpr') with (m := m) (d := d); try assumption.
    intros e' He' Hf'. apply Hfile; [apply elem_of_cons; auto | exact Hf'].
Qed.


Lemma readdir_entries (fs : FS) (e : Dirent) :
  e ∈ omap (child_of dir) (map_to_list fs) ->
  proper_segment (dirent_name e) = true /\
  exists nd, fs !! (dir ++ "/"%char :: dirent_name e) = Some nd /\
             dirent_isFile e = match nd with File _ _ => true | Dir _ => false end.
Proof.
  intros ([p nd] & Hin & Hc)%list_elem_of_omap.
  apply child_of_Some in Hc as (-> & Hp & Hf).
  apply elem_of_map_to_list in Hin. eauto.
Qed.

Lemma readdir_names_NoDup (l : list (str * node)) :
  NoDup l.*1 -> NoDup (dirent_name <$> omap (child_of dir) l).
Proof.
  induction l as [|[p nd] l IH]; [constructor|].
  rewrite fmap_cons, omap_cons. cbn [fst].
  intros [Hnotin Hnd]%NoDup_cons.
  destruct (child_of dir (p, nd)) as [e|] eqn:Ec; [|auto].
  rewrite fmap_cons. apply NoDup_cons. split; [|auto].
  intros (e' & Hname & Hin)%list_elem_of_fmap.
  apply list_elem_of_omap in Hin as ([p' nd'] & Hin' & Hc').
  apply child_of_Some in Ec as (-> & _ & _).
  apply child_of_Some in Hc' as (-> & _ & _).
  apply Hnotin. rewrite Hname. apply list_elem_of_fmap.
  exists (dir ++ "/"%char :: dirent_name e', nd'). split; [reflexivity | exact Hin'].
Qed.

(** After [cleanFolder], nothing in the folder is past the threshold. *)
Lemma cleanFolder_settles (now m0 : Z) (fs : FS) :
  fs !! dir = Some (Dir m0) ->
  nothing_expired now dir (cleanFolder now dir fs).1.
Proof.
  intros Hdir name m d Hp Hl.
  destruct (CLEANUP_AFTER_MS <? now - m) eqn:Hx; [|reflexivity]. exfalso.
  pose proof (cleanFolder_only_removes now dir fs (dir ++ "/"%char :: name)) as Honly.
  assert (Hfs : fs !! (dir ++ "/"%char :: name) = Some (File m d)).
  { destruct Honly as [E | [E _]]; congruence. }
  unfold cleanFolder, fs_readdir in Hl. rewrite Hdir in Hl.
  assert (Hnone : (clean_entries now dir (omap (child_of dir) (map_to_list fs)) fs).1
                    !! (dir ++ "/"%char :: dirent_name
                          {| dirent_name := name; dirent_isFile := true |}) = None).
  { eapply clean_entries_removes with (m := m) (d := d).
    - apply readdir_names_NoDup, NoDup_fst_map_to_list.
    - intros e He. apply (readdir_entries fs e He).
    - intros e He Hf. destruct (readdir_entries fs e He) as (_ & nd & Hnd & Hk).
      rewrite Hf in Hk. destruct nd; [eauto | discriminate].
    - apply list_elem_of_omap. exists (dir ++ "/"%char :: name, File m d). split.
      + apply elem_of_map_to_list. exact Hfs.
      + apply (child_of_intro dir name (File m d) Hp).
    - reflexivity.
    - exact Hfs.
    - exact Hx. }
  simpl in Hnone. congruence.
Qed.


End Folder.




(** ** Intake *)

Lemma unlink_all_lookup (files : list MulterFile) (fs : FS) (q : str) :
  (unlink_all files fs).1 !! q
  = match fs !! q with
    | Some (File m d) =>
        if decide (q ∈ file_path <$> files) then None else Some (File m d)
    | other => other
    end.
Proof.
  unfold unlink_all.
  assert (H : forall log,
    (fold_left (fun '(fs', log) f =>
                  let '(fs'', l) := safeUnlink fs' (file_path f) in (fs'', log ++ l))
               files (fs, log)).1 !! q
    = match fs !! q with
      | Some (File m d) =>
          if decide (q ∈ file_path <$> files) then None else Some (File m d)
      | other => other
      end).
  { revert fs. induction files as [|f files IH]; intros fs log.
    - simpl. destruct (fs !! q) as [[? ?|?]|]; reflexivity.
    - simpl fold_left.
      pose proof (safeUnlink_lookup fs (file_path f) q) as Hs.
      destruct (safeUnlink fs (file_path f)) as [fs1 l1]. simpl in Hs.
      rewrite IH, Hs, fmap_cons.
      destruct (fs !! q) as [[m d|m]|]; try reflexivity.
      destruct (decide (file_path f = q)) as [<-|Hne].
      + rewrite decide_True by (apply elem_of_cons; auto). reflexivity.
      + destruct (decide (q ∈ file_path <$> files)) as [Hin|Hnin].
        * rewrite decide_True by (apply elem_of_cons; auto). reflexivity.
        * rewrite decide_False; [reflexivity|].
          intros [E|Hin]%elem_of_cons; [congruence | contradiction]. }
  apply H.
Qed.

Lemma unlink_all_removes (files : list MulterFile) (fs : FS) (f : MulterFile) :
  f ∈ files -> (exists m d, fs !! file_path f = Some (File m d)) ->
  (unlink_all files fs).1 !! file_path f = None.
Proof.
  intros Hin (m & d & Hl). rewrite unlink_all_lookup, Hl.
  rewrite decide_True; [reflexivity|]. apply list_elem_of_fmap. eauto.
Qed.

Lemma unlink_all_removes_absent (files : list MulterFile) (fs : FS) (q : str) :
  fs !! q = None -> (unlink_all files fs).1 !! q = None.
Proof. intros H. rewrite unlink_all_lookup, H. reflexivity. Qed.

Lemma unlink_all_other (files : list MulterFile) (fs : FS) (q : str) :
  q ∉ file_path <$> files -> (unlink_all files fs).1 !! q = fs !! q.
Proof.
  intros H. rewrite unlink_all_lookup.
  destruct (fs !! q) as [[m d|m]|]; try reflexivity.
  rewrite decide_False by exact H. reflexivity.
Qed.

Lemma unlink_all_only_removes (files : list MulterFile) (fs : FS) :
  only_removes_files fs (unlink_all files fs).1.
Proof.
  intros q. rewrite unlink_all_lookup.
  destruct (fs !! q) as [[m d|m]|]; auto.
  destruct (decide _); eauto.
Qed.

Lemma fs_writeFile_inr (now : Z) (fs fs' : FS) (p : str) (d : Buffer) :
  fs_writeFile now fs p d = inr fs' -> fs' = <[p := File now d]> fs.
Proof.
  unfold fs_writeFile. destruct (fs !! p) as [[? ?|?]|]; congruence.
Qed.

Lemma fs_writeFile_inl (now : Z) (fs : FS) (p : str) (d : Buffer) (code : errno) :
  fs_writeFile now fs p d = inl code -> exists m, fs !! p = Some (Dir m).
Proof.
  unfold fs_writeFile. destruct (fs !! p) as [[? ?|?]|]; try discriminate. eauto.
Qed.

Lemma multer_receive_cons (part : Part) (rest : list Part) (stored : list MulterFile)
    (fs : FS) :
  multer_receive (part :: rest) stored fs
  = if Nat.leb MAX_FILES (length stored) then (Some LIMIT_FILE_COUNT, stored, fs)
    else if negb (NodePath.str_eqb (part_fieldname part) (lit "images"))
    then (Some LIMIT_UNEXPECTED_FILE, stored, fs)
    else if negb (allowed (part_originalname part))
    then (Some FileFilterError, stored, fs)
    else
      let filename :=
        storage_filename (part_originalname part) (part_now part) (part_random part) in
      let file := {| file_originalname := part_originalname part;
                     file_filename := filename;
                     file_path := NodePath.join [UPLOAD_DIR; filename];
                     file_size := byteLength (part_data part) |} in
      match fs_writeFile (part_now part) fs (file_path file) (part_data part) with
      | inl code => (Some (StorageError code), stored, fs)
      | inr fs' =>
          if MAX_TOTAL_SIZE <? file_size file
          then (Some LIMIT_FILE_SIZE, stored ++ [file], fs')
          else multer_receive rest (stored ++ [file]) fs'
      end.
Proof. reflexivity. Qed.

(** What Multer has stored when it stops. *)
Lemma multer_receive_spec (parts : list Part) (stored0 : list MulterFile) (fs : FS)
    (err : option MulterError) (stored : list MulterFile) (fs' : FS) :
  multer_receive parts stored0 fs = (err, stored, fs') ->
  exists new,
    stored = stored0 ++ new /\
    Forall staged new /\
    (forall f, f ∈ new -> exists m d, fs' !! file_path f = Some (File m d)) /\
    (forall q, fs' !! q = fs !! q \/ q ∈ file_path <$> new) /\
    (forall q m d, fs !! q = Some (File m d) -> exists m' d', fs' !! q = Some (File m' d')) /\
    (err = None ->
       ((length stored0 <= MAX_FILES)%nat -> (length stored <= MAX_FILES)%nat) /\
       Forall (fun p => allowed (part_originalname p) = true) parts /\
       file_size <$> new = (fun p => byteLength (part_data p)) <$> parts).
Proof.
  revert stored0 fs. induction parts as [|part parts IH]; intros stored0 fs.
  { simpl. intros [= <- <- <-]. exists []. rewrite app_nil_r.
    repeat split; auto.
    - intros f Hf. apply elem_of_nil in Hf. contradiction.
    - eauto. }
  assert (Hstop : forall e : MulterError, exists new : list MulterFile,
            stored0 = stored0 ++ new /\ Forall staged new /\
            (forall f, f ∈ new -> exists m d, fs !! file_path f = Some (File m d)) /\
            (forall q, fs !! q = fs !! q \/ q ∈ file_path <$> new) /\
            (forall q m d, fs !! q = Some (File m d) ->
               exists m' d', fs !! q = Some (File m' d')) /\
            (Some e = None ->
               ((length stored0 <= MAX_FILES)%nat -> (length stored0 <= MAX_FILES)%nat) /\
               Forall (fun p => allowed (part_originalname p) = true) (part :: parts) /\
               file_size <$> new = (fun p => byteLength (part_data p)) <$> (part :: parts))).
  { intros e. exists []. rewrite app_nil_r. repeat split; auto; try discriminate.
    - intros f Hf. apply elem_of_nil in Hf. contradiction.
    - eauto. }
  rewrite multer_receive_cons. cbv zeta.
  destruct (Nat.leb MAX_FILES (length stored0)) eqn:Ecount.
  { intros [= <- <- <-]. apply Hstop. }
  destruct (negb (NodePath.str_eqb (part_fieldname part) (lit "images"))).
  { intros [= <- <- <-]. apply Hstop. }
  destruct (allowed (part_originalname part)) eqn:Eallowed; simpl negb; cbv iota.
  2:{ intros [= <- <- <-]. apply Hstop. }
  intros Hrec. revert Hrec.
  set (filename := storage_filename (part_originalname part) (part_now part)
                     (part_random part)).
  set (file := {| file_originalname := part_originalname part;
                  file_filename := filename;
                  file_path := NodePath.join [UPLOAD_DIR; filename];
                  file_size := byteLength (part_data part) |}).
  assert (Hstaged : staged file).
  { exists filename. split; [apply storage_filename_proper|].
    apply join_upload_child, storage_filename_proper. }
  destruct (fs_writeFile (part_now part) fs (file_path file) (part_data part))
    as [code|fs1] eqn:Ew.
  { intros [= <- <- <-]. apply Hstop. }
  apply fs_writeFile_inr in Ew. clear Hstop.
  assert (Hfile1 : fs1 !! file_path file = Some (File (part_now part) (part_data part))).
  { rewrite Ew. apply lookup_insert_eq. }
  assert (Hframe1 : forall q, fs1 !! q = fs !! q \/ q = file_path file).
  { intros q. destruct (decide (file_path file = q)) as [<-|Hne]; [auto|].
    left. rewrite Ew. apply lookup_insert_ne. exact Hne. }
  assert (Hkeep1 : forall q m d, fs !! q = Some (File m d) ->
                     exists m' d', fs1 !! q = Some (File m' d')).
  { intros q m d Hq. destruct (Hframe1 q) as [E | ->]; [rewrite E|]; eauto. }
  destruct (MAX_TOTAL_SIZE <? file_size file) eqn:Esize.
  { intros [= <- <- <-]. exists [file]. repeat split; auto; try discriminate.
    - intros f ->%list_elem_of_singleton. eauto.
    - intros q. destruct (Hframe1 q) as [E | ->]; [auto|].
      right. apply list_elem_of_singleton. reflexivity. }
  intros Hrec. destruct (IH _ _ Hrec) as (new & -> & Hst & Hin & Hfr & Hkeep & Herr).
  exists (file :: new). rewrite <- app_assoc. split; [reflexivity|].
  split; [constructor; assumption|]. split; [|split; [|split]].
  - intros f [-> | Hf]%elem_of_cons; [|auto].
    destruct (Hkeep _ _ _ Hfile1) as (m' & d' & Hk). eauto.
  - intros q. rewrite fmap_cons.
    destruct (Hfr q) as [E | Hq]; [|right; apply elem_of_cons; auto].
    destruct (Hframe1 q) as [E1 | ->]; [left; congruence|].
    right. apply elem_of_cons. auto.
  - intros q m d Hq. destruct (Hkeep1 _ _ _ Hq) as (m1 & d1 & Hq1). eauto.
  - intros He. destruct (Herr He) as (Hlen & Hall & Hsizes). split; [|split].
    + intros _. rewrite app_assoc. apply Hlen. rewrite length_app. simpl.
      apply Nat.leb_gt in Ecount. lia.
    + constructor; assumption.
    + rewrite !fmap_cons, Hsizes. reflexivity.
Qed.

Lemma fold_left_sizes {A} (g : A -> Z) (l : list A) (a : Z) :
  fold_left (fun acc x => acc + g x) l a = fold_left Z.add (g <$> l) a.
Proof.
  revert a. induction l as [|x l IH]; intros a; [reflexivity|].
  rewrite fmap_cons. simpl. apply IH.
Qed.

(** The size the handler adds up is the size of the parts received. *)
Lemma total_size_accepted (parts : list Part) (fs fs1 : FS) (files : list MulterFile) :
  multer_receive parts [] fs = (None, files, fs1) ->
  fold_left (fun acc f => acc + file_size f) files 0 = aggregate_size parts.
Proof.
  intros H. destruct (multer_receive_spec _ _ _ _ _ _ H) as (new & -> & _ & _ & _ & _ & He).
  destruct (He eq_refl) as (_ & _ & Hs). simpl.
  unfold aggregate_size.
  rewrite (fold_left_sizes file_size new).
  rewrite (fold_left_sizes (fun p => byteLength (part_data p)) parts).
  rewrite Hs. reflexivity.
Qed.

Lemma post_upload_multer_error (random : list Byte.byte) (now : Z) (parts : list Part)
    (fs fs1 : FS) (e : MulterError) (stored : list MulterFile) :
  multer_receive parts [] fs = (Some e, stored, fs1) ->
  post_upload random now parts fs
  = {| req_files := []; req_pool := idle (unlink_all stored fs1).1;
       req_response := Some (Json400 (inl e)); req_log := [WarnUploadError e] |}.
Proof. intros H. unfold post_upload, upload. rewrite H. reflexivity. Qed.

Lemma post_upload_oversize (random : list Byte.byte) (now : Z) (parts : list Part)
    (fs fs1 : FS) (files : list MulterFile) :
  multer_receive parts [] fs = (None, files, fs1) ->
  MAX_TOTAL_SIZE < aggregate_size parts ->
  post_upload random now parts fs
  = {| req_files := files; req_pool := idle (unlink_all files fs1).1;
       req_response := Some (Json400 (inr (lit "Total upload size exceeds 100 MiB")));
       req_log := (unlink_all files fs1).2 |}.
Proof.
  intros H Hbig. unfold post_upload, upload. rewrite H.
  rewrite (total_size_accepted _ _ _ _ H).
  apply Z.ltb_lt in Hbig. rewrite Hbig.
  destruct (unlink_all files fs1) as [fs2 l]. reflexivity.
Qed.

(** A batch that Multer lets through passed the count and type checks. *)
Lemma multer_accepts (parts : list Part) (fs fs1 : FS) (files : list MulterFile) :
  multer_receive parts [] fs = (None, files, fs1) ->
  (length parts <= MAX_FILES)%nat /\
  Forall (fun p => allowed (part_originalname p) = true) parts /\
  length files = length parts.
Proof.
  intros H. destruct (multer_receive_spec _ _ _ _ _ _ H) as (new & -> & _ & _ & _ & _ & He).
  destruct (He eq_refl) as (Hlen & Hall & Hs).
  assert (Hl : length new = length parts).
  { apply (f_equal (@length Z)) in Hs. rewrite !length_fmap in Hs. exact Hs. }
  simpl in *. split; [|split]; auto.
  rewrite <- Hl. apply Hlen. apply Nat.le_0_l.
Qed.

(** Once the response is out and no unit runs, no event changes the
    request. *)
Lemma request_step_quiet (random : list Byte.byte) (r : request) (t : tick) :
  req_response r <> None -> pool_active (req_pool r) = [] ->
  request_step random r t = r.
Proof.
  intros Hr Ha. unfold request_step.
  assert (Hp : pool_step (req_files r) OPTIMIZED_DIR t (req_pool r) = req_pool r).
  { unfold pool_step. rewrite Ha. simpl. reflexivity. }
  rewrite Hp. unfold resume. simpl.
  destruct r as [files p [resp|] log]; simpl in *; [reflexivity | contradiction].
Qed.

Lemma request_run_quiet (random : list Byte.byte) (r : request) (ticks : list tick) :
  req_response r <> None -> pool_active (req_pool r) = [] ->
  request_run random ticks r = r.
Proof.
  intros Hr Ha. unfold request_run.
  induction ticks as [|t ticks IH]; [reflexivity|].
  simpl. rewrite request_step_quiet by assumption. exact IH.
Qed.

(** A rejected batch: the answer, the idle pool, and the filesystem. *)
Lemma post_upload_rejected (random : list Byte.byte) (now : Z) (parts : list Part)
    (fs : FS) :
  violates_intake parts ->
  let staging := multer_receive parts [] fs in
  let r := post_upload random now parts fs in
  (exists e, req_response r = Some (Json400 e)) /\
  req_pool r = idle (unlink_all staging.1.2 staging.2).1 /\
  (staging.1.1 = None ->
     MAX_TOTAL_SIZE < aggregate_size parts /\ req_files r = staging.1.2 /\
     req_response r = Some (Json400 (inr (lit "Total upload size exceeds 100 MiB")))).
Proof.
  intros Hv. cbv zeta.
  destruct (multer_receive parts [] fs) as [[[e|] stored] fs1] eqn:Hm; simpl.
  - rewrite (post_upload_multer_error _ _ _ _ _ _ _ Hm). simpl.
    split; [eauto|]. split; [reflexivity | discriminate].
  - destruct (multer_accepts _ _ _ _ Hm) as (Hlen & Hall & _).
    assert (Hbig : MAX_TOTAL_SIZE < aggregate_size parts).
    { destruct Hv as [Hv | [Hv | Hv]]; [lia | | exact Hv].
      apply Exists_exists in Hv as (p & Hp & Hbad).
      rewrite Forall_forall in Hall. rewrite (Hall p Hp) in Hbad. discriminate. }
    rewrite (post_upload_oversize _ _ _ _ _ _ Hm Hbig). simpl.
    split; [eauto|]. split; [reflexivity | auto].
Qed.

(** The files Multer wrote are gone after the handler's or Multer's own
    removal. *)
Lemma staged_files_removed (parts : list Part) (fs : FS) (f : MulterFile) :
  let staging := multer_receive parts [] fs in
  f ∈ staging.1.2 ->
  staged f /\
  (exists m d, staging.2 !! file_path f = Some (File m d)) /\
  (unlink_all staging.1.2 staging.2).1 !! file_path f = None.
Proof.
  cbv zeta. destruct (multer_receive parts [] fs) as [[e stored] fs1] eqn:Hm. simpl.
  destruct (multer_receive_spec _ _ _ _ _ _ Hm) as (new & -> & Hst & Hin & _).
  simpl. intros Hf. split; [|split].
  - rewrite Forall_forall in Hst. apply Hst. exact Hf.
  - apply Hin. exact Hf.
  - apply unlink_all_removes; [exact Hf | apply Hin; exact Hf].
Qed.

(** C3, as the code has it.  A batch that fails the count, the type or
    the aggregate size check is answered with a 400 and never reaches the
    optimiser: no unit is started or queued, and no later event changes
    the request.  Its files are written to the incoming area as they
    arrive, the aggregate size being checked only once all of them are
    there; every file written for the batch is removed again, so none is
    left after the rejection. *)
Theorem intake_rejects_before_processing (random : list Byte.byte) (now : Z)
    (parts : list Part) (fs : FS) :
  violates_intake parts ->
  let staging := multer_receive parts [] fs in
  let r := post_upload random now parts fs in
  (exists e, req_response r = Some (Json400 e)) /\
  pool_active (req_pool r) = [] /\ pool_queue (req_pool r) = [] /\
  (forall ticks, request_run random ticks r = r) /\
  (forall f, f ∈ staging.1.2 ->
     (exists m d, staging.2 !! file_path f = Some (File m d)) /\
     pool_fs (req_pool r) !! file_path f = None).
Proof.
  intros Hv staging r.
  destruct (post_upload_rejected random now parts fs Hv) as ([e He] & Hp & _).
  fold staging r in He, Hp.
  split; [eauto|]. rewrite Hp. split; [reflexivity|]. split; [reflexivity|]. split.
  - intros ticks. apply request_run_quiet; [congruence | rewrite Hp; reflexivity].
  - intros f Hf. destruct (staged_files_removed parts fs f Hf) as (_ & H1 & H2). auto.
Qed.

(** C4.  A batch whose aggregate size is above 100 MiB is rejected with a
    400.  When every file passed Multer the whole batch is on disk at
    that point and the answer is "Total upload size exceeds 100 MiB".
    Every file that was written for the batch, each of them directly in
    the incoming directory, is removed: none is left after the rejection. *)
Theorem oversize_batch_rejected (random : list Byte.byte) (now : Z)
    (parts : list Part) (fs : FS) :
  MAX_TOTAL_SIZE < aggregate_size parts ->
  let staging := multer_receive parts [] fs in
  let r := post_upload random now parts fs in
  (exists e, req_response r = Some (Json400 e)) /\
  (staging.1.1 = None ->
     length staging.1.2 = length parts /\
     req_response r = Some (Json400 (inr (lit "Total upload size exceeds 100 MiB")))) /\
  (forall f, f ∈ staging.1.2 ->
     staged f /\
     (exists m d, staging.2 !! file_path f = Some (File m d)) /\
     pool_fs (req_pool r) !! file_path f = None).
Proof.
  intros Hbig staging r.
  assert (Hv : violates_intake parts) by (right; right; exact Hbig).
  destruct (post_upload_rejected random now parts fs Hv) as (He & Hp & Hacc).
  fold staging r in He, Hp, Hacc.
  split; [exact He|]. split.
  - intros Hnone. destruct (Hacc Hnone) as (_ & _ & Hresp). split; [|exact Hresp].
    subst staging. destruct (multer_receive parts [] fs) as [[e stored] fs1] eqn:Hm.
    simpl in Hnone. subst e. simpl.
    destruct (multer_accepts _ _ _ _ Hm) as (_ & _ & Hl). exact Hl.
  - intros f Hf. rewrite Hp. apply (staged_files_removed parts fs f Hf).
Qed.

(** ** The pool of [processFiles] *)

Lemma optimiseFile_step_next (now : Z) (fs fs' : FS) (file : MulterFile) (outDir : str)
    (ph ph' : phase) :
  optimiseFile_step now fs file outDir ph = (Next ph', fs') ->
  (remaining ph' < remaining ph)%nat /\ fs' = fs.
Proof.
  destruct ph as [|pl b|b ob]; simpl.
  - destruct (fs_readFile fs (file_path file)); [discriminate|].
    destruct (select_plugin _); [|discriminate]. intros [= <- <-]. simpl. auto.
  - destruct (imagemin_buffer pl b); [|discriminate]. intros [= <- <-]. simpl. auto.
  - destruct (fs_writeFile now fs _ ob); discriminate.
Qed.

Lemma optimiseFile_step_rejected (now : Z) (fs fs' : FS) (file : MulterFile)
    (outDir : str) (ph : phase) (reason : error) :
  optimiseFile_step now fs file outDir ph = (Done (Rejected reason), fs') -> fs' = fs.
Proof.
  destruct ph as [|pl b|b ob]; simpl.
  - destruct (fs_readFile fs (file_path file)); [congruence|].
    destruct (select_plugin _); [discriminate | congruence].
  - destruct (imagemin_buffer pl b); [discriminate | congruence].
  - destruct (fs_writeFile now fs _ ob); [congruence | discriminate].
Qed.

Lemma optimiseFile_step_fulfilled (now : Z) (fs fs' : FS) (file : MulterFile)
    (outDir : str) (ph : phase) (m : Meta) :
  optimiseFile_step now fs file outDir ph = (Done (Fulfilled m), fs') ->
  meta_of outDir file m /\
  exists b ob, ph = AwaitWrite b ob /\ fs' = <[optimizedPath m := File now ob]> fs.
Proof.
  destruct ph as [|pl b|b ob]; simpl.
  - destruct (fs_readFile fs (file_path file)); [discriminate|].
    destruct (select_plugin _); discriminate.
  - destruct (imagemin_buffer pl b); discriminate.
  - destruct (fs_writeFile now fs _ ob) as [code|fs1] eqn:Ew; [discriminate|].
    apply fs_writeFile_inr in Ew. intros [= <- <-]. simpl.
    split; [repeat split|]. eauto.
Qed.

(** A step writes at most the output path of its file. *)
Lemma optimiseFile_step_frame (now : Z) (fs fs' : FS) (file : MulterFile) (outDir : str)
    (ph : phase) (res : progress) (q : str) :
  optimiseFile_step now fs file outDir ph = (res, fs') ->
  q <> NodePath.join [outDir; optimizedName (file_originalname file)] ->
  fs' !! q = fs !! q.
Proof.
  intros H Hq. destruct res as [ph'|[m|reason]].
  - apply optimiseFile_step_next in H as [_ ->]. reflexivity.
  - apply optimiseFile_step_fulfilled in H as ((_ & _ & Hpath) & b & ob & _ & ->).
    apply lookup_insert_ne. congruence.
  - apply optimiseFile_step_rejected in H as ->. reflexivity.
Qed.

Lemma list_insert_middle {A} (pre post : list A) (x y : A) :
  <[length pre := y]> (pre ++ x :: post) = pre ++ y :: post.
Proof.
  rewrite <- (Nat.add_0_r (length pre)). rewrite insert_app_r. reflexivity.
Qed.

(** The cases of one event. *)
Lemma pool_step_cases (files : list MulterFile) (outDir : str) (t : tick) (p : pool) :
  (pool_step files outDir t p = p /\
   (pool_active p = [] \/
    exists i, i ∈ (pool_active p).*1 /\ files !! i = None)) \/
  exists pre i ph post file,
    pool_active p = pre ++ (i, ph) :: post /\ files !! i = Some file /\
    ((exists ph' fs',
        optimiseFile_step (tick_now t) (pool_fs p) file outDir ph = (Next ph', fs') /\
        pool_step files outDir t p
        = {| pool_fs := fs'; pool_queue := pool_queue p;
             pool_active := pre ++ (i, ph') :: post;
             pool_slots := pool_slots p; pool_rejected := pool_rejected p |}) \/
     (exists outcome fs',
        optimiseFile_step (tick_now t) (pool_fs p) file outDir ph = (Done outcome, fs') /\
        pool_step files outDir t p
        = {| pool_fs := fs';
             pool_queue := (limit_next (pool_queue p) (pre ++ post)).1;
             pool_active := (limit_next (pool_queue p) (pre ++ post)).2;
             pool_slots := <[i := Some outcome]> (pool_slots p);
             pool_rejected := match pool_rejected p, outcome with
                              | None, Rejected reason => Some reason
                              | r, _ => r
                              end |})).
Proof.
  unfold pool_step.
  set (k := (tick_pick t `mod` length (pool_active p))%nat).
  destruct (pool_active p !! k) as [[i ph]|] eqn:Ek.
  2:{ left. split; [reflexivity|]. left.
      destruct (pool_active p) as [|u l] eqn:Ea; [reflexivity|].
      exfalso. apply lookup_ge_None in Ek. subst k.
      pose proof (Nat.mod_upper_bound (tick_pick t) (length (u :: l))) as Hb.
      simpl in *. lia. }
  destruct (list_elem_of_split_length _ _ _ Ek) as (pre & post & Ha & Hk).
  destruct (files !! i) as [file|] eqn:Ef.
  2:{ left. split; [reflexivity|]. right. exists i. split; [|exact Ef].
      rewrite Ha, fmap_app, fmap_cons. apply elem_of_app. right.
      apply elem_of_cons. auto. }
  right. exists pre, i, ph, post, file. split; [exact Ha|]. split; [exact Ef|].
  destruct (optimiseFile_step (tick_now t) (pool_fs p) file outDir ph)
    as [[ph'|outcome] fs'] eqn:Es.
  - left. exists ph', fs'. split; [reflexivity|]. f_equal.
    rewrite Ha, Hk. apply list_insert_middle.
  - right. exists outcome, fs'. split; [reflexivity|].
    rewrite Ha, Hk, delete_middle.
    destruct (limit_next (pool_queue p) (pre ++ post)). reflexivity.
Qed.

Lemma completed_insert (slots : list (option (settled Meta))) (i : nat)
    (o : settled Meta) :
  slots !! i = Some None ->
  length (omap id (<[i := Some o]> slots)) = S (length (omap id slots)).
Proof.
  intros H. destruct (list_elem_of_split_length _ _ _ H) as (pre & post & -> & ->).
  rewrite list_insert_middle, !omap_app, !length_app. simpl. lia.
Qed.

Lemma completed_le (slots : list (option (settled Meta))) :
  (length (omap id slots) <= length slots)%nat.
Proof.
  induction slots as [|[s|] l IH]; [simpl; lia | |].
  - change (omap id (Some s :: l)) with (s :: omap id l). simpl. lia.
  - change (omap id (None :: l)) with (omap id l). simpl. lia.
Qed.

(** When as many units have completed as there are slots, every slot is
    filled. *)
Lemma completed_all (slots : list (option (settled Meta))) :
  length (omap id slots) = length slots -> Forall is_Some slots.
Proof.
  induction slots as [|[s|] l IH]; intros H.
  - constructor.
  - change (omap id (Some s :: l)) with (s :: omap id l) in H. simpl in H.
    constructor; [eauto | apply IH; lia].
  - change (omap id (None :: l)) with (omap id l) in H. simpl in H.
    pose proof (completed_le l). lia.
Qed.

Lemma pool_start_inv (files : list MulterFile) (outDir : str) (N : nat) (fs : FS) :
  (1 <= N)%nat -> pool_inv files outDir N (pool_start files N fs).
Proof.
  intros HN. set (n := length files).
  assert (Hq : pool_queue (pool_start files N fs) = drop N (seq 0 n))
    by (destruct N; [lia | reflexivity]).
  assert (Hact : pool_active (pool_start files N fs)
                 = (fun i => (i, AwaitRead)) <$> take N (seq 0 n))
    by (destruct N; [lia | reflexivity]).
  assert (Hs : pool_slots (pool_start files N fs) = replicate n None)
    by (destruct N; reflexivity).
  assert (Hr : pool_rejected (pool_start files N fs) = None)
    by (destruct N; [lia | reflexivity]).
  assert (Hc : completed (pool_start files N fs) = 0%nat).
  { unfold completed. rewrite Hs. clear. induction n; [reflexivity | exact IHn]. }
  assert (Ha : (pool_active (pool_start files N fs)).*1 = seq 0 (Nat.min N n)).
  { rewrite Hact, take_seq, <- list_fmap_compose. apply list_fmap_id. }
  assert (Hst : started (pool_start files N fs) = Nat.min N n).
  { unfold started. rewrite Hc, Nat.add_0_r.
    rewrite <- (length_fmap fst), Ha. apply length_seq. }
  split.
  - rewrite Hs. apply length_replicate.
  - rewrite Hst, Hq, drop_seq. fold n.
    destruct (Nat.le_ge_cases N n) as [Hle|Hge].
    + rewrite Nat.min_l by exact Hle. reflexivity.
    + rewrite Nat.min_r by exact Hge.
      replace (n - N)%nat with 0%nat by lia. replace (n - n)%nat with 0%nat by lia.
      reflexivity.
  - rewrite Hst, Hc. fold n. lia.
  - rewrite Ha. apply NoDup_seq.
  - intros i Hi. rewrite Ha in Hi. apply elem_of_seq in Hi. rewrite Hst, Hs.
    split; [lia|]. apply lookup_replicate_2. lia.
  - intros i _ Hi. rewrite Hs. apply lookup_replicate_2. exact Hi.
  - rewrite Hr. discriminate.
  - rewrite Hs. intros i reason Hl. apply lookup_replicate in Hl as [Hl _]. discriminate.
  - rewrite Hs. intros i m Hl. apply lookup_replicate in Hl as [Hl _]. discriminate.
Qed.

(** The invariant only reads the indices of the running units. *)
Lemma pool_inv_ext (files : list MulterFile) (outDir : str) (N : nat) (p p1 : pool) :
  pool_queue p1 = pool_queue p -> pool_slots p1 = pool_slots p ->
  pool_rejected p1 = pool_rejected p ->
  (pool_active p1).*1 = (pool_active p).*1 ->
  pool_inv files outDir N p -> pool_inv files outDir N p1.
Proof.
  intros Hq Hs Hr Ha [I1 I2 I3 I4 I5 I6 I7 I8 I9].
  assert (Hc : completed p1 = completed p) by (unfold completed; rewrite Hs; reflexivity).
  assert (Hst : started p1 = started p).
  { unfold started. rewrite Hc. f_equal.
    rewrite <- (length_fmap fst (pool_active p1)), Ha. apply length_fmap. }
  split; rewrite ?Hq, ?Hs, ?Hr, ?Ha, ?Hst, ?Hc; assumption.
Qed.

Lemma seq_cons_inv (a k j : nat) (q : list nat) :
  seq a k = j :: q -> j = a /\ q = seq (S a) (k - 1) /\ (1 <= k)%nat.
Proof.
  destruct k as [|k]; simpl; [discriminate|].
  intros [= <- <-]. rewrite Nat.sub_0_r. auto with lia.
Qed.

Lemma pool_step_inv (files : list MulterFile) (outDir : str) (N : nat) (t : tick)
    (p : pool) :
  pool_inv files outDir N p -> pool_inv files outDir N (pool_step files outDir t p).
Proof.
  intros Hinv.
  destruct (pool_step_cases files outDir t p)
    as [[E _] | (pre & i & ph & post & file & Ha & Hf &
                 [(ph' & fs' & Hs & E) | (o & fs' & Hs & E)])]; rewrite E; clear E.
  { exact Hinv. }
  { apply (pool_inv_ext files outDir N p); try reflexivity; [|exact Hinv].
    simpl. rewrite Ha, !fmap_app, !fmap_cons. reflexivity. }
  destruct Hinv as [I1 I2 I3 I4 I5 I6 I7 I8 I9].
  set (n := length files) in *. set (a := started p) in *. set (c := completed p) in *.
  assert (Hidx : (pool_active p).*1 = pre.*1 ++ i :: post.*1).
  { rewrite Ha, fmap_app, fmap_cons. reflexivity. }
  assert (Hlen : length (pool_active p) = S (length pre + length post)).
  { rewrite Ha, length_app. simpl. lia. }
  assert (Ha_eq : a = (S (length pre + length post) + c)%nat).
  { unfold a, started. rewrite Hlen. reflexivity. }
  assert (Hi : (i < a)%nat /\ pool_slots p !! i = Some None).
  { apply I5. rewrite Hidx. apply elem_of_app. right. apply elem_of_cons. auto. }
  destruct Hi as [Hia Hislot].
  rewrite Hidx in I4. apply NoDup_app in I4 as (Hnd_pre & Hdisj & Hnd_post).
  apply NoDup_cons in Hnd_post as [Hi_post Hnd_post].
  assert (Hi_pre : i ∉ pre.*1).
  { intros Hin. apply (Hdisj i Hin). apply elem_of_cons. auto. }
  assert (Hrest : forall j, j ∈ (pre ++ post).*1 ->
            j <> i /\ (j < a)%nat /\ pool_slots p !! j = Some None).
  { intros j Hj. rewrite fmap_app in Hj. apply elem_of_app in Hj.
    assert (Hj' : j ∈ (pool_active p).*1).
    { rewrite Hidx. apply elem_of_app. destruct Hj; [left | right; apply elem_of_cons];
        auto. }
    split; [|apply I5; exact Hj'].
    intros ->. destruct Hj; contradiction. }
  assert (Hnd_rest : NoDup (pre ++ post).*1).
  { rewrite fmap_app. apply NoDup_app. split; [exact Hnd_pre|]. split; [|exact Hnd_post].
    intros x Hx Hx'. apply (Hdisj x Hx). apply elem_of_cons. auto. }
  set (slots' := <[i := Some o]> (pool_slots p)).
  assert (Hc' : length (omap id slots') = S c) by (apply completed_insert; exact Hislot).
  assert (Hslots_ne : forall j, j <> i -> slots' !! j = pool_slots p !! j).
  { intros j Hj. apply list_lookup_insert_ne. congruence. }
  assert (Hslot_i : slots' !! i = Some (Some o)).
  { apply list_lookup_insert_eq. apply lookup_lt_Some in Hislot. exact Hislot. }
  set (rejected' := match pool_rejected p, o with
                    | None, Rejected reason => Some reason
                    | r, _ => r
                    end).
  assert (J7 : forall reason, rejected' = Some reason ->
                 exists j, slots' !! j = Some (Some (Rejected reason))).
  { intros reason Hr. unfold rejected' in Hr.
    destruct (pool_rejected p) as [r|] eqn:Er.
    - assert (r = reason) by (destruct o; congruence). subst r.
      destruct (I7 reason eq_refl) as [j Hj]. exists j.
      rewrite Hslots_ne; [exact Hj|]. intros ->. congruence.
    - destruct o as [m|r]; [discriminate|]. injection Hr as ->. eauto. }
  assert (J8 : forall j reason, slots' !! j = Some (Some (Rejected reason)) ->
                 rejected' <> None).
  { intros j reason Hj. unfold rejected'.
    destruct (decide (j = i)) as [->|Hne].
    - rewrite Hslot_i in Hj. injection Hj as ->.
      destruct (pool_rejected p); discriminate.
    - rewrite Hslots_ne in Hj by exact Hne.
      pose proof (I8 j reason Hj) as Hr.
      destruct (pool_rejected p); [destruct o; discriminate | contradiction]. }
  assert (J9 : forall j m, slots' !! j = Some (Some (Fulfilled m)) ->
                 exists file0, files !! j = Some file0 /\ meta_of outDir file0 m).
  { intros j m Hj. destruct (decide (j = i)) as [->|Hne].
    - rewrite Hslot_i in Hj. injection Hj as ->.
      apply optimiseFile_step_fulfilled in Hs as [Hm _]. eauto.
    - rewrite Hslots_ne in Hj by exact Hne. apply (I9 j m Hj). }
  assert (J1 : length slots' = n) by (unfold slots'; rewrite length_insert; exact I1).
  destruct (pool_queue p) as [|j0 q] eqn:Eq.
  - (* nothing queued *)
    assert (Han : a = n).
    { symmetry in I2. destruct (n - a)%nat eqn:Ek; [|discriminate]. lia. }
    simpl limit_next. cbn [fst snd].
    assert (Hst' : started {| pool_fs := fs'; pool_queue := []; pool_active := pre ++ post;
                                pool_slots := slots'; pool_rejected := rejected' |} = n).
    { unfold started, completed. simpl. rewrite Hc', length_app. lia. }
    split; simpl pool_slots; simpl pool_queue; simpl pool_active; simpl pool_rejected;
      rewrite ?Hst'; fold n; try assumption.
    + rewrite Nat.sub_diag. reflexivity.
    + unfold completed. simpl. rewrite Hc'. lia.
    + intros j Hj. destruct (Hrest j Hj) as (Hne & Hlt & Hsl).
      split; [lia|]. rewrite Hslots_ne by exact Hne. exact Hsl.
    + intros j Hj1 Hj2. lia.
  - (* the head of the queue is started *)
    symmetry in I2. apply seq_cons_inv in I2 as (-> & -> & Hk).
    simpl limit_next. cbn [fst snd].
    assert (Hst' : started {| pool_fs := fs'; pool_queue := seq (S a) (n - a - 1);
                                pool_active := (pre ++ post) ++ [(a, AwaitRead)];
                                pool_slots := slots'; pool_rejected := rejected' |}
                    = S a).
    { unfold started, completed. simpl. rewrite Hc', !length_app. simpl. lia. }
    split; simpl pool_slots; simpl pool_queue; simpl pool_active; simpl pool_rejected;
      rewrite ?Hst'; fold n; try assumption.
    + f_equal. lia.
    + unfold completed. simpl. rewrite Hc'. lia.
    + rewrite fmap_app. apply NoDup_app. split; [exact Hnd_rest|]. split.
      * intros x Hx Hx'. apply list_elem_of_singleton in Hx'. simpl in Hx'. subst x.
        destruct (Hrest _ Hx) as (_ & Hlt & _). lia.
      * apply NoDup_singleton.
    + intros j Hj. rewrite fmap_app in Hj. apply elem_of_app in Hj as [Hj | Hj].
      * destruct (Hrest j Hj) as (Hne & Hlt & Hsl).
        split; [lia|]. rewrite Hslots_ne by exact Hne. exact Hsl.
      * apply list_elem_of_singleton in Hj. simpl in Hj. subst j.
        split; [lia|]. rewrite Hslots_ne by lia. apply I6; lia.
    + intros j Hj1 Hj2. rewrite Hslots_ne by lia. apply I6; lia.
Qed.

Lemma pool_run_inv (files : list MulterFile) (outDir : str) (N : nat)
    (ticks : list tick) (p : pool) :
  pool_inv files outDir N p -> pool_inv files outDir N (pool_run files outDir ticks p).
Proof.
  unfold pool_run. revert p. induction ticks as [|t ticks IH]; intros p Hp; [exact Hp|].
  simpl. apply IH, pool_step_inv, Hp.
Qed.

Lemma pool_inv_bound (files : list MulterFile) (outDir : str) (N : nat) (p : pool) :
  pool_inv files outDir N p -> (length (pool_active p) <= N)%nat.
Proof.
  intros [_ _ I3 _ _ _ _ _ _]. unfold started in I3. lia.
Qed.

(** C2.  With a limit [N] of at least one (6 when none is given), in every
    state that a batch reaches, whatever the order of the events: at most
    [N] units are running; the units started so far are the first ones in
    submission order and the queue holds the others in that order; and
    the number started is [N] plus one for each unit that has completed,
    up to the size of the batch. *)
Theorem processFiles_concurrency_bound (files : list MulterFile) (outDir : str)
    (concurrency : option nat) (fs : FS) (ticks : list tick) :
  let N := default 6%nat concurrency in
  (1 <= N)%nat ->
  let p := pool_run files outDir ticks (processFiles files concurrency fs) in
  (length (pool_active p) <= N)%nat /\
  pool_queue p = seq (started p) (length files - started p) /\
  (forall i, i ∈ (pool_active p).*1 -> (i < started p)%nat) /\
  started p = Nat.min (length files) (N + completed p).
Proof.
  intros N HN p.
  assert (Hinv : pool_inv files outDir N p).
  { apply pool_run_inv. apply pool_start_inv. exact HN. }
  split; [exact (pool_inv_bound _ _ _ _ Hinv)|].
  destruct Hinv as [_ I2 I3 _ I5 _ _ _ _].
  split; [exact I2|]. split; [|exact I3].
  intros i Hi. apply (I5 i Hi).
Qed.

(** ** Completion of a batch *)

Lemma list_sum_middle (pre post : list (nat * phase)) (u : nat * phase) :
  list_sum ((fun u => remaining u.2) <$> (pre ++ u :: post))
  = (list_sum ((fun u => remaining u.2) <$> (pre ++ post)) + remaining u.2)%nat.
Proof.
  rewrite !fmap_app, fmap_cons, !list_sum_app. simpl. lia.
Qed.

Lemma remaining_pos (ph : phase) : (1 <= remaining ph)%nat.
Proof. destruct ph; simpl; lia. Qed.

Lemma pool_step_idle (files : list MulterFile) (outDir : str) (t : tick) (p : pool) :
  pool_active p = [] -> pool_step files outDir t p = p.
Proof. intros H. unfold pool_step. rewrite H. reflexivity. Qed.

Lemma pool_run_idle (files : list MulterFile) (outDir : str) (ticks : list tick)
    (p : pool) :
  pool_active p = [] -> pool_run files outDir ticks p = p.
Proof.
  intros H. unfold pool_run. induction ticks as [|t ticks IH]; [reflexivity|].
  simpl. rewrite pool_step_idle by exact H. exact IH.
Qed.

(** Every event takes at least one await off the work ahead. *)
Lemma pool_step_progress (files : list MulterFile) (outDir : str) (N : nat) (t : tick)
    (p : pool) :
  pool_inv files outDir N p -> pool_active p <> [] ->
  (work (pool_step files outDir t p) < work p)%nat.
Proof.
  intros Hinv Hne.
  destruct (pool_step_cases files outDir t p)
    as [[_ [E | (i & Hi & Hnone)]]
       | (pre & i & ph & post & file & Ha & Hf &
          [(ph' & fs' & Hs & E) | (o & fs' & Hs & E)])].
  - contradiction.
  - exfalso. destruct Hinv as [_ _ I3 _ I5 _ _ _ _].
    destruct (I5 i Hi) as [Hlt _]. apply lookup_ge_None in Hnone. lia.
  - rewrite E. unfold work. simpl. rewrite Ha, !list_sum_middle. simpl.
    apply optimiseFile_step_next in Hs as [Hlt _]. lia.
  - rewrite E. unfold work. rewrite Ha, list_sum_middle.
    pose proof (remaining_pos ph) as Hpos. simpl remaining in *.
    destruct (pool_queue p) as [|j q]; simpl.
    + lia.
    + rewrite fmap_app, list_sum_app. simpl. lia.
Qed.

Lemma work_zero (p : pool) : work p = 0%nat -> pool_active p = [].
Proof.
  unfold work. destruct (pool_active p) as [|[i ph] l]; [reflexivity|].
  rewrite fmap_cons. simpl. pose proof (remaining_pos ph). lia.
Qed.

Lemma pool_run_finishes (files : list MulterFile) (outDir : str) (N : nat)
    (ticks : list tick) (p : pool) :
  pool_inv files outDir N p -> (work p <= length ticks)%nat ->
  pool_active (pool_run files outDir ticks p) = [].
Proof.
  revert p. induction ticks as [|t ticks IH]; intros p Hinv Hw.
  - change (pool_run files outDir [] p) with p. apply work_zero.
    change (length (@nil tick)) with 0%nat in Hw. lia.
  - destruct (pool_active p) as [|u l] eqn:Ea.
    + rewrite pool_run_idle by exact Ea. exact Ea.
    + change (pool_run files outDir (t :: ticks) p)
        with (pool_run files outDir ticks (pool_step files outDir t p)).
      apply IH; [apply pool_step_inv, Hinv|].
      assert (Hlt : (work (pool_step files outDir t p) < work p)%nat).
      { apply (pool_step_progress files outDir N); [exact Hinv | congruence]. }
      change (length (t :: ticks)) with (S (length ticks)) in Hw. lia.
Qed.

Lemma work_start (files : list MulterFile) (N : nat) (fs : FS) :
  (1 <= N)%nat -> work (pool_start files N fs) = (3 * length files)%nat.
Proof.
  intros HN. unfold work. destruct N as [|N']; [lia|]. set (N := S N').
  simpl pool_queue. simpl pool_active.
  rewrite <- list_fmap_compose.
  assert (Hsum : forall l : list nat,
            list_sum ((fun u : nat * phase => remaining u.2)
                        ∘ (fun i : nat => (i, AwaitRead)) <$> l)
            = (3 * length l)%nat).
  { induction l as [|x l IHl]; [reflexivity|]. rewrite fmap_cons. simpl in *. lia. }
  rewrite Hsum, length_drop, length_take, length_seq. lia.
Qed.

(** With no unit running, every unit has completed. *)
Lemma idle_all_completed (files : list MulterFile) (outDir : str) (N : nat) (p : pool) :
  (1 <= N)%nat -> pool_inv files outDir N p -> pool_active p = [] ->
  Forall is_Some (pool_slots p).
Proof.
  intros HN [I1 _ I3 _ _ _ _ _ _] Ha. apply completed_all.
  unfold started in I3. rewrite Ha in I3. simpl in I3. unfold completed in *. lia.
Qed.

Lemma promise_all_rejected (files : list MulterFile) (outDir : str) (N : nat) (p : pool)
    (reason : error) :
  pool_inv files outDir N p -> promise_all p = Some (Rejected reason) ->
  exists i, pool_slots p !! i = Some (Some (Rejected reason)).
Proof.
  intros [_ _ _ _ _ _ I7 _ _]. unfold promise_all.
  destruct (pool_rejected p) as [r|]; [|destruct (mapM _ _); discriminate].
  intros [= ->]. apply I7. reflexivity.
Qed.

(** The values of a fulfilled [Promise.all] are those of the files, in
    the order of the files. *)
Lemma promise_all_fulfilled (files : list MulterFile) (outDir : str) (N : nat) (p : pool)
    (results : list Meta) :
  pool_inv files outDir N p -> promise_all p = Some (Fulfilled results) ->
  length results = length files /\
  forall i file, files !! i = Some file ->
    exists m, results !! i = Some m /\ meta_of outDir file m.
Proof.
  intros [I1 _ _ _ _ _ _ _ I9]. unfold promise_all.
  destruct (pool_rejected p); [discriminate|].
  destruct (mapM fulfilled_value (pool_slots p)) as [rs|] eqn:Em; [|discriminate].
  intros [= ->]. apply mapM_Some_1 in Em.
  pose proof (Forall2_length _ _ _ Em) as Hlen.
  split; [congruence|].
  intros i file Hf.
  assert (Hi : (i < length (pool_slots p))%nat).
  { rewrite I1. apply lookup_lt_Some in Hf. exact Hf. }
  apply lookup_lt_is_Some_2 in Hi as [s Hs].
  destruct (Forall2_lookup_l _ _ _ _ _ Em Hs) as (m & Hm & Hv).
  exists m. split; [exact Hm|].
  assert (s = Some (Fulfilled m)).
  { unfold fulfilled_value in Hv. destruct s as [[m'|r]|]; congruence. }
  subst s. destruct (I9 i m Hs) as (file0 & Hf0 & Hmeta). congruence.
Qed.

Lemma promise_all_finished (files : list MulterFile) (outDir : str) (N : nat) (p : pool) :
  (1 <= N)%nat -> pool_inv files outDir N p -> pool_active p = [] ->
  promise_all p <> None.
Proof.
  intros HN Hinv Ha. pose proof (idle_all_completed _ _ _ _ HN Hinv Ha) as Hall.
  destruct Hinv as [_ _ _ _ _ _ _ I8 _]. unfold promise_all.
  destruct (pool_rejected p) as [r|] eqn:Er; [discriminate|].
  assert (Hf : Forall (is_Some ∘ fulfilled_value) (pool_slots p)).
  { apply Forall_lookup. intros i s Hs.
    pose proof (Forall_lookup_1 _ _ _ _ Hall Hs) as [o Ho]. subst s.
    destruct o as [m|reason]; [simpl; eauto|].
    exfalso. apply (I8 i reason Hs). reflexivity. }
  apply mapM_is_Some_2 in Hf as [rs Hrs]. rewrite Hrs. discriminate.
Qed.

(** C6, as the code has it.  Started with a limit of at least one,
    [processFiles] settles after at most three events per file, whatever
    the order of the events.  When every unit fulfils, it returns one
    result per file, in the order of the batch, the result at each
    position being that of the file at that position.  When a unit
    rejects, it rejects, with the reason of a unit, and returns no
    list. *)
Theorem processFiles_settles_in_order (files : list MulterFile) (outDir : str)
    (concurrency : option nat) (fs : FS) (ticks : list tick) :
  (1 <= default 6%nat concurrency)%nat ->
  (3 * length files <= length ticks)%nat ->
  let p := pool_run files outDir ticks (processFiles files concurrency fs) in
  match promise_all p with
  | Some (Fulfilled results) =>
      length results = length files /\
      forall i file, files !! i = Some file ->
        exists m, results !! i = Some m /\ meta_of outDir file m
  | Some (Rejected reason) =>
      exists i, pool_slots p !! i = Some (Some (Rejected reason))
  | None => False
  end.
Proof.
  intros HN Hlen p. set (N := default 6%nat concurrency) in *.
  assert (Hinv0 : pool_inv files outDir N (processFiles files concurrency fs)).
  { apply pool_start_inv. exact HN. }
  assert (Hinv : pool_inv files outDir N p) by (apply pool_run_inv; exact Hinv0).
  assert (Hidle : pool_active p = []).
  { apply (pool_run_finishes files outDir N); [exact Hinv0|].
    unfold processFiles. fold N. rewrite work_start by exact HN. exact Hlen. }
  pose proof (promise_all_finished _ _ _ _ HN Hinv Hidle) as Hsettled.
  destruct (promise_all p) as [[results|reason]|] eqn:Ep.
  - apply (promise_all_fulfilled files outDir N p results Hinv Ep).
  - apply (promise_all_rejected files outDir N p reason Hinv Ep).
  - contradiction.
Qed.

(** ** The request while its batch is processed *)

Lemma staged_not_optimized (f : MulterFile) (x : str) :
  staged f -> file_path f <> OPTIMIZED_DIR ++ "/"%char :: x.
Proof. intros (name & _ & ->). apply areas_disjoint. Qed.

(** An event of the pool only writes into the outgoing area. *)
Lemma pool_step_frame (files : list MulterFile) (t : tick) (p : pool) (q : str) :
  (forall x, q <> OPTIMIZED_DIR ++ "/"%char :: x) ->
  pool_fs (pool_step files OPTIMIZED_DIR t p) !! q = pool_fs p !! q.
Proof.
  intros Hq.
  destruct (pool_step_cases files OPTIMIZED_DIR t p)
    as [[E _] | (pre & i & ph & post & file & Ha & Hf &
                 [(ph' & fs' & Hs & E) | (o & fs' & Hs & E)])]; rewrite E;
    [reflexivity | |]; simpl;
    apply (optimiseFile_step_frame _ _ _ _ _ _ _ q Hs);
    rewrite join_optimized_child by apply optimizedName_proper; apply Hq.
Qed.

Lemma createZip_frame (random : list Byte.byte) (now : Z) (fs : FS)
    (filePaths : list str) (q : str) :
  (forall x, q <> OPTIMIZED_DIR ++ "/"%char :: x) ->
  (createZip random now fs filePaths).2 !! q = fs !! q.
Proof.
  intros Hq. unfold createZip. rewrite zip_path_eq.
  destruct (fs_writeFile now fs _ _) as [code|fs'] eqn:Ew; [reflexivity|].
  apply fs_writeFile_inr in Ew.
  assert (Hl : fs' !! q = fs !! q).
  { rewrite Ew. apply lookup_insert_ne. apply not_eq_sym, Hq. }
  destruct (archive_failed _); exact Hl.
Qed.

Lemma pool_inv_with_fs (files : list MulterFile) (outDir : str) (N : nat) (p : pool)
    (fs : FS) :
  pool_inv files outDir N p -> pool_inv files outDir N (with_fs p fs).
Proof. apply pool_inv_ext; reflexivity. Qed.

(** A fulfilled [Promise.all] leaves no unit running. *)
Lemma promise_all_fulfilled_idle (files : list MulterFile) (outDir : str) (N : nat)
    (p : pool) (results : list Meta) :
  pool_inv files outDir N p -> promise_all p = Some (Fulfilled results) ->
  pool_active p = [] /\ pool_rejected p = None.
Proof.
  intros [_ _ _ _ I5 _ _ _ _]. unfold promise_all.
  destruct (pool_rejected p); [discriminate|].
  destruct (mapM fulfilled_value (pool_slots p)) as [rs|] eqn:Em; [|discriminate].
  intros _. split; [|reflexivity].
  destruct (pool_active p) as [|[i ph] l] eqn:Ea; [reflexivity|]. exfalso.
  destruct (I5 i) as [_ Hs]; [rewrite fmap_cons; apply elem_of_cons; auto|].
  apply mapM_Some_1 in Em.
  destruct (Forall2_lookup_l _ _ _ _ _ Em Hs) as (m & _ & Hv). discriminate.
Qed.

Lemma failure_response_not_ok (payload : Payload) : Json200 payload <> failure_response.
Proof. discriminate. Qed.

Lemma failure_response_dec (resp : response) :
  resp = failure_response \/ resp <> failure_response.
Proof.
  destruct resp as [| | err | | | |]; try (right; discriminate).
  destruct (decide (err = lit "Failed to process images")) as [->|Hne].
  - left. reflexivity.
  - right. unfold failure_response. congruence.
Qed.

(** The [catch] block on a request whose originals are on disk. *)
Lemma on_processing_error_inv (reason : error) (r : request) :
  Forall staged (req_files r) ->
  pool_inv (req_files r) OPTIMIZED_DIR 6 (req_pool r) ->
  (forall f, f ∈ req_files r ->
     exists m d, pool_fs (req_pool r) !! file_path f = Some (File m d)) ->
  req_inv (on_processing_error reason r).
Proof.
  intros Hst Hpool Hpresent. unfold on_processing_error.
  pose proof (fun f Hin => unlink_all_removes (req_files r) (pool_fs (req_pool r)) f Hin
                             (Hpresent f Hin)) as Hgone.
  destruct (unlink_all (req_files r) (pool_fs (req_pool r))) as [fs' l]. simpl in Hgone.
  split; [split|]; simpl; try discriminate.
  - exact Hst.
  - apply pool_inv_with_fs. exact Hpool.
  - intros resp [= <-] _. reflexivity.
  - intros resp [= <-] Hne. contradiction.
  - intros _. exact Hgone.
Qed.

(** The handler resuming. *)
Lemma resume_inv (random : list Byte.byte) (now : Z) (r : request) :
  req_pre r -> req_inv (resume random now r).
Proof.
  intros Hpre. pose proof Hpre as [P1 P2 P3 P4 P5 P6]. unfold resume.
  destruct (req_response r) as [resp|] eqn:Er.
  { split; [exact Hpre | congruence]. }
  destruct (promise_all (req_pool r)) as [[processed|reason]|] eqn:Ep.
  - (* fulfilled *)
    destruct (promise_all_fulfilled_idle _ _ _ _ _ P2 Ep) as [Hidle Hnorej].
    unfold on_processed.
    assert (Hok : forall zipInfo fs',
      req_inv {| req_files := req_files r; req_pool := with_fs (req_pool r) fs';
                 req_response :=
                   Some (Json200 {| payload_files := map payload_entry processed;
                                    payload_zip := zipInfo |});
                 req_log := req_log r |}).
    { intros zipInfo fs'. split; [split|]; simpl; try discriminate.
      - exact P1.
      - apply pool_inv_with_fs. exact P2.
      - intros resp _ Hrej. contradiction.
      - intros _ _ _. exact Hidle. }
    destruct (Nat.ltb 1 (length processed)); [|apply Hok].
    pose proof (fun q Hq => createZip_frame random now (pool_fs (req_pool r))
                              (map optimizedPath processed) q Hq) as Hframe.
    destruct (createZip random now (pool_fs (req_pool r)) (map optimizedPath processed))
      as [[zipName|procErr] fs'] eqn:Ez; [apply Hok|].
    simpl in Hframe.
    apply on_processing_error_inv; simpl.
    + exact P1.
    + apply pool_inv_with_fs. exact P2.
    + intros f Hf. rewrite Hframe; [apply (P3 eq_refl f Hf)|].
      intros x. apply staged_not_optimized.
      rewrite Forall_forall in P1. apply P1. exact Hf.
  - (* rejected *)
    apply on_processing_error_inv; [exact P1 | exact P2 | exact (P3 eq_refl)].
  - split; [exact Hpre|]. intros _. exact Ep.
Qed.

(** One event keeps the invariant. *)
Lemma request_step_inv (random : list Byte.byte) (r : request) (t : tick) :
  req_inv r -> req_inv (request_step random r t).
Proof.
  intros [[P1 P2 P3 P4 P5 P6] Hpending]. unfold request_step. apply resume_inv.
  assert (Hframe : forall f, f ∈ req_files r ->
            pool_fs (pool_step (req_files r) OPTIMIZED_DIR t (req_pool r)) !! file_path f
            = pool_fs (req_pool r) !! file_path f).
  { intros f Hf. apply pool_step_frame. intros x. apply staged_not_optimized.
    rewrite Forall_forall in P1. apply P1. exact Hf. }
  assert (Hquiet : forall resp, req_response r = Some resp -> resp <> failure_response ->
            pool_step (req_files r) OPTIMIZED_DIR t (req_pool r) = req_pool r).
  { intros resp Hr Hne. apply pool_step_idle. apply (P5 resp Hr Hne). }
  split; simpl.
  - exact P1.
  - apply pool_step_inv. exact P2.
  - intros Hr f Hf. rewrite Hframe by exact Hf. apply (P3 Hr f Hf).
  - intros resp Hr Hrej.
    destruct (failure_response_dec resp) as [->|Hne]; [reflexivity|].
    rewrite (Hquiet resp Hr Hne) in Hrej. apply (P4 resp Hr Hrej).
  - intros resp Hr Hne. rewrite (Hquiet resp Hr Hne). apply (P5 resp Hr Hne).
  - intros Hr f Hf. rewrite Hframe by exact Hf. apply (P6 Hr f Hf).
Qed.

Lemma request_run_inv (random : list Byte.byte) (ticks : list tick) (r : request) :
  req_inv r -> req_inv (request_run random ticks r).
Proof.
  unfold request_run. revert r. induction ticks as [|t ticks IH]; intros r Hr; [exact Hr|].
  simpl. apply IH, request_step_inv, Hr.
Qed.

(** What [POST /upload] has established when it starts to wait. *)
Lemma post_upload_ok (random : list Byte.byte) (now : Z) (parts : list Part) (fs : FS) :
  answered_at_intake (post_upload random now parts fs) \/
  req_inv (post_upload random now parts fs).
Proof.
  destruct (multer_receive parts [] fs) as [[[e|] stored] fs1] eqn:Hm.
  { left. rewrite (post_upload_multer_error _ _ _ _ _ _ _ Hm).
    split; [discriminate | split; reflexivity]. }
  destruct (Z.ltb_spec MAX_TOTAL_SIZE (aggregate_size parts)) as [Hbig|Hsmall].
  { left. rewrite (post_upload_oversize _ _ _ _ _ _ Hm Hbig).
    split; [discriminate | split; reflexivity]. }
  right. unfold post_upload, upload. rewrite Hm.
  rewrite (total_size_accepted _ _ _ _ Hm).
  assert (Hlt : (MAX_TOTAL_SIZE <? aggregate_size parts) = false)
    by (apply Z.ltb_ge; exact Hsmall).
  rewrite Hlt. apply resume_inv.
  destruct (multer_receive_spec _ _ _ _ _ _ Hm) as (new & -> & Hst & Hin & _).
  simpl app in *.
  split; simpl; try discriminate.
  - exact Hst.
  - apply pool_start_inv. simpl. lia.
  - intros _ f Hf. apply Hin. exact Hf.
Qed.

Lemma request_run_ok (random : list Byte.byte) (now : Z) (parts : list Part) (fs : FS)
    (ticks : list tick) :
  let r := request_run random ticks (post_upload random now parts fs) in
  answered_at_intake r \/ req_inv r.
Proof.
  cbv zeta. destruct (post_upload_ok random now parts fs) as [Ha | Hi].
  - left. destruct Ha as (Hr & Hact & Hs).
    rewrite request_run_quiet by assumption. split; [exact Hr | split; assumption].
  - right. apply request_run_inv. exact Hi.
Qed.

(** The handler never replaces the list of files of its request. *)
Lemma resume_files (random : list Byte.byte) (now : Z) (r : request) :
  req_files (resume random now r) = req_files r.
Proof.
  unfold resume. destruct (req_response r); [reflexivity|].
  destruct (promise_all (req_pool r)) as [[processed|reason]|]; [| |reflexivity].
  - unfold on_processed. destruct (Nat.ltb 1 (length processed)); [|reflexivity].
    destruct (createZip _ _ _ _) as [[zipName|procErr] fs']; [reflexivity|].
    unfold on_processing_error. simpl. destruct (unlink_all _ _). reflexivity.
  - unfold on_processing_error. destruct (unlink_all _ _). reflexivity.
Qed.

Lemma request_run_files (random : list Byte.byte) (ticks : list tick) (r : request) :
  req_files (request_run random ticks r) = req_files r.
Proof.
  unfold request_run. revert r. induction ticks as [|t ticks IH]; intros r; [reflexivity|].
  simpl. rewrite IH. unfold request_step. rewrite resume_files. reflexivity.
Qed.

(** The files of a request that passed the intake are the files that
    Multer stored. *)
Lemma post_upload_files (random : list Byte.byte) (now : Z) (parts : list Part) (fs : FS) :
  answered_at_intake (post_upload random now parts fs) \/
  req_files (post_upload random now parts fs) = (multer_receive parts [] fs).1.2.
Proof.
  destruct (multer_receive parts [] fs) as [[[e|] stored] fs1] eqn:Hm.
  { left. rewrite (post_upload_multer_error _ _ _ _ _ _ _ Hm).
    split; [discriminate | split; reflexivity]. }
  right. unfold post_upload, upload. rewrite Hm.
  destruct (MAX_TOTAL_SIZE <? _).
  - destruct (unlink_all stored fs1). reflexivity.
  - apply resume_files.
Qed.

(** Nothing that a request does removes a path: a write keeps what is
    there. *)
Lemma fs_writeFile_keeps (now : Z) (fs fs' : FS) (p q : str) (d : Buffer) :
  fs_writeFile now fs p d = inr fs' -> is_Some (fs !! q) -> is_Some (fs' !! q).
Proof.
  intros ->%fs_writeFile_inr H. destruct (decide (q = p)) as [->|Hne].
  - rewrite lookup_insert_eq. eauto.
  - rewrite lookup_insert_ne by congruence. exact H.
Qed.

Lemma pool_step_keeps (files : list MulterFile) (outDir : str) (t : tick) (p : pool)
    (q : str) :
  is_Some (pool_fs p !! q) -> is_Some (pool_fs (pool_step files outDir t p) !! q).
Proof.
  intros Hq.
  assert (Hunit : forall file ph res fs',
            optimiseFile_step (tick_now t) (pool_fs p) file outDir ph = (res, fs') ->
            is_Some (fs' !! q)).
  { intros file ph [ph'|[m|reason]] fs' H.
    - apply optimiseFile_step_next in H as [_ ->]. exact Hq.
    - apply optimiseFile_step_fulfilled in H as (_ & b & ob & _ & ->).
      destruct (decide (q = optimizedPath m)) as [->|Hne].
      + rewrite lookup_insert_eq. eauto.
      + rewrite lookup_insert_ne by congruence. exact Hq.
    - apply optimiseFile_step_rejected in H as ->. exact Hq. }
  destruct (pool_step_cases files outDir t p)
    as [[E _] | (pre & i & ph & post & file & Ha & Hf &
                 [(ph' & fs' & Hs & E) | (o & fs' & Hs & E)])]; rewrite E;
    [exact Hq | |]; simpl; apply (Hunit _ _ _ _ Hs).
Qed.

Lemma createZip_keeps (random : list Byte.byte) (now : Z) (fs : FS)
    (filePaths : list str) (q : str) :
  is_Some (fs !! q) -> is_Some ((createZip random now fs filePaths).2 !! q).
Proof.
  intros Hq. unfold createZip.
  destruct (fs_writeFile now fs _ _) as [code|fs'] eqn:Ew; [exact Hq|].
  pose proof (fs_writeFile_keeps _ _ _ _ _ _ Ew Hq) as Hq'.
  destruct (archive_failed _); exact Hq'.
Qed.

(** The [catch] block removes staged originals, which are not in the
    outgoing area. *)
Lemma on_processing_error_outgoing (reason : error) (r : request) (q : str) :
  Forall staged (req_files r) ->
  NodePath.startsWith q (OPTIMIZED_DIR ++ lit "/") = true ->
  pool_fs (req_pool (on_processing_error reason r)) !! q = pool_fs (req_pool r) !! q.
Proof.
  intros Hst [x ->]%startsWith_app. unfold on_processing_error.
  pose proof (unlink_all_other (req_files r) (pool_fs (req_pool r))
                ((OPTIMIZED_DIR ++ lit "/") ++ x)) as Ho.
  destruct (unlink_all (req_files r) (pool_fs (req_pool r))) as [fs' l]. simpl in *.
  apply Ho. intros (f & Hq & Hf)%list_elem_of_fmap.
  rewrite Forall_forall in Hst. symmetry in Hq. rewrite <- app_assoc in Hq.
  apply (staged_not_optimized f x (Hst f Hf) Hq).
Qed.

Lemma resume_keeps_outgoing (random : list Byte.byte) (now : Z) (r : request) (q : str) :
  Forall staged (req_files r) ->
  NodePath.startsWith q (OPTIMIZED_DIR ++ lit "/") = true ->
  is_Some (pool_fs (req_pool r) !! q) ->
  is_Some (pool_fs (req_pool (resume random now r)) !! q).
Proof.
  intros Hst Hq Hs. unfold resume. destruct (req_response r); [exact Hs|].
  destruct (promise_all (req_pool r)) as [[processed|reason]|]; [| |exact Hs].
  - unfold on_processed. destruct (Nat.ltb 1 (length processed)); [|exact Hs].
    pose proof (createZip_keeps random now (pool_fs (req_pool r))
                  (map optimizedPath processed) q Hs) as Hz.
    destruct (createZip _ _ _ _) as [[zipName|procErr] fs']; [exact Hz|].
    rewrite on_processing_error_outgoing by assumption. exact Hz.
  - rewrite on_processing_error_outgoing by assumption. exact Hs.
Qed.

(** No event of a request removes a path of the outgoing area. *)
Lemma request_run_keeps_outgoing (random : list Byte.byte) (ticks : list tick)
    (r : request) (q : str) :
  Forall staged (req_files r) ->
  NodePath.startsWith q (OPTIMIZED_DIR ++ lit "/") = true ->
  is_Some (pool_fs (req_pool r) !! q) ->
  is_Some (pool_fs (req_pool (request_run random ticks r)) !! q).
Proof.
  unfold request_run. revert r.
  induction ticks as [|t ticks IH]; intros r Hst Hq Hs; [exact Hs|].
  simpl. apply IH; [unfold request_step; rewrite resume_files; exact Hst | exact Hq |].
  unfold request_step. apply resume_keeps_outgoing; [exact Hst | exact Hq |].
  simpl. apply pool_step_keeps. exact Hs.
Qed.

(** C5.  In every state that a request reaches, if the codec step of a
    file of the batch has failed, the response is the generic 500 "Failed
    to process images", which names no artifact, and no staged original
    of the batch (the files that Multer stored for the request) is left
    in the incoming area. *)
Theorem codec_failure_fails_batch (random : list Byte.byte) (now : Z)
    (parts : list Part) (fs : FS) (ticks : list tick) (i : nat) :
  let r := request_run random ticks (post_upload random now parts fs) in
  pool_slots (req_pool r) !! i = Some (Some (Rejected CodecError)) ->
  req_response r = Some (Json500 (lit "Failed to process images")) /\
  req_files r = (multer_receive parts [] fs).1.2 /\
  Forall staged (req_files r) /\
  forall f, f ∈ req_files r -> pool_fs (req_pool r) !! file_path f = None.
Proof.
  intros r Hslot.
  assert (Hfiles : req_files r = (multer_receive parts [] fs).1.2).
  { unfold r. rewrite request_run_files.
    destruct (post_upload_files random now parts fs) as [(Hne & Hact & Hs) | E];
      [|exact E].
    unfold r in Hslot. rewrite request_run_quiet in Hslot by assumption.
    rewrite Hs in Hslot. discriminate. }
  destruct (request_run_ok random now parts fs ticks) as [Ha | [Hpre Hpending]];
    fold r in Ha || fold r in Hpre, Hpending.
  { destruct Ha as (_ & _ & Hs). rewrite Hs in Hslot. discriminate. }
  destruct Hpre as [P1 P2 P3 P4 P5 P6].
  assert (Hrej : pool_rejected (req_pool r) <> None).
  { destruct P2 as [_ _ _ _ _ _ _ I8 _]. apply (I8 i CodecError Hslot). }
  assert (Hresp : req_response r = Some failure_response).
  { destruct (req_response r) as [resp|] eqn:Er.
    - rewrite (P4 resp eq_refl Hrej). reflexivity.
    - specialize (Hpending eq_refl). unfold promise_all in Hpending.
      destruct (pool_rejected (req_pool r)); [discriminate | contradiction]. }
  split; [exact Hresp|]. split; [exact Hfiles|]. split; [exact P1|].
  apply P6. exact Hresp.
Qed.

(** A step in which the first unit rejects writes nothing. *)
Lemma pool_step_first_rejection (files : list MulterFile) (outDir : str) (t : tick)
    (p : pool) :
  pool_rejected p = None -> pool_rejected (pool_step files outDir t p) <> None ->
  pool_fs (pool_step files outDir t p) = pool_fs p.
Proof.
  intros Hnone.
  destruct (pool_step_cases files outDir t p)
    as [[E _] | (pre & i & ph & post & file & Ha & Hf &
                 [(ph' & fs' & Hs & E) | (o & fs' & Hs & E)])]; rewrite E; simpl;
    try (intros H; congruence).
  rewrite Hnone. destruct o as [m|reason]; [intros H; congruence|]. intros _.
  apply optimiseFile_step_rejected in Hs. exact Hs.
Qed.

Lemma resume_keeps_rejected (random : list Byte.byte) (now : Z) (r : request) :
  pool_rejected (req_pool (resume random now r)) = pool_rejected (req_pool r).
Proof.
  unfold resume. destruct (req_response r); [reflexivity|].
  destruct (promise_all (req_pool r)) as [[processed|reason]|]; [| |reflexivity].
  - unfold on_processed. destruct (Nat.ltb 1 (length processed)); [|reflexivity].
    destruct (createZip _ _ _ _) as [[zipName|procErr] fs']; [reflexivity|].
    unfold on_processing_error. simpl. destruct (unlink_all _ _). reflexivity.
  - unfold on_processing_error. destruct (unlink_all _ _). reflexivity.
Qed.

(** C10.  Take any state of a request that has not been answered, and an
    event in which a unit of its batch rejects.  The handler answers with
    the 500 of its [catch] block, and between the two states the
    filesystem changes only by the removal of the staged originals: every
    other path is as it was, in particular every path of the outgoing
    area and the output of every sibling that had already fulfilled.
    Whatever the request does afterwards, no path of the outgoing area is
    removed. *)
Theorem failure_path_frame (random : list Byte.byte) (now : Z) (parts : list Part)
    (fs : FS) (ticks : list tick) (t : tick) :
  let r := request_run random ticks (post_upload random now parts fs) in
  let r' := request_step random r t in
  req_response r = None ->
  pool_rejected (req_pool r') <> None ->
  req_response r' = Some (Json500 (lit "Failed to process images")) /\
  (forall f, f ∈ req_files r ->
     staged f /\
     (exists m d, pool_fs (req_pool r) !! file_path f = Some (File m d)) /\
     pool_fs (req_pool r') !! file_path f = None) /\
  (forall q, q ∉ file_path <$> req_files r ->
     pool_fs (req_pool r') !! q = pool_fs (req_pool r) !! q) /\
  (forall q, NodePath.startsWith q (OPTIMIZED_DIR ++ lit "/") = true ->
     pool_fs (req_pool r') !! q = pool_fs (req_pool r) !! q) /\
  (forall j m, pool_slots (req_pool r) !! j = Some (Some (Fulfilled m)) ->
     pool_fs (req_pool r') !! optimizedPath m = pool_fs (req_pool r) !! optimizedPath m) /\
  (forall later q, NodePath.startsWith q (OPTIMIZED_DIR ++ lit "/") = true ->
     is_Some (pool_fs (req_pool r') !! q) ->
     is_Some (pool_fs (req_pool (request_run random later r')) !! q)).
Proof.
  intros r r' Hr Hrej.
  destruct (request_run_ok random now parts fs ticks) as [Ha | [Hpre Hpending]];
    fold r in Ha || fold r in Hpre, Hpending.
  { destruct Ha as (Hne & _). contradiction. }
  destruct Hpre as [P1 P2 P3 P4 P5 P6].
  assert (Hnone : pool_rejected (req_pool r) = None).
  { specialize (Hpending Hr). unfold promise_all in Hpending.
    destruct (pool_rejected (req_pool r)); [discriminate | reflexivity]. }
  set (p1 := pool_step (req_files r) OPTIMIZED_DIR t (req_pool r)).
  assert (Hrej1 : pool_rejected p1 <> None).
  { unfold r', request_step in Hrej. rewrite resume_keeps_rejected in Hrej. exact Hrej. }
  assert (Hfs1 : pool_fs p1 = pool_fs (req_pool r)).
  { apply pool_step_first_rejection; assumption. }
  assert (Hr' : exists reason,
            r' = on_processing_error reason
                   {| req_files := req_files r; req_pool := p1;
                      req_response := req_response r; req_log := req_log r |}).
  { unfold r', request_step, resume. fold p1. simpl. rewrite Hr.
    unfold promise_all. destruct (pool_rejected p1) as [reason|]; [|contradiction].
    eauto. }
  destruct Hr' as [reason Hr'].
  assert (Hfs' : pool_fs (req_pool r') = (unlink_all (req_files r) (pool_fs (req_pool r))).1
                 /\ req_response r' = Some failure_response).
  { rewrite Hr'. unfold on_processing_error. simpl. rewrite Hfs1.
    destruct (unlink_all _ _). split; reflexivity. }
  destruct Hfs' as [Hfs' Hresp].
  assert (Hout : forall q x, q = OPTIMIZED_DIR ++ "/"%char :: x ->
            q ∉ file_path <$> req_files r).
  { intros q x -> (f & Hq & Hf)%list_elem_of_fmap.
    rewrite Forall_forall in P1. symmetry in Hq.
    apply (staged_not_optimized f x (P1 f Hf) Hq). }
  assert (Hlater : forall later q,
            NodePath.startsWith q (OPTIMIZED_DIR ++ lit "/") = true ->
            is_Some (pool_fs (req_pool r') !! q) ->
            is_Some (pool_fs (req_pool (request_run random later r')) !! q)).
  { intros later q Hq Hs. apply request_run_keeps_outgoing; [|exact Hq | exact Hs].
    unfold r', request_step. rewrite resume_files. exact P1. }
  split; [exact Hresp|]. rewrite Hfs'. split; [|split; [|split; [|split]]];
    [| | | | rewrite <- Hfs'; exact Hlater].
  - intros f Hf. split; [rewrite Forall_forall in P1; apply P1; exact Hf|].
    split; [apply (P3 Hr f Hf)|].
    apply unlink_all_removes; [exact Hf | apply (P3 Hr f Hf)].
  - intros q Hq. apply unlink_all_other. exact Hq.
  - intros q [x ->]%startsWith_app. apply unlink_all_other.
    apply (Hout _ x). rewrite <- app_assoc. reflexivity.
  - intros j m Hslot. apply unlink_all_other.
    destruct P2 as [_ _ _ _ _ _ _ _ I9].
    destruct (I9 j m Hslot) as (file & _ & _ & _ & Hpath).
    apply (Hout _ (optimizedName (file_originalname file))).
    rewrite Hpath. apply join_optimized_child, optimizedName_proper.
Qed.

(** ** Names and paths derived from what the client sends *)

Lemma last_component_child (dir name : str) :
  name <> [] -> no_slash name = true ->
  NodePath.last_component (dir ++ "/"%char :: name) = name.
Proof.
  intros Hne Hns. unfold NodePath.last_component.
  assert (Hrev : rev (dir ++ "/"%char :: name) = rev name ++ "/"%char :: rev dir).
  { rewrite rev_app_distr. simpl. rewrite <- app_assoc. reflexivity. }
  rewrite Hrev.
  assert (Hskip : NodePath.skip NodePath.is_slash (rev name ++ "/"%char :: rev dir)
                  = rev name ++ "/"%char :: rev dir).
  { rewrite <- no_slash_rev in Hns.
    destruct (rev name) as [|c r] eqn:E.
    - apply (f_equal (@length ascii)) in E. rewrite length_rev in E.
      destruct name; [contradiction | discriminate].
    - simpl in Hns. apply andb_true_iff in Hns as [Hc _]. simpl.
      destruct (NodePath.is_slash c); [discriminate | reflexivity]. }
  rewrite Hskip, span_app_stop.
  - apply rev_involutive.
  - rewrite <- no_slash_rev in Hns. exact Hns.
  - reflexivity.
Qed.

Lemma basename_child (dir name : str) :
  proper_segment name = true ->
  NodePath.basename (dir ++ "/"%char :: name) = name.
Proof.
  intros Hp. apply last_component_child.
  - apply proper_segment_nonempty, Hp.
  - apply proper_segment_no_slash, Hp.
Qed.

Lemma basename_proper (name : str) :
  proper_segment name = true -> NodePath.basename name = name.
Proof. intros Hp. apply last_component_id, proper_segment_no_slash, Hp. Qed.

(** X1.  Whatever name the client sends for a file, with separators,
    dot segments or white space in it, the name that the storage callback
    gives has no separator, and the path it is stored under is directly
    in the incoming directory, never in the outgoing area; the stored
    name is the base name of that path. *)
Theorem staged_path_confined (originalname : str) (now random : Z) :
  let filename := storage_filename originalname now random in
  let filePath := NodePath.join [UPLOAD_DIR; filename] in
  no_slash filename = true /\
  filePath = UPLOAD_DIR ++ "/"%char :: filename /\
  NodePath.basename filePath = filename /\
  NodePath.startsWith filePath (OPTIMIZED_DIR ++ lit "/") = false.
Proof.
  intros filename filePath.
  pose proof (storage_filename_proper originalname now random) as Hp. fold filename in Hp.
  assert (Hj : filePath = UPLOAD_DIR ++ "/"%char :: filename)
    by (apply join_upload_child, Hp).
  split; [apply proper_segment_no_slash, Hp|]. split; [exact Hj|].
  rewrite Hj. split; [apply basename_child, Hp|].
  apply upload_area_not_optimized.
  change (UPLOAD_DIR ++ "/"%char :: filename) with (UPLOAD_DIR ++ lit "/" ++ filename).
  rewrite app_assoc. apply startsWith_self_app.
Qed.

(** X2.  Whatever the original name of a file, the name [optimiseFile]
    derives for its output has no separator, the output path is directly
    in the outgoing directory, and it is the path of no staged original:
    the unit cannot overwrite an upload. *)
Theorem output_path_confined (originalname : str) :
  let name := optimizedName originalname in
  let out := NodePath.join [OPTIMIZED_DIR; name] in
  no_slash name = true /\
  out = OPTIMIZED_DIR ++ "/"%char :: name /\
  NodePath.basename out = name /\
  forall f, staged f -> file_path f <> out.
Proof.
  intros name out.
  pose proof (optimizedName_proper originalname) as Hp. fold name in Hp.
  assert (Hj : out = OPTIMIZED_DIR ++ "/"%char :: name)
    by (apply join_optimized_child, Hp).
  split; [apply proper_segment_no_slash, Hp|]. split; [exact Hj|].
  rewrite Hj. split; [apply basename_child, Hp|].
  intros f (x & _ & ->). apply areas_disjoint.
Qed.

(** The two download routes on a request whose base name is a proper
    segment. *)
Lemma serve_existing (area : str) (fs : FS) (filename : str) :
  proper_segment area = true ->
  proper_segment (NodePath.basename filename) = true ->
  let dir := abs_path (root ++ [area]) in
  let name := NodePath.basename filename in
  (if negb (NodePath.startsWith (NodePath.join [dir; name]) dir)
   then Send400 (lit "Invalid file request")
   else if fs_access fs (NodePath.join [dir; name])
        then res_download fs (NodePath.join [dir; name]) name
        else Send404 (lit "File not found"))
  = match fs !! (dir ++ "/"%char :: name) with
    | Some (File _ _) => Download (dir ++ "/"%char :: name) name
    | Some (Dir _) => DownloadFailed (dir ++ "/"%char :: name) EISDIR
    | None => Send404 (lit "File not found")
    end.
Proof.
  intros Ha Hp. cbv zeta.
  rewrite (join_area_child area _ Ha Hp).
  rewrite startsWith_self_app. simpl negb. cbv iota.
  apply access_download.
Qed.


(** *** The upload filter and the dispatch of [optimiseFile] *)

Lemma lower_char_dot (c : ascii) : NodePath.is_dot (lower_char c) = NodePath.is_dot c.
Proof. destruct c as [[] [] [] [] [] [] [] []]; reflexivity. Qed.

Lemma toLowerCase_no_dot (s : str) :
  forallb (fun c => negb (NodePath.is_dot c)) (toLowerCase s)
  = forallb (fun c => negb (NodePath.is_dot c)) s.
Proof.
  induction s as [|c s IH]; [reflexivity|].
  change (negb (NodePath.is_dot (lower_char c))
          && forallb (fun c => negb (NodePath.is_dot c)) (toLowerCase s)
          = negb (NodePath.is_dot c) && forallb (fun c => negb (NodePath.is_dot c)) s).
  rewrite lower_char_dot, IH. reflexivity.
Qed.

Lemma toLowerCase_app (a b : str) : toLowerCase (a ++ b) = toLowerCase a ++ toLowerCase b.
Proof. apply map_app. Qed.

Lemma span_app_all (f : ascii -> bool) (a b : str) :
  forallb f a = true -> NodePath.span f (a ++ b) = a ++ NodePath.span f b.
Proof.
  induction a as [|c a IH]; [reflexivity|]. simpl.
  intros [Hc Ha]%andb_true_iff. rewrite Hc, IH by exact Ha. reflexivity.
Qed.

(** The last component of a path that ends with a non-empty text without
    separator. *)
Lemma last_component_app (k t : str) :
  t <> [] -> no_slash t = true ->
  NodePath.last_component (k ++ t)
  = rev (NodePath.span (fun c => negb (NodePath.is_slash c)) (rev k)) ++ t.
Proof.
  intros Hne Hns. unfold NodePath.last_component. rewrite rev_app_distr.
  assert (Hskip : NodePath.skip NodePath.is_slash (rev t ++ rev k) = rev t ++ rev k).
  { rewrite <- no_slash_rev in Hns.
    destruct (rev t) as [|c r] eqn:E.
    - apply (f_equal (@length ascii)) in E. rewrite length_rev in E.
      destruct t; [contradiction | discriminate].
    - simpl in Hns. apply andb_true_iff in Hns as [Hc _]. simpl.
      destruct (NodePath.is_slash c); [discriminate | reflexivity]. }
  rewrite Hskip, span_app_all by (rewrite <- no_slash_rev in Hns; exact Hns).
  rewrite rev_app_distr, rev_involutive. reflexivity.
Qed.

Lemma extname_last_component (p : str) :
  NodePath.extname p = NodePath.extname (NodePath.last_component p).
Proof.
  unfold NodePath.extname.
  rewrite (last_component_id (NodePath.last_component p))
    by apply last_component_no_slash.
  reflexivity.
Qed.

(** A component that is only a dot and an extension has no extension. *)
Lemma extname_dotfile (e : str) :
  no_slash e = true -> forallb (fun c => negb (NodePath.is_dot c)) e = true ->
  NodePath.extname ("."%char :: e) = [].
Proof.
  intros Hns Hdots. unfold NodePath.extname.
  rewrite last_component_id by exact Hns.
  change (rev ("."%char :: e)) with (rev e ++ ["."%char]).
  rewrite skip_app_stop by (rewrite ?forallb_rev; auto). reflexivity.
Qed.

(** A name that ends, letter case apart, with a dot and an extension
    [e]: either its last component is just that, and [path.extname]
    finds no extension, or [path.extname] finds that extension. *)
Lemma extname_of_suffix (name k' e' : str) :
  e' <> [] -> no_slash e' = true ->
  forallb (fun c => negb (NodePath.is_dot c)) e' = true ->
  toLowerCase name = k' ++ "."%char :: e' ->
  (toLowerCase (NodePath.basename name) = "."%char :: e' /\ NodePath.extname name = []) \/
  (exists c, c <> [] /\
     toLowerCase (NodePath.basename name) = c ++ "."%char :: e' /\
     toLowerCase (NodePath.extname name) = "."%char :: e').
Proof.
  intros Hne Hns Hdots Hlow. unfold toLowerCase in Hlow.
  apply map_eq_app in Hlow as (k & x & -> & _ & Hx).
  destruct x as [|c0 e]; [discriminate|]. simpl in Hx. injection Hx as Hc0 He.
  assert (c0 = "."%char) as ->.
  { apply Ascii.eqb_eq. change (NodePath.is_dot c0 = true).
    rewrite <- lower_char_dot, Hc0. reflexivity. }
  assert (Hns_e : no_slash e = true).
  { rewrite <- toLowerCase_no_slash. unfold toLowerCase. rewrite He. exact Hns. }
  assert (Hdots_e : forallb (fun c => negb (NodePath.is_dot c)) e = true).
  { rewrite <- toLowerCase_no_dot. unfold toLowerCase. rewrite He. exact Hdots. }
  assert (Hne_e : e <> []) by (intros ->; apply Hne; symmetry; exact He).
  unfold NodePath.basename. rewrite extname_last_component.
  rewrite (last_component_app k ("."%char :: e)) by (try discriminate; exact Hns_e).
  destruct (rev (NodePath.span _ (rev k))) as [|y c] eqn:Ec.
  - left. simpl app. split.
    + change (lower_char "."%char :: toLowerCase e = "."%char :: e').
      unfold toLowerCase. rewrite He. reflexivity.
    + apply extname_dotfile; assumption.
  - right. exists (toLowerCase (y :: c)). split; [discriminate|].
    assert (Hns_c : no_slash (y :: c) = true).
    { rewrite <- Ec, no_slash_rev. apply span_not_slash. }
    rewrite extname_stem_ext by (try discriminate; assumption).
    rewrite toLowerCase_app.
    change (toLowerCase ("."%char :: e)) with ("."%char :: map lower_char e).
    rewrite He. split; reflexivity.
Qed.

(** X4.  The upload filter and the dispatch of [optimiseFile] on the
    extension disagree on one kind of name only.  For a name that the
    filter accepts, [optimiseFile] finds no plugin, and throws
    'Unsupported file type', exactly when the last path component of the
    name is nothing but the extension (".png", ".JPG", ...); for every
    other accepted name it uses pngquant when the name ends in ".png",
    letter case apart, and mozjpeg otherwise. *)
Theorem filter_and_codec_dispatch (name : str) :
  allowed name = true ->
  let ext := toLowerCase (NodePath.extname name) in
  let base := toLowerCase (NodePath.basename name) in
  let bare := In base [lit ".png"; lit ".jpg"; lit ".jpeg"] in
  (bare -> select_plugin ext = None) /\
  (~ bare ->
     select_plugin ext
     = Some (if NodePath.endsWith (toLowerCase name) (lit ".png") then Pngquant
             else Mozjpeg)).
Proof.
  unfold allowed. intros H. cbv zeta.
  assert (Hcases : exists k' e',
            toLowerCase name = k' ++ "."%char :: e' /\
            In e' [lit "png"; lit "jpg"; lit "jpeg"]).
  { apply orb_true_iff in H as [H|H]; [apply orb_true_iff in H as [H|H]|];
      apply endsWith_app in H as [k' Hk]; exists k'; eexists; (split; [exact Hk|]);
      simpl; auto. }
  destruct Hcases as (k' & e' & Hlow & He').
  assert (Hpng : NodePath.endsWith (toLowerCase name) (lit ".png")
                 = if NodePath.str_eqb e' (lit "png") then true else false).
  { rewrite Hlow. unfold NodePath.endsWith. rewrite rev_app_distr.
    destruct He' as [<-|[<-|[<-|[]]]]; simpl; try reflexivity.
    destruct (rev k'); reflexivity. }
  assert (Hfacts : e' <> [] /\ no_slash e' = true /\
                   forallb (fun c => negb (NodePath.is_dot c)) e' = true).
  { destruct He' as [<-|[<-|[<-|[]]]]; repeat split; discriminate. }
  destruct Hfacts as (Hne & Hns & Hdots).
  destruct (extname_of_suffix name k' e' Hne Hns Hdots Hlow)
    as [[Hbase Hext] | (c & Hc & Hbase & Hext)]; rewrite Hbase, Hext.
  - split; [reflexivity|]. intros Hnot. exfalso. apply Hnot.
    destruct He' as [<-|[<-|[<-|[]]]]; simpl; auto.
  - split.
    + intros Hin. exfalso. destruct c as [|c0 c]; [contradiction|].
      destruct He' as [<-|[<-|[<-|[]]]]; simpl in Hin;
        destruct Hin as [Hin|[Hin|[Hin|[]]]];
        do 6 (try (destruct c as [|? c]; simpl in Hin; try congruence)).
    + intros _. rewrite Hpng.
      destruct He' as [<-|[<-|[<-|[]]]]; reflexivity.
Qed.

(** ** What the cleanup job removes *)

(** What the loop removes was listed, was a regular file, and was past
    the threshold. *)
Lemma clean_entries_exact (now : Z) (dir : str) (es : list Dirent) (fs : FS) (q : str) :
  (clean_entries now dir es fs).1 !! q = fs !! q \/
  ((clean_entries now dir es fs).1 !! q = None /\
   exists e m d, e ∈ es /\ q = NodePath.join [dir; dirent_name e] /\
                 fs !! q = Some (File m d) /\ CLEANUP_AFTER_MS < now - m).
Proof.
  revert fs. induction es as [|e es IH]; intros fs; simpl; [left; reflexivity|].
  assert (Hrest : forall fs',
            (clean_entries now dir es fs').1 !! q = fs' !! q \/
            ((clean_entries now dir es fs').1 !! q = None /\
             exists e' m d, e' ∈ e :: es /\ q = NodePath.join [dir; dirent_name e'] /\
                            fs' !! q = Some (File m d) /\ CLEANUP_AFTER_MS < now - m)).
  { intros fs'. destruct (IH fs') as [E | (E & e' & m & d & Hin & Hrest)]; [left; exact E|].
    right. split; [exact E|]. exists e', m, d. split; [right; exact Hin | exact Hrest]. }
  destruct (dirent_isFile e); simpl; [|apply Hrest].
  set (filePath := NodePath.join [dir; dirent_name e]).
  unfold fs_stat. destruct (fs !! filePath) as [[m0 d0|m0]|] eqn:Ef; simpl;
    [| |left; reflexivity].
  - destruct (CLEANUP_AFTER_MS <? now - m0) eqn:Eexp; [|apply Hrest].
    apply Z.ltb_lt in Eexp.
    pose proof (safeUnlink_lookup fs filePath q) as H1.
    destruct (safeUnlink fs filePath) as [fs1 l1]. simpl in H1.
    specialize (Hrest fs1). destruct (clean_entries now dir es fs1) as [fs2 l2].
    simpl in *.
    destruct Hrest as [E | (E & e' & m & d & Hin & Hq & Hf & Hexp)].
    + rewrite E, H1. destruct (fs !! q) as [[m d|m]|] eqn:Eq; auto.
      destruct (decide (filePath = q)) as [<-|Hne]; [|left; reflexivity].
      right. split; [reflexivity|]. exists e, m0, d0.
      split; [left|]; auto. split; [reflexivity|]. split; [|exact Eexp]. congruence.
    + right. split; [exact E|]. exists e', m, d. split; [exact Hin|]. split; [exact Hq|].
      split; [|exact Hexp]. rewrite H1 in Hf.
      destruct (fs !! q) as [[m' d'|m']|]; try discriminate.
      destruct (decide (filePath = q)); [discriminate | exact Hf].
  - destruct (CLEANUP_AFTER_MS <? now - m0); [|apply Hrest].
    pose proof (safeUnlink_lookup fs filePath q) as H1.
    destruct (safeUnlink fs filePath) as [fs1 l1]. simpl in H1.
    specialize (Hrest fs1). destruct (clean_entries now dir es fs1) as [fs2 l2].
    simpl in *.
    assert (Hsame : fs1 !! q = fs !! q).
    { rewrite H1. destruct (fs !! q) as [[m d|m]|] eqn:Eq; try reflexivity.
      destruct (decide (filePath = q)) as [<-|Hne]; [congruence | reflexivity]. }
    rewrite Hsame in Hrest. exact Hrest.
Qed.

(** The same for one folder whose children are joined as expected. *)
Lemma cleanFolder_exact (now : Z) (dir : str) (fs : FS) (q : str) :
  (forall name, proper_segment name = true ->
     NodePath.join [dir; name] = dir ++ "/"%char :: name) ->
  (cleanFolder now dir fs).1 !! q = fs !! q \/
  ((cleanFolder now dir fs).1 !! q = None /\
   exists name m d, proper_segment name = true /\ q = dir ++ "/"%char :: name /\
                    fs !! q = Some (File m d) /\ CLEANUP_AFTER_MS < now - m).
Proof.
  intros child_path. unfold cleanFolder, fs_readdir.
  destruct (fs !! dir) as [[m0 d0|m0]|]; simpl; try (left; reflexivity).
  destruct (clean_entries_exact now dir (omap (child_of dir) (map_to_list fs)) fs q)
    as [E | (E & e & m & d & Hin & Hq & Hf & Hexp)]; [left; exact E|].
  right. split; [exact E|].
  destruct (readdir_entries dir fs e Hin) as (Hp & _).
  exists (dirent_name e), m, d. rewrite <- (child_path _ Hp). auto.
Qed.

Lemma sweep_exact (now : Z) (fs : FS) (q : str) :
  (sweep now fs).1 !! q = fs !! q \/
  ((sweep now fs).1 !! q = None /\ expired_file now fs q).
Proof.
  unfold sweep.
  pose proof (cleanFolder_exact now UPLOAD_DIR fs q join_upload_child) as H1.
  destruct (cleanFolder now UPLOAD_DIR fs) as [fs1 l1].
  pose proof (cleanFolder_exact now OPTIMIZED_DIR fs1 q join_optimized_child) as H2.
  destruct (cleanFolder now OPTIMIZED_DIR fs1) as [fs2 l2]. simpl in *.
  destruct H2 as [E2 | (E2 & name & m & d & Hp & Hq & Hf & Hexp)].
  - rewrite E2. destruct H1 as [E1 | (E1 & name & m & d & Hp & Hq & Hf & Hexp)];
      [left; exact E1|].
    right. split; [exact E1|]. exists name, m, d. auto.
  - right. split; [exact E2|]. exists name, m, d.
    destruct H1 as [E1 | (E1 & _)]; [|congruence].
    rewrite <- E1. auto.
Qed.

(** X5.  The cleanup job changes the filesystem in one way only: it
    removes regular files that are directly in the incoming or the
    outgoing directory and whose age is more than five minutes.  A file
    that is exactly five minutes old or younger, a directory, an entry of
    a subdirectory and every path outside the two directories are as
    they were. *)
Theorem sweep_removes_only_expired (now : Z) (fs : FS) (q : str) :
  let fs' := (sweep now fs).1 in
  (fs' !! q = fs !! q \/ (fs' !! q = None /\ expired_file now fs q)) /\
  (forall m d, fs !! q = Some (File m d) -> now - m <= CLEANUP_AFTER_MS ->
     fs' !! q = Some (File m d)) /\
  (forall m, fs !! q = Some (Dir m) -> fs' !! q = Some (Dir m)) /\
  (fs !! q = None -> fs' !! q = None) /\
  (NodePath.startsWith q (UPLOAD_DIR ++ lit "/") = false ->
   NodePath.startsWith q (OPTIMIZED_DIR ++ lit "/") = false -> fs' !! q = fs !! q).
Proof.
  cbv zeta. pose proof (sweep_exact now fs q) as H.
  split; [exact H|]. split; [|split; [|split]].
  - intros m d Hf Hrecent. destruct H as [E | (_ & name & m' & d' & _ & _ & Hf' & Hexp)].
    + rewrite E. exact Hf.
    + rewrite Hf in Hf'. injection Hf' as <- <-. lia.
  - intros m Hf. destruct H as [E | (_ & name & m' & d' & _ & _ & Hf' & _)].
    + rewrite E. exact Hf.
    + congruence.
  - intros Hf. destruct H as [E | (E & _)]; congruence.
  - intros Hu Ho. destruct H as [E | (_ & name & m' & d' & _ & [-> | ->] & _)];
      [exact E | exfalso..].
    + change (UPLOAD_DIR ++ "/"%char :: name) with (UPLOAD_DIR ++ lit "/" ++ name) in Hu.
      rewrite app_assoc, startsWith_self_app in Hu. discriminate.
    + change (OPTIMIZED_DIR ++ "/"%char :: name)
        with (OPTIMIZED_DIR ++ lit "/" ++ name) in Ho.
      rewrite app_assoc, startsWith_self_app in Ho. discriminate.
Qed.

(** Each directory is cleaned on its own account. *)
Lemma sweep_expired_gone (now mdir : Z) (fs : FS) (name : str) (m : Z)
    (d : Buffer) :
  proper_segment name = true -> CLEANUP_AFTER_MS < now - m ->
  (fs !! UPLOAD_DIR = Some (Dir mdir) ->
   fs !! (UPLOAD_DIR ++ "/"%char :: name) = Some (File m d) ->
   (sweep now fs).1 !! (UPLOAD_DIR ++ "/"%char :: name) = None) /\
  (fs !! OPTIMIZED_DIR = Some (Dir mdir) ->
   fs !! (OPTIMIZED_DIR ++ "/"%char :: name) = Some (File m d) ->
   (sweep now fs).1 !! (OPTIMIZED_DIR ++ "/"%char :: name) = None) /\
  (fs !! UPLOAD_DIR = None ->
   exists l, (sweep now fs).2 = WarnCleanupError UPLOAD_DIR ENOENT :: l).
Proof.
  intros Hp Hexp. apply Z.ltb_lt in Hexp. unfold sweep.
  pose proof (cleanFolder_only_removes now UPLOAD_DIR fs) as H1.
  pose proof (fun m1 => cleanFolder_settles UPLOAD_DIR join_upload_child now m1 fs) as S1.
  assert (Hmissing : fs !! UPLOAD_DIR = None ->
            (cleanFolder now UPLOAD_DIR fs).2 = [WarnCleanupError UPLOAD_DIR ENOENT]).
  { intros E. unfold cleanFolder, fs_readdir. rewrite E. reflexivity. }
  destruct (cleanFolder now UPLOAD_DIR fs) as [fs1 l1].
  pose proof (cleanFolder_only_removes now OPTIMIZED_DIR fs1) as H2.
  pose proof (fun m2 => cleanFolder_settles OPTIMIZED_DIR join_optimized_child now m2 fs1)
    as S2.
  destruct (cleanFolder now OPTIMIZED_DIR fs1) as [fs2 l2]. simpl in *.
  split; [|split].
  - intros Hdir Hf. set (q := UPLOAD_DIR ++ "/"%char :: name) in *.
    destruct (H2 q) as [E2 | [E2 _]]; [|exact E2]. rewrite E2.
    destruct (H1 q) as [E1 | [E1 _]]; [|exact E1]. exfalso.
    rewrite Hf in E1. specialize (S1 mdir Hdir name m d Hp E1). congruence.
  - intros Hdir Hf. set (q := OPTIMIZED_DIR ++ "/"%char :: name) in *.
    pose proof (only_removes_dir _ _ _ _ H1 Hdir) as Hdir1.
    destruct (H2 q) as [E2 | [E2 _]]; [|exact E2].
    destruct (H1 q) as [E1 | [E1 _]]; [exfalso | rewrite E2; exact E1].
    rewrite Hf in E1. rewrite E1 in E2.
    specialize (S2 mdir Hdir1 name m d Hp E2). congruence.
  - intros E. rewrite (Hmissing E). simpl. eauto.
Qed.

(** X6.  Each directory is cleaned on its own account.  When the
    incoming directory exists, every regular file directly in it that is
    more than five minutes old is gone after the job, whether or not the
    outgoing directory can be listed; and the same with the two
    directories exchanged.  A directory that is missing only produces a
    warning for that directory. *)
Theorem sweep_cleans_each_directory (now mdir : Z) (fs : FS) (name : str) (m : Z)
    (d : Buffer) :
  proper_segment name = true -> CLEANUP_AFTER_MS < now - m ->
  (fs !! UPLOAD_DIR = Some (Dir mdir) ->
   fs !! (UPLOAD_DIR ++ "/"%char :: name) = Some (File m d) ->
   (sweep now fs).1 !! (UPLOAD_DIR ++ "/"%char :: name) = None) /\
  (fs !! OPTIMIZED_DIR = Some (Dir mdir) ->
   fs !! (OPTIMIZED_DIR ++ "/"%char :: name) = Some (File m d) ->
   (sweep now fs).1 !! (OPTIMIZED_DIR ++ "/"%char :: name) = None) /\
  (fs !! UPLOAD_DIR = None ->
   exists l, (sweep now fs).2 = WarnCleanupError UPLOAD_DIR ENOENT :: l).
Proof. apply sweep_expired_gone. Qed.


(** *** The log of the job *)





(** ** The intake on batches within the limits *)

(** With no error, [req.files] holds the file object of every part, in
    the order of the parts. *)
Lemma multer_receive_stored (parts : list Part) (stored0 stored : list MulterFile)
    (fs fs' : FS) :
  multer_receive parts stored0 fs = (None, stored, fs') ->
  stored = stored0 ++ (stored_file <$> parts).
Proof.
  revert stored0 fs. induction parts as [|part parts IH]; intros stored0 fs.
  { simpl. intros [= <- _]. symmetry. apply app_nil_r. }
  rewrite multer_receive_cons. cbv zeta.
  destruct (Nat.leb MAX_FILES (length stored0)); [discriminate|].
  destruct (negb (NodePath.str_eqb (part_fieldname part) (lit "images")));
    [discriminate|].
  destruct (negb (allowed (part_originalname part))); [discriminate|].
  destruct (fs_writeFile _ _ _ _) as [code|fs1]; [discriminate|].
  destruct (MAX_TOTAL_SIZE <? _); [discriminate|].
  intros Hrec. apply IH in Hrec. rewrite Hrec, <- app_assoc. reflexivity.
Qed.

(** Multer lets through every batch within its limits. *)
Lemma multer_receive_accepts (parts : list Part) (stored0 : list MulterFile) (fs : FS) :
  (length stored0 + length parts <= MAX_FILES)%nat ->
  Forall (fun p => part_fieldname p = lit "images" /\
                   allowed (part_originalname p) = true /\
                   byteLength (part_data p) <= MAX_TOTAL_SIZE) parts ->
  (forall p m, p ∈ parts -> fs !! file_path (stored_file p) <> Some (Dir m)) ->
  exists fs', multer_receive parts stored0 fs
              = (None, stored0 ++ (stored_file <$> parts), fs').
Proof.
  revert stored0 fs. induction parts as [|part parts IH]; intros stored0 fs Hlen Hall Hdir.
  { exists fs. simpl. rewrite app_nil_r. reflexivity. }
  apply Forall_cons in Hall as [(Hfield & Hallowed & Hsize) Hall].
  rewrite multer_receive_cons. cbv zeta.
  assert (Ecount : Nat.leb MAX_FILES (length stored0) = false)
    by (apply Nat.leb_gt; simpl in Hlen; lia).
  rewrite Ecount, Hfield, str_eqb_refl, Hallowed. simpl negb. cbv iota.
  destruct (fs_writeFile _ _ _ _) as [code|fs1] eqn:Ew.
  { exfalso. apply fs_writeFile_inl in Ew as [m Hm].
    apply (Hdir part m); [left | exact Hm]. }
  apply fs_writeFile_inr in Ew.
  assert (Esize : (MAX_TOTAL_SIZE <? byteLength (part_data part)) = false)
    by (apply Z.ltb_ge; exact Hsize).
  change (file_size _) with (byteLength (part_data part)). rewrite Esize.
  destruct (IH (stored0 ++ [stored_file part]) fs1) as [fs' Hrec].
  - rewrite length_app. simpl in *. lia.
  - exact Hall.
  - intros p m Hp. rewrite Ew.
    destruct (decide (file_path (stored_file part) = file_path (stored_file p)))
      as [E|Hne].
    + rewrite <- E. change (file_path (stored_file part)) with
        (NodePath.join [UPLOAD_DIR; storage_filename (part_originalname part)
                                      (part_now part) (part_random part)]).
      rewrite lookup_insert_eq. discriminate.
    + rewrite lookup_insert_ne by exact Hne. apply Hdir. right. exact Hp.
  - exists fs'. rewrite fmap_cons.
    change (stored0 ++ stored_file part :: (stored_file <$> parts))
      with (stored0 ++ [stored_file part] ++ (stored_file <$> parts)).
    rewrite app_assoc. exact Hrec.
Qed.

(** No part is larger than the batch when no size is negative. *)
Lemma size_le_aggregate (parts : list Part) (p : Part) :
  Forall (fun p => 0 <= byteLength (part_data p)) parts -> p ∈ parts ->
  byteLength (part_data p) <= aggregate_size parts.
Proof.
  unfold aggregate_size. intros Hall Hin.
  assert (H : forall a,
            a <= fold_left (fun acc p => acc + byteLength (part_data p)) parts a /\
            a + byteLength (part_data p)
            <= fold_left (fun acc p => acc + byteLength (part_data p)) parts a).
  { induction parts as [|x parts IH]; [apply elem_of_nil in Hin; contradiction|].
    apply Forall_cons in Hall as [Hx Hall]. intros a. simpl.
    assert (Hmono : forall b,
              b <= fold_left (fun acc p => acc + byteLength (part_data p)) parts b).
    { clear -Hall. induction parts as [|y parts IH]; intros b; [simpl; lia|].
      apply Forall_cons in Hall as [Hy Hall]. simpl.
      specialize (IH Hall (b + byteLength (part_data y))). lia. }
    apply elem_of_cons in Hin as [-> | Hin].
    - specialize (Hmono (a + byteLength (part_data x))). lia.
    - destruct (IH Hall Hin (a + byteLength (part_data x))) as [H1 H2]. lia. }
  destruct (H 0) as [_ H2]. lia.
Qed.

(** [Promise.all] on a batch that has just been started. *)
Lemma promise_all_start (files : list MulterFile) (fs : FS) :
  promise_all (processFiles files (Some 6%nat) fs)
  = match files with [] => Some (Fulfilled []) | _ => None end.
Proof.
  unfold promise_all, processFiles, pool_start. simpl.
  destruct files as [|f files]; reflexivity.
Qed.

(** X7.  The intake is not stricter than its limits.  A batch of at most
    twenty files sent under the field 'images', each with an accepted
    name, of at most 100 MiB in all, is stored whole and handed to
    [processFiles]: [req.files] holds one file object per part, in order,
    and no 400 is sent.  A batch of exactly twenty files or of exactly
    100 MiB passes.  The only batch that is answered at once is the empty
    one, with an empty list and no archive. *)
Theorem intake_accepts_within_limits (random : list Byte.byte) (now : Z)
    (parts : list Part) (fs : FS) :
  (length parts <= MAX_FILES)%nat ->
  Forall (fun p => part_fieldname p = lit "images" /\
                   allowed (part_originalname p) = true /\
                   0 <= byteLength (part_data p)) parts ->
  aggregate_size parts <= MAX_TOTAL_SIZE ->
  (forall p m, p ∈ parts -> fs !! file_path (stored_file p) <> Some (Dir m)) ->
  let r := post_upload random now parts fs in
  req_files r = stored_file <$> parts /\
  req_response r
  = match parts with
    | [] => Some (Json200 {| payload_files := []; payload_zip := None |})
    | _ => None
    end /\
  length (pool_active (req_pool r)) = Nat.min (length parts) 6 /\
  pool_queue (req_pool r) = seq 6 (length parts - 6).
Proof.
  intros Hlen Hall Hsize Hdir. cbv zeta.
  assert (Hall' : Forall (fun p => part_fieldname p = lit "images" /\
                                   allowed (part_originalname p) = true /\
                                   byteLength (part_data p) <= MAX_TOTAL_SIZE) parts).
  { rewrite Forall_forall. intros p Hp.
    rewrite Forall_forall in Hall. destruct (Hall p Hp) as (H1 & H2 & _).
    split; [exact H1|]. split; [exact H2|].
    pose proof (size_le_aggregate parts p) as Hle.
    etransitivity; [apply Hle|exact Hsize]; [|exact Hp].
    rewrite Forall_forall. intros x Hx. apply (Hall x Hx). }
  destruct (multer_receive_accepts parts [] fs Hlen Hall' Hdir) as [fs1 Hm].
  simpl app in Hm.
  unfold post_upload, upload. rewrite Hm.
  rewrite (total_size_accepted _ _ _ _ Hm).
  assert (Hlt : (MAX_TOTAL_SIZE <? aggregate_size parts) = false)
    by (apply Z.ltb_ge; exact Hsize).
  rewrite Hlt. unfold resume. simpl req_response. cbv iota.
  simpl req_pool. rewrite promise_all_start.
  destruct parts as [|p parts]; [simpl; auto|].
  rewrite fmap_cons. simpl. split; [reflexivity|]. split; [reflexivity|].
  rewrite length_fmap, length_take, length_seq, length_fmap.
  split; [lia|]. rewrite drop_seq. f_equal; lia.
Qed.

(** X8.  Removing the files of a batch, as the two failure paths do,
    leaves no listed path with a regular file, changes no other path,
    never removes a directory, and changes nothing when it is done a
    second time. *)
Theorem unlink_all_exact (files : list MulterFile) (fs : FS) :
  let fs' := (unlink_all files fs).1 in
  (forall f, f ∈ files -> forall m d, fs' !! file_path f <> Some (File m d)) /\
  (forall q, q ∉ file_path <$> files -> fs' !! q = fs !! q) /\
  (forall q m, fs !! q = Some (Dir m) -> fs' !! q = Some (Dir m)) /\
  (forall q, fs !! q = None -> fs' !! q = None) /\
  (unlink_all files fs').1 = fs'.
Proof.
  cbv zeta. split; [|split; [|split; [|split]]].
  - intros f Hf m d. rewrite unlink_all_lookup.
    destruct (fs !! file_path f) as [[m' d'|m']|]; try discriminate.
    rewrite decide_True; [discriminate|]. apply list_elem_of_fmap. eauto.
  - apply unlink_all_other.
  - intros q m H. rewrite unlink_all_lookup, H. reflexivity.
  - apply unlink_all_removes_absent.
  - apply map_eq. intros q. rewrite (unlink_all_lookup files (unlink_all files fs).1).
    rewrite unlink_all_lookup.
    destruct (fs !! q) as [[m d|m]|]; try reflexivity.
    destruct (decide (q ∈ file_path <$> files)) as [Hin|Hnin]; reflexivity.
Qed.

(** X9.  [optimiseFile] on its own.  It fulfils only when the original
    can be read, its lower-cased extension selects a plugin and the codec
    succeeds; it has then written one file and nothing else, the codec's
    output under the derived name in [outDir], and the sizes it reports
    are those of the buffer it read and of the buffer it wrote.  When it
    rejects it has written nothing, and the reason tells the step that
    failed. *)
Theorem optimiseFile_outcome (now : Z) (fs : FS) (file : MulterFile) (outDir : str) :
  let ext := toLowerCase (NodePath.extname (file_originalname file)) in
  let out := NodePath.join [outDir; optimizedName (file_originalname file)] in
  match optimiseFile now fs file outDir with
  | (Fulfilled m, fs') =>
      exists m0 b pl ob,
        fs !! file_path file = Some (File m0 b) /\
        select_plugin ext = Some pl /\
        imagemin_buffer pl b = Some ob /\
        m = {| meta_filename := file_filename file;
               originalName := file_originalname file;
               optimizedPath := out;
               sizeBefore := byteLength b;
               sizeAfter := byteLength ob |} /\
        fs' = <[out := File now ob]> fs
  | (Rejected reason, fs') =>
      fs' = fs /\
      match reason with
      | FsError ENOENT => fs !! file_path file = None
      | FsError EISDIR =>
          (exists m, fs !! file_path file = Some (Dir m)) \/
          (exists m, fs !! out = Some (Dir m))
      | UnsupportedFileType =>
          (exists m0 b, fs !! file_path file = Some (File m0 b)) /\
          select_plugin ext = None
      | CodecError =>
          exists m0 b pl, fs !! file_path file = Some (File m0 b) /\
                          select_plugin ext = Some pl /\ imagemin_buffer pl b = None
      | _ => False
      end
  end.
Proof.
  cbv zeta. unfold optimiseFile.
  unfold optimiseFile_step at 1. unfold fs_readFile.
  destruct (fs !! file_path file) as [[m0 b|m0]|] eqn:Ef.
  - destruct (select_plugin _) as [pl|] eqn:Ep.
    + unfold optimiseFile_step at 1.
      destruct (imagemin_buffer pl b) as [ob|] eqn:Ec.
      * unfold optimiseFile_step. unfold fs_writeFile.
        destruct (fs !! NodePath.join _) as [[m1 d1|m1]|] eqn:Eo.
        -- exists m0, b, pl, ob. auto.
        -- split; [reflexivity|]. right. eauto.
        -- exists m0, b, pl, ob. auto.
      * split; [reflexivity|]. exists m0, b, pl. auto.
    + split; [reflexivity|]. split; [eauto | reflexivity].
  - split; [reflexivity|]. left. eauto.
  - split; reflexivity.
Qed.

(** ** The answer of a request and the state it is sent in *)

(** The slot behind a value of a fulfilled [Promise.all]. *)
Lemma promise_all_slot (p : pool) (results : list Meta) (i : nat) (m : Meta) :
  promise_all p = Some (Fulfilled results) -> results !! i = Some m ->
  pool_slots p !! i = Some (Some (Fulfilled m)).
Proof.
  unfold promise_all. destruct (pool_rejected p); [discriminate|].
  destruct (mapM fulfilled_value (pool_slots p)) as [rs|] eqn:Em; [|discriminate].
  intros [= ->] Hm. apply mapM_Some_1 in Em.
  destruct (Forall2_lookup_r _ _ _ _ _ Em Hm) as (s & Hs & Hv).
  rewrite Hs. unfold fulfilled_value in Hv. destruct s as [[m'|r]|]; congruence.
Qed.

(** The outputs reported so far stay on disk through an event. *)
Lemma pool_step_outputs (files : list MulterFile) (outDir : str) (t : tick) (p : pool) :
  outputs_present p -> outputs_present (pool_step files outDir t p).
Proof.
  intros Hout j m Hslot.
  destruct (pool_step_cases files outDir t p)
    as [[E _] | (pre & i & ph & post & file & Ha & Hf &
                 [(ph' & fs' & Hs & E) | (o & fs' & Hs & E)])].
  - rewrite E in *. apply (Hout j m Hslot).
  - apply pool_step_keeps. rewrite E in Hslot. simpl in Hslot. apply (Hout j m Hslot).
  - rewrite E in Hslot. simpl in Hslot.
    apply list_lookup_insert_Some in Hslot as [(-> & Ho & _) | (_ & Hslot)].
    + injection Ho as ->. rewrite E. simpl.
      apply optimiseFile_step_fulfilled in Hs as (_ & b & ob & _ & ->).
      rewrite lookup_insert_eq. eauto.
    + apply pool_step_keeps. apply (Hout j m Hslot).
Qed.

(** What [createZip] has done when it fulfils. *)
Lemma createZip_fulfilled (random : list Byte.byte) (now : Z) (fs fs' : FS)
    (filePaths : list str) (zipName : str) :
  createZip random now fs filePaths = (Fulfilled zipName, fs') ->
  zipName = zip_name random /\
  fs' = <[OPTIMIZED_DIR ++ "/"%char :: zip_name random
          := File now (archive_written
                         (archiver fs (map (fun fp => (fp, NodePath.basename fp))
                                           filePaths)))]> fs /\
  archive_failed (archiver fs (map (fun fp => (fp, NodePath.basename fp)) filePaths))
  = false.
Proof.
  unfold createZip. rewrite zip_path_eq.
  destruct (fs_writeFile now fs _ _) as [code|fs1] eqn:Ew; [discriminate|].
  apply fs_writeFile_inr in Ew.
  destruct (archive_failed _) eqn:Ef; [discriminate|].
  intros [= <- <-]. auto.
Qed.

(** The state in which the handler looks at [processFiles] again after
    an event. *)
Lemma request_event_pre (r : request) (t : tick) :
  req_inv r ->
  req_pre {| req_files := req_files r;
             req_pool := pool_step (req_files r) OPTIMIZED_DIR t (req_pool r);
             req_response := req_response r;
             req_log := req_log r |}.
Proof.
  intros [[P1 P2 P3 P4 P5 P6] Hpending].
  assert (Hframe : forall f, f ∈ req_files r ->
            pool_fs (pool_step (req_files r) OPTIMIZED_DIR t (req_pool r)) !! file_path f
            = pool_fs (req_pool r) !! file_path f).
  { intros f Hf. apply pool_step_frame. intros x. apply staged_not_optimized.
    rewrite Forall_forall in P1. apply P1. exact Hf. }
  assert (Hquiet : forall resp, req_response r = Some resp -> resp <> failure_response ->
            pool_step (req_files r) OPTIMIZED_DIR t (req_pool r) = req_pool r).
  { intros resp Hr Hne. apply pool_step_idle. apply (P5 resp Hr Hne). }
  split; simpl.
  - exact P1.
  - apply pool_step_inv. exact P2.
  - intros Hr f Hf. rewrite Hframe by exact Hf. apply (P3 Hr f Hf).
  - intros resp Hr Hrej.
    destruct (failure_response_dec resp) as [->|Hne]; [reflexivity|].
    rewrite (Hquiet resp Hr Hne) in Hrej. apply (P4 resp Hr Hrej).
  - intros resp Hr Hne. rewrite (Hquiet resp Hr Hne). apply (P5 resp Hr Hne).
  - intros Hr f Hf. rewrite Hframe by exact Hf. apply (P6 Hr f Hf).
Qed.

(** The [catch] block keeps the reported outputs. *)
Lemma on_processing_error_outputs (reason : error) (r : request) :
  Forall staged (req_files r) ->
  pool_inv (req_files r) OPTIMIZED_DIR 6 (req_pool r) ->
  outputs_present (req_pool r) ->
  outputs_present (req_pool (on_processing_error reason r)).
Proof.
  intros Hst Hinv Hout j m Hslot.
  assert (Hslot' : pool_slots (req_pool r) !! j = Some (Some (Fulfilled m))).
  { revert Hslot. unfold on_processing_error. destruct (unlink_all _ _). simpl. auto. }
  destruct Hinv as [_ _ _ _ _ _ _ _ I9].
  destruct (I9 j m Hslot') as (file & _ & _ & _ & Hpath).
  rewrite on_processing_error_outgoing.
  - apply (Hout j m Hslot').
  - exact Hst.
  - rewrite Hpath, join_optimized_child by apply optimizedName_proper.
    change (OPTIMIZED_DIR ++ "/"%char :: optimizedName (file_originalname file))
      with (OPTIMIZED_DIR ++ lit "/" ++ optimizedName (file_originalname file)).
    rewrite app_assoc. apply startsWith_self_app.
Qed.

(** The handler resuming: what its answer implies. *)
Lemma resume_served (random : list Byte.byte) (now : Z) (r : request) :
  req_pre r -> outputs_present (req_pool r) ->
  (forall payload, req_response r = Some (Json200 payload) -> success_inv random r payload) ->
  req_served random (resume random now r).
Proof.
  intros Hpre Hout Hok. split; [apply resume_inv; exact Hpre|].
  pose proof Hpre as [P1 P2 P3 P4 P5 P6]. unfold resume.
  destruct (req_response r) as [resp|] eqn:Er.
  { split; [exact Hout|]. rewrite Er. exact Hok. }
  destruct (promise_all (req_pool r)) as [[processed|reason]|] eqn:Ep.
  - (* fulfilled *)
    destruct (promise_all_fulfilled _ _ _ _ _ P2 Ep) as [Hlen _].
    unfold on_processed. rewrite Hlen.
    destruct (Nat.ltb 1 (length (req_files r))) eqn:Emany.
    + pose proof (fun q => createZip_keeps random now (pool_fs (req_pool r))
                             (map optimizedPath processed) q) as Hkeep.
      destruct (createZip random now (pool_fs (req_pool r)) (map optimizedPath processed))
        as [[zipName|procErr] fs'] eqn:Ez.
      * apply createZip_fulfilled in Ez as (-> & Hfs' & _). simpl in Hkeep.
        split; [intros j m Hslot; apply Hkeep, (Hout j m Hslot)|].
        simpl. intros payload [= <-]. split; simpl.
        -- exists processed. split; [exact Ep | reflexivity].
        -- rewrite Emany. reflexivity.
        -- intros _. rewrite Hfs', lookup_insert_eq. eauto.
        -- intros f Hf. apply Hkeep. destruct (P3 eq_refl f Hf) as (m & d & ->). eauto.
      * simpl in Hkeep. split.
        -- apply on_processing_error_outputs; simpl; [exact P1 | | ].
           ++ apply pool_inv_with_fs. exact P2.
           ++ intros j m Hslot. apply Hkeep, (Hout j m Hslot).
        -- intros payload. unfold on_processing_error. simpl.
           destruct (unlink_all _ _). simpl. discriminate.
    + split; [exact Hout|]. simpl. intros payload [= <-]. split; simpl.
      * exists processed. split; [exact Ep | reflexivity].
      * rewrite Emany. reflexivity.
      * intros Hmany. apply Nat.ltb_ge in Emany. lia.
      * intros f Hf. destruct (P3 eq_refl f Hf) as (m & d & E).
        destruct (req_pool r). simpl in *. rewrite E. eauto.
  - (* rejected *)
    split; [apply on_processing_error_outputs; assumption|].
    intros payload. unfold on_processing_error. destruct (unlink_all _ _). simpl.
    discriminate.
  - split; [exact Hout|]. rewrite Er. discriminate.
Qed.

Lemma request_step_served (random : list Byte.byte) (r : request) (t : tick) :
  req_served random r -> req_served random (request_step random r t).
Proof.
  intros (Hinv & Hout & Hok). unfold request_step.
  apply resume_served.
  - apply request_event_pre. exact Hinv.
  - simpl. apply pool_step_outputs. exact Hout.
  - simpl. intros payload Hr. destruct Hinv as [[P1 P2 P3 P4 P5 P6] _].
    assert (Hquiet : pool_step (req_files r) OPTIMIZED_DIR t (req_pool r) = req_pool r).
    { apply pool_step_idle. apply (P5 _ Hr). discriminate. }
    destruct (Hok payload Hr) as [S1 S2 S3 S4].
    split; simpl; rewrite ?Hquiet; assumption.
Qed.

Lemma request_run_served (random : list Byte.byte) (ticks : list tick) (r : request) :
  req_served random r -> req_served random (request_run random ticks r).
Proof.
  unfold request_run. revert r. induction ticks as [|t ticks IH]; intros r Hr; [exact Hr|].
  simpl. apply IH, request_step_served, Hr.
Qed.

(** A request is answered at the intake, or its files are the stored
    parts and it is processed. *)
Lemma post_upload_served (random : list Byte.byte) (now : Z) (parts : list Part) (fs : FS) :
  (exists e fs', req_response (post_upload random now parts fs) = Some (Json400 e) /\
                 req_pool (post_upload random now parts fs) = idle fs') \/
  (req_files (post_upload random now parts fs) = stored_file <$> parts /\
   req_served random (post_upload random now parts fs)).
Proof.
  destruct (multer_receive parts [] fs) as [[[e|] stored] fs1] eqn:Hm.
  { left. rewrite (post_upload_multer_error _ _ _ _ _ _ _ Hm). simpl. eauto. }
  destruct (Z.ltb_spec MAX_TOTAL_SIZE (aggregate_size parts)) as [Hbig|Hsmall].
  { left. rewrite (post_upload_oversize _ _ _ _ _ _ Hm Hbig). simpl. eauto. }
  right. unfold post_upload, upload. rewrite Hm.
  rewrite (total_size_accepted _ _ _ _ Hm).
  assert (Hlt : (MAX_TOTAL_SIZE <? aggregate_size parts) = false)
    by (apply Z.ltb_ge; exact Hsmall).
  rewrite Hlt. split.
  { rewrite resume_files. simpl. apply (multer_receive_stored _ _ _ _ _ Hm). }
  apply resume_served.
  - destruct (multer_receive_spec _ _ _ _ _ _ Hm) as (new & -> & Hst & Hin & _).
    simpl app in *.
    split; simpl; try discriminate.
    + exact Hst.
    + apply pool_start_inv. simpl. lia.
    + intros _ f Hf. apply Hin. exact Hf.
  - intros j m. simpl. rewrite lookup_replicate. intros [? _]. discriminate.
  - simpl. discriminate.
Qed.

Lemma request_reaches_served (random : list Byte.byte) (now : Z) (parts : list Part)
    (fs : FS) (ticks : list tick) :
  let r := request_run random ticks (post_upload random now parts fs) in
  (exists e, req_response r = Some (Json400 e)) \/
  (req_files r = stored_file <$> parts /\ req_served random r).
Proof.
  cbv zeta. destruct (post_upload_served random now parts fs)
    as [(e & fs' & He & Hp) | [Hf Hs]].
  - left. rewrite request_run_quiet; [eauto | congruence | rewrite Hp; reflexivity].
  - right. split; [rewrite request_run_files; exact Hf|].
    apply request_run_served. exact Hs.
Qed.

(** *** Every request is answered, once *)

Lemma resume_answered (random : list Byte.byte) (now : Z) (r : request) :
  req_response r <> None -> resume random now r = r.
Proof. unfold resume. destruct (req_response r); [reflexivity | contradiction]. Qed.

Lemma request_step_answered (random : list Byte.byte) (r : request) (t : tick) :
  req_response r <> None -> req_response (request_step random r t) = req_response r.
Proof. intros H. unfold request_step. rewrite resume_answered; [reflexivity | exact H]. Qed.

Lemma request_run_answered (random : list Byte.byte) (ticks : list tick) (r : request) :
  req_response r <> None -> req_response (request_run random ticks r) = req_response r.
Proof.
  unfold request_run. revert r. induction ticks as [|t ticks IH]; intros r H; [reflexivity|].
  simpl. rewrite IH; rewrite request_step_answered; auto.
Qed.

(** While the handler waits, it has changed nothing. *)
Lemma resume_pending (random : list Byte.byte) (now : Z) (r : request) :
  req_response (resume random now r) = None -> resume random now r = r.
Proof.
  unfold resume. destruct (req_response r) eqn:Er; [reflexivity|].
  destruct (promise_all (req_pool r)) as [[processed|reason]|]; [| |reflexivity].
  - unfold on_processed. destruct (Nat.ltb 1 (length processed)); [|discriminate].
    destruct (createZip _ _ _ _) as [[zipName|procErr] fs']; [discriminate|].
    unfold on_processing_error. simpl. destruct (unlink_all _ _). discriminate.
  - unfold on_processing_error. destruct (unlink_all _ _). discriminate.
Qed.

Lemma request_run_pending (random : list Byte.byte) (ticks : list tick) (r : request) :
  req_response (request_run random ticks r) = None ->
  req_pool (request_run random ticks r)
  = pool_run (req_files r) OPTIMIZED_DIR ticks (req_pool r).
Proof.
  unfold request_run, pool_run. revert r.
  induction ticks as [|t ticks IH]; intros r Hnone; [reflexivity|].
  simpl in *.
  assert (H1 : req_response (request_step random r t) = None).
  { destruct (req_response (request_step random r t)) eqn:E; [|reflexivity].
    pose proof (request_run_answered random ticks (request_step random r t)) as Hs.
    unfold request_run in Hs. rewrite Hs in Hnone by congruence. congruence. }
  rewrite IH by exact Hnone.
  unfold request_step in *. apply resume_pending in H1. rewrite H1. reflexivity.
Qed.

Lemma resume_answer (random : list Byte.byte) (now : Z) (r : request) :
  (forall resp, req_response r = Some resp -> handler_answer resp) ->
  forall resp, req_response (resume random now r) = Some resp -> handler_answer resp.
Proof.
  intros H resp. unfold resume. destruct (req_response r) eqn:Er; [rewrite Er; apply H|].
  destruct (promise_all (req_pool r)) as [[processed|reason]|]; [| |rewrite Er; discriminate].
  - unfold on_processed. destruct (Nat.ltb 1 (length processed)).
    + destruct (createZip _ _ _ _) as [[zipName|procErr] fs'].
      * simpl. intros [= <-]. exact I.
      * unfold on_processing_error. simpl. destruct (unlink_all _ _). simpl.
        intros [= <-]. reflexivity.
    + simpl. intros [= <-]. exact I.
  - unfold on_processing_error. destruct (unlink_all _ _). simpl.
    intros [= <-]. reflexivity.
Qed.

Lemma request_run_answer (random : list Byte.byte) (ticks : list tick) (r : request) :
  (forall resp, req_response r = Some resp -> handler_answer resp) ->
  forall resp, req_response (request_run random ticks r) = Some resp -> handler_answer resp.
Proof.
  unfold request_run. revert r. induction ticks as [|t ticks IH]; intros r H; [exact H|].
  simpl. apply IH. unfold request_step. apply resume_answer. exact H.
Qed.

Lemma post_upload_answer (random : list Byte.byte) (now : Z) (parts : list Part) (fs : FS)
    (resp : response) :
  req_response (post_upload random now parts fs) = Some resp -> handler_answer resp.
Proof.
  unfold post_upload. destruct (upload parts fs) as [[err|files] fs1].
  - simpl. intros [= <-]. exact I.
  - destruct (MAX_TOTAL_SIZE <? _).
    + destruct (unlink_all files fs1). simpl. intros [= <-]. exact I.
    + apply resume_answer. simpl. discriminate.
Qed.

(** X10.  Every request to [POST /upload] is answered, and once: for
    every batch, every filesystem and every order in which the awaited
    operations complete, a response has been sent by the time three
    operations per file have completed.  It is a 200 with the list, a 400
    of the intake, or the 500 "Failed to process images"; no later event
    changes it. *)
Theorem request_is_answered (random : list Byte.byte) (now : Z) (parts : list Part)
    (fs : FS) (ticks : list tick) :
  (3 * length parts <= length ticks)%nat ->
  let r := request_run random ticks (post_upload random now parts fs) in
  exists resp,
    req_response r = Some resp /\ handler_answer resp /\
    forall later, req_response (request_run random later r) = Some resp.
Proof.
  intros Hticks r.
  assert (Hsome : req_response r <> None).
  { intros Hnone.
    destruct (request_run_ok random now parts fs ticks) as [Ha | [Hpre Hpending]];
      fold r in Ha || fold r in Hpre, Hpending.
    { destruct Ha as (Hne & _). contradiction. }
    assert (H0 : req_response (post_upload random now parts fs) = None).
    { destruct (req_response (post_upload random now parts fs)) eqn:E; [|reflexivity].
      unfold r in Hnone. rewrite request_run_answered in Hnone by congruence. congruence. }
    destruct (post_upload_served random now parts fs)
      as [(e & fs' & He & _) | [Hfiles _]]; [congruence|].
    assert (Hpool : req_pool (post_upload random now parts fs)
                    = processFiles (stored_file <$> parts) (Some 6%nat)
                        (pool_fs (req_pool (post_upload random now parts fs)))).
    { revert H0 Hfiles. unfold post_upload.
      destruct (upload parts fs) as [[err|files] fs1]; [discriminate|].
      destruct (MAX_TOTAL_SIZE <? _).
      - destruct (unlink_all files fs1). discriminate.
      - intros H0 Hfiles. rewrite (resume_pending _ _ _ H0) in *. simpl in *.
        rewrite Hfiles. reflexivity. }
    pose proof (request_run_pending random ticks _ Hnone) as Hrun. fold r in Hrun.
    rewrite Hfiles, Hpool in Hrun.
    set (files := stored_file <$> parts) in *.
    set (fs1 := pool_fs (req_pool (post_upload random now parts fs))) in *.
    assert (Hinv0 : pool_inv files OPTIMIZED_DIR 6 (processFiles files (Some 6%nat) fs1))
      by (apply (pool_start_inv files OPTIMIZED_DIR 6 fs1); lia).
    assert (Hidle : pool_active (req_pool r) = []).
    { rewrite Hrun. apply (pool_run_finishes files OPTIMIZED_DIR 6); [exact Hinv0|].
      unfold processFiles. simpl default. rewrite work_start by lia.
      unfold files. rewrite length_fmap. exact Hticks. }
    assert (Hinv : pool_inv files OPTIMIZED_DIR 6 (req_pool r)).
    { rewrite Hrun. apply pool_run_inv. exact Hinv0. }
    apply (promise_all_finished files OPTIMIZED_DIR 6 (req_pool r)); try assumption; [lia|].
    apply Hpending. exact Hnone. }
  destruct (req_response r) as [resp|] eqn:Er; [|contradiction].
  exists resp. split; [reflexivity|]. split.
  - apply (request_run_answer random ticks (post_upload random now parts fs)).
    + apply post_upload_answer.
    + exact Er.
  - intros later. rewrite request_run_answered; [exact Er | congruence].
Qed.

(** *** The 200 answer *)

(** The entry of the payload for the file at one position. *)
Lemma success_entry (random : list Byte.byte) (r : request) (payload : Payload)
    (i : nat) (file : MulterFile) :
  req_served random r -> req_response r = Some (Json200 payload) ->
  req_files r !! i = Some file ->
  exists m, payload_files payload !! i = Some (payload_entry m) /\
            pool_slots (req_pool r) !! i = Some (Some (Fulfilled m)) /\
            meta_of OPTIMIZED_DIR file m.
Proof.
  intros ([[P1 P2 _ _ _ _] _] & _ & Hok) Hr Hf.
  destruct (Hok payload Hr) as [(processed & Hall & Hfiles) _ _ _].
  destruct (promise_all_fulfilled _ _ _ _ _ P2 Hall) as [_ Hvalues].
  destruct (Hvalues i file Hf) as (m & Hm & Hmeta).
  exists m. split; [|split; [|exact Hmeta]].
  - rewrite Hfiles. change (map payload_entry processed) with (payload_entry <$> processed).
    rewrite list_lookup_fmap, Hm. reflexivity.
  - apply (promise_all_slot _ _ _ _ Hall Hm).
Qed.

Lemma success_length (random : list Byte.byte) (r : request) (payload : Payload) :
  req_served random r -> req_response r = Some (Json200 payload) ->
  length (payload_files payload) = length (req_files r).
Proof.
  intros ([[P1 P2 _ _ _ _] _] & _ & Hok) Hr.
  destruct (Hok payload Hr) as [(processed & Hall & Hfiles) _ _ _].
  destruct (promise_all_fulfilled _ _ _ _ _ P2 Hall) as [Hlen _].
  rewrite Hfiles, length_map. exact Hlen.
Qed.

(** The names in the entry of a stored part. *)
Lemma entry_names (part : Part) (m : Meta) :
  meta_of OPTIMIZED_DIR (stored_file part) m ->
  let e := payload_entry m in
  let stored :=
    storage_filename (part_originalname part) (part_now part) (part_random part) in
  entry_originalName e = part_originalname part /\
  entry_optimizedName e = optimizedName (part_originalname part) /\
  downloadUrl e = lit "/download/" ++ optimizedName (part_originalname part) /\
  uploadUrl e = lit "/upload/" ++ stored /\
  optimizedPath m = OPTIMIZED_DIR ++ "/"%char :: optimizedName (part_originalname part).
Proof.
  intros (Hfn & Hon & Hpath). simpl in Hfn, Hon, Hpath. cbv zeta.
  rewrite join_optimized_child in Hpath by apply optimizedName_proper.
  unfold payload_entry. simpl. rewrite Hon, Hpath, Hfn.
  rewrite basename_child by apply optimizedName_proper.
  rewrite basename_proper by apply storage_filename_proper.
  auto.
Qed.

(** X11.  When a request is answered 200, the list of the answer has
    one entry per uploaded file, in the order of the upload.  The entry
    at each position carries the original name of the file at that
    position, the output name derived from it, the download URL
    [/download/] followed by that output name and the upload URL
    [/upload/] followed by the name the file was stored under.  The
    archive is announced exactly when more than one file was uploaded,
    under [/download/] and the name [createZip] chose. *)
Theorem success_payload_in_order (random : list Byte.byte) (now : Z)
    (parts : list Part) (fs : FS) (ticks : list tick) (payload : Payload) :
  let r := request_run random ticks (post_upload random now parts fs) in
  req_response r = Some (Json200 payload) ->
  length (payload_files payload) = length parts /\
  entry_originalName <$> payload_files payload = part_originalname <$> parts /\
  (forall i part, parts !! i = Some part ->
     exists e, payload_files payload !! i = Some e /\
       entry_originalName e = part_originalname part /\
       entry_optimizedName e = optimizedName (part_originalname part) /\
       downloadUrl e = lit "/download/" ++ optimizedName (part_originalname part) /\
       uploadUrl e
       = lit "/upload/" ++ storage_filename (part_originalname part) (part_now part)
                             (part_random part)) /\
  payload_zip payload
  = if Nat.ltb 1 (length parts) then Some (lit "/download/" ++ zip_name random) else None.
Proof.
  intros r Hr.
  destruct (request_reaches_served random now parts fs ticks) as [[e He] | [Hfiles Hs]];
    fold r in He || fold r in Hfiles, Hs; [congruence|].
  assert (Hentry : forall i part, parts !! i = Some part ->
            exists e, payload_files payload !! i = Some e /\
              entry_originalName e = part_originalname part /\
              entry_optimizedName e = optimizedName (part_originalname part) /\
              downloadUrl e = lit "/download/" ++ optimizedName (part_originalname part) /\
              uploadUrl e
              = lit "/upload/" ++ storage_filename (part_originalname part) (part_now part)
                                    (part_random part)).
  { intros i part Hp.
    assert (Hf : req_files r !! i = Some (stored_file part))
      by (rewrite Hfiles, list_lookup_fmap, Hp; reflexivity).
    destruct (success_entry random r payload i _ Hs Hr Hf) as (m & Hm & _ & Hmeta).
    exists (payload_entry m). split; [exact Hm|].
    destruct (entry_names part m Hmeta) as (H1 & H2 & H3 & H4 & _). auto. }
  assert (Hlen : length (payload_files payload) = length parts).
  { rewrite (success_length random r payload Hs Hr), Hfiles. apply length_fmap. }
  split; [exact Hlen|]. split; [|split; [exact Hentry|]].
  - apply list_eq. intros i. rewrite !list_lookup_fmap.
    destruct (parts !! i) as [part|] eqn:Hp.
    + destruct (Hentry i part Hp) as (e & -> & He1 & _). simpl. rewrite He1. reflexivity.
    + apply lookup_ge_None in Hp. rewrite <- Hlen in Hp.
      apply lookup_ge_None in Hp. rewrite Hp. reflexivity.
  - destruct Hs as (_ & _ & Hok). destruct (Hok payload Hr) as [_ Hzip _ _].
    rewrite Hzip, Hfiles, length_fmap. reflexivity.
Qed.

(** *** The units after the answer *)

Lemma resume_pool_shape (random : list Byte.byte) (now : Z) (r : request) :
  pool_queue (req_pool (resume random now r)) = pool_queue (req_pool r) /\
  pool_active (req_pool (resume random now r)) = pool_active (req_pool r) /\
  pool_slots (req_pool (resume random now r)) = pool_slots (req_pool r).
Proof.
  unfold resume. destruct (req_response r); [auto|].
  destruct (promise_all (req_pool r)) as [[processed|reason]|]; [| |auto].
  - unfold on_processed. destruct (Nat.ltb 1 (length processed)); [|auto].
    destruct (createZip _ _ _ _) as [[zipName|procErr] fs']; [auto|].
    unfold on_processing_error. simpl. destruct (unlink_all _ _). auto.
  - unfold on_processing_error. destruct (unlink_all _ _). auto.
Qed.

Lemma idle_no_queue (files : list MulterFile) (outDir : str) (N : nat) (p : pool) :
  (1 <= N)%nat -> pool_inv files outDir N p -> pool_active p = [] -> pool_queue p = [].
Proof.
  intros HN [_ I2 I3 _ _ _ _ _ _] Ha. rewrite I2. unfold started in *.
  rewrite Ha in *. simpl in *.
  replace (length files - completed p)%nat with 0%nat by lia. reflexivity.
Qed.

(** The units of a request run to their end whatever the handler has
    answered. *)
Lemma request_run_finishes (random : list Byte.byte) (ticks : list tick) (r : request) :
  req_inv r -> (work (req_pool r) <= length ticks)%nat ->
  pool_active (req_pool (request_run random ticks r)) = [].
Proof.
  unfold request_run. revert r.
  induction ticks as [|t ticks IH]; intros r Hinv Hwork.
  { simpl in *. apply work_zero. lia. }
  simpl. apply IH; [apply request_step_inv; exact Hinv|].
  unfold request_step.
  destruct (resume_pool_shape random (tick_now t)
              {| req_files := req_files r;
                 req_pool := pool_step (req_files r) OPTIMIZED_DIR t (req_pool r);
                 req_response := req_response r; req_log := req_log r |})
    as (Hq & Ha & _).
  unfold work at 1. rewrite Hq, Ha. simpl req_pool.
  fold (work (pool_step (req_files r) OPTIMIZED_DIR t (req_pool r))).
  destruct Hinv as [[_ P2 _ _ _ _] _].
  destruct (pool_active (req_pool r)) as [|u l] eqn:Ea.
  - rewrite pool_step_idle by exact Ea.
    unfold work. rewrite Ea, (idle_no_queue _ _ 6 _ ltac:(lia) P2 Ea). simpl. lia.
  - pose proof (pool_step_progress (req_files r) OPTIMIZED_DIR 6 t (req_pool r) P2) as Hp.
    rewrite Ea in Hp. specialize (Hp ltac:(discriminate)). simpl length in Hwork. lia.
Qed.

Lemma post_upload_work (random : list Byte.byte) (now : Z) (parts : list Part) (fs : FS) :
  (work (req_pool (post_upload random now parts fs)) <= 3 * length parts)%nat.
Proof.
  destruct (multer_receive parts [] fs) as [[[e|] stored] fs1] eqn:Hm.
  { rewrite (post_upload_multer_error _ _ _ _ _ _ _ Hm). unfold work. simpl. lia. }
  destruct (Z.ltb_spec MAX_TOTAL_SIZE (aggregate_size parts)) as [Hbig|Hsmall].
  { rewrite (post_upload_oversize _ _ _ _ _ _ Hm Hbig). unfold work. simpl. lia. }
  unfold post_upload, upload. rewrite Hm.
  rewrite (total_size_accepted _ _ _ _ Hm).
  assert (Hlt : (MAX_TOTAL_SIZE <? aggregate_size parts) = false)
    by (apply Z.ltb_ge; exact Hsmall).
  rewrite Hlt.
  destruct (resume_pool_shape random now
              {| req_files := stored; req_pool := processFiles stored (Some 6%nat) fs1;
                 req_response := None; req_log := [] |}) as (Hq & Ha & _).
  unfold work at 1. rewrite Hq, Ha. simpl req_pool.
  fold (work (processFiles stored (Some 6%nat) fs1)).
  unfold processFiles. simpl default. rewrite work_start by lia.
  destruct (multer_accepts _ _ _ _ Hm) as (_ & _ & ->). lia.
Qed.

(** ** The archive *)

Lemma to_hex_length (bytes : list Byte.byte) :
  length (to_hex bytes) = (2 * length bytes)%nat.
Proof.
  unfold to_hex. induction bytes as [|b bytes IH]; [reflexivity|].
  simpl. rewrite IH. lia.
Qed.

Lemma zip_name_length (random : list Byte.byte) :
  length (zip_name random) = (11 + 2 * length random)%nat.
Proof.
  unfold zip_name. rewrite !length_app, to_hex_length. simpl. lia.
Qed.

(** The name of an archive is the name of no output of [optimiseFile]:
    an output ends with the extension of a supported type. *)
Lemma optimizedName_not_zip (originalname : str) (random : list Byte.byte) :
  select_plugin (toLowerCase (NodePath.extname originalname)) <> None ->
  optimizedName originalname <> zip_name random.
Proof.
  unfold select_plugin, optimizedName, zip_name.
  set (ext := toLowerCase (NodePath.extname originalname)).
  intros Hsel Heq. apply (f_equal (@rev ascii)) in Heq.
  rewrite !rev_app_distr in Heq.
  destruct (NodePath.str_eqb ext (lit ".png")) eqn:E1.
  { apply str_eqb_eq in E1. rewrite E1 in Heq. simpl in Heq. discriminate. }
  destruct (NodePath.str_eqb ext (lit ".jpg")) eqn:E2.
  { apply str_eqb_eq in E2. rewrite E2 in Heq. simpl in Heq. discriminate. }
  destruct (NodePath.str_eqb ext (lit ".jpeg")) eqn:E3.
  { apply str_eqb_eq in E3. rewrite E3 in Heq. simpl in Heq. discriminate. }
  simpl in Hsel. contradiction.
Qed.

(** X13.  When [createZip] fulfils, the name it returns is "bundle-",
    two lower-case hexadecimal digits per random byte, and ".zip", which
    has no separator.  The container is a file of that name directly in
    the outgoing directory, with what the archiver wrote; every other
    path is unchanged, in particular no output of [optimiseFile], whose
    name never is that of an archive; and the download route serves the
    container under the returned name. *)
Theorem createZip_success (random : list Byte.byte) (now : Z) (fs : FS)
    (filePaths : list str) (zipName : str) :
  (createZip random now fs filePaths).1 = Fulfilled zipName ->
  let fs' := (createZip random now fs filePaths).2 in
  let zipPath := OPTIMIZED_DIR ++ "/"%char :: zipName in
  zipName = lit "bundle-" ++ to_hex random ++ lit ".zip" /\
  length zipName = (11 + 2 * length random)%nat /\
  no_slash zipName = true /\
  fs' !! zipPath
  = Some (File now (archive_written
                      (archiver fs (map (fun fp => (fp, NodePath.basename fp))
                                        filePaths)))) /\
  (forall p, p <> zipPath -> fs' !! p = fs !! p) /\
  (forall originalname,
     select_plugin (toLowerCase (NodePath.extname originalname)) <> None ->
     NodePath.join [OPTIMIZED_DIR; optimizedName originalname] <> zipPath) /\
  get_download fs' zipName = Download zipPath zipName.
Proof.
  destruct (createZip random now fs filePaths) as [o fs'] eqn:E. simpl.
  intros ->. apply createZip_fulfilled in E as (-> & -> & _).
  pose proof (zip_name_proper random) as Hp.
  split; [reflexivity|]. split; [apply zip_name_length|].
  split; [apply proper_segment_no_slash, Hp|].
  split; [apply lookup_insert_eq|].
  split; [intros p Hne; apply lookup_insert_ne; congruence|].
  split.
  - intros originalname Hsel.
    rewrite join_optimized_child by apply optimizedName_proper.
    intros Heq. apply app_inv_head in Heq. injection Heq as Heq.
    apply (optimizedName_not_zip originalname random Hsel Heq).
  - unfold get_download. rewrite OPTIMIZED_DIR_abs.
    pose proof (serve_existing (lit "optimized")
                  (<[abs_path (root ++ [lit "optimized"]) ++ "/"%char :: zip_name random
                     := File now (archive_written
                                    (archiver fs (map (fun fp => (fp, NodePath.basename fp))
                                                      filePaths)))]> fs)
                  (zip_name random) eq_refl) as H.
    cbv zeta in H. rewrite (basename_proper _ Hp) in *.
    rewrite (H Hp), lookup_insert_eq. reflexivity.
Qed.

(** ** The selection of files in the page *)

(** One call of [handleFilesSelection]: all of the accepted files of the
    call are added, in order, or none is. *)
Lemma handleFilesSelection_cases (selected files : list ClientFile) :
  let accepted := List.filter (fun f => allowed (cf_name f)) files in
  ((20 < length accepted + length selected)%nat /\
   (handleFilesSelection selected files).1 = selected) \/
  ((length accepted + length selected <= 20)%nat /\
   (handleFilesSelection selected files).1 = selected ++ accepted).
Proof.
  cbv zeta. unfold handleFilesSelection.
  destruct (Nat.ltb_spec 20 (length (List.filter (fun f => allowed (cf_name f)) files)
                             + length selected)); [left | right]; auto.
Qed.

Lemma filter_allowed (files : list ClientFile) :
  Forall (fun f => allowed (cf_name f) = true)
         (List.filter (fun f => allowed (cf_name f)) files).
Proof.
  apply Forall_forall. intros f Hf. apply list_elem_of_In, filter_In in Hf as [_ Hf].
  exact Hf.
Qed.

Lemma handleFilesSelection_keeps (selected files : list ClientFile) :
  (length selected <= 20)%nat ->
  Forall (fun f => allowed (cf_name f) = true) selected ->
  (length (handleFilesSelection selected files).1 <= 20)%nat /\
  Forall (fun f => allowed (cf_name f) = true) (handleFilesSelection selected files).1.
Proof.
  intros Hlen Hall.
  destruct (handleFilesSelection_cases selected files) as [[_ ->] | [Hle ->]].
  - auto.
  - split; [rewrite length_app; lia|].
    apply Forall_app. split; [exact Hall | apply filter_allowed].
Qed.

Lemma select_from_keeps (selections : list (list ClientFile)) (selected : list ClientFile) :
  (length selected <= 20)%nat ->
  Forall (fun f => allowed (cf_name f) = true) selected ->
  let final := fold_left (fun selected files => (handleFilesSelection selected files).1)
                         selections selected in
  (length final <= 20)%nat /\ Forall (fun f => allowed (cf_name f) = true) final /\
  exists added, final = selected ++ added.
Proof.
  revert selected. induction selections as [|files selections IH]; intros selected Hlen Hall.
  { simpl. split; [exact Hlen|]. split; [exact Hall|]. exists []. symmetry. apply app_nil_r. }
  simpl. destruct (handleFilesSelection_keeps selected files Hlen Hall) as [Hlen1 Hall1].
  destruct (IH _ Hlen1 Hall1) as (H1 & H2 & added & H3).
  split; [exact H1|]. split; [exact H2|].
  destruct (handleFilesSelection_cases selected files) as [[_ E] | [_ E]];
    rewrite E in H3 |- *.
  - eauto.
  - rewrite <- app_assoc in H3. eauto.
Qed.

(** X14.  Whatever the user selects or drops, and however often, the
    page never holds more than twenty selected files, every selected
    file has a name that the filter of the page accepts, and a file once
    selected stays selected, at its position: later selections only
    append. *)
Theorem selection_stays_within_limits (selections more : list (list ClientFile)) :
  let selected := select_each selections in
  (length selected <= 20)%nat /\
  Forall (fun f => allowed (cf_name f) = true) selected /\
  exists added, select_each (selections ++ more) = selected ++ added.
Proof.
  cbv zeta. unfold select_each.
  destruct (select_from_keeps selections []) as (H1 & H2 & _);
    [simpl; lia | constructor |].
  split; [exact H1|]. split; [exact H2|].
  rewrite fold_left_app.
  destruct (select_from_keeps more _ H1 H2) as (_ & _ & H3). exact H3.
Qed.

(** Multer does not refuse a batch of at most twenty accepted names under
    the field 'images' for its count, its field or its names. *)
Lemma multer_receive_no_refusal (parts : list Part) (stored0 : list MulterFile) (fs : FS) :
  (length stored0 + length parts <= MAX_FILES)%nat ->
  Forall (fun p => part_fieldname p = lit "images" /\
                   allowed (part_originalname p) = true) parts ->
  match (multer_receive parts stored0 fs).1.1 with
  | None | Some LIMIT_FILE_SIZE | Some (StorageError _) => True
  | _ => False
  end.
Proof.
  revert stored0 fs. induction parts as [|part parts IH]; intros stored0 fs Hlen Hall.
  { exact I. }
  apply Forall_cons in Hall as [(Hfield & Hallowed) Hall].
  rewrite multer_receive_cons. cbv zeta.
  assert (Ecount : Nat.leb MAX_FILES (length stored0) = false)
    by (apply Nat.leb_gt; simpl in Hlen; lia).
  rewrite Ecount, Hfield, str_eqb_refl, Hallowed. simpl negb. cbv iota.
  destruct (fs_writeFile _ _ _ _) as [code|fs1]; [exact I|].
  destruct (MAX_TOTAL_SIZE <? _); [exact I|].
  apply IH; [|exact Hall]. rewrite length_app. simpl in *. lia.
Qed.

(** X15.  The page and the server agree on what a batch may be.
    [uploadAll] posts a form only when something is selected, and then,
    whatever the selections were, the request made of its fields is not
    refused by the upload middleware for the number of files, for the
    field name or for a file name: the only errors left are a file over
    the size limit and a failure to store. *)
Theorem selected_batch_passes_filter (selections : list (list ClientFile))
    (form : list (str * ClientFile)) (parts : list Part) (fs : FS) :
  uploadAll_form (select_each selections) = Some form ->
  Forall2 (fun field part => part_fieldname part = field.1 /\
                             part_originalname part = cf_name field.2) form parts ->
  select_each selections <> [] /\
  (length parts <= MAX_FILES)%nat /\
  match (multer_receive parts [] fs).1.1 with
  | None | Some LIMIT_FILE_SIZE | Some (StorageError _) => True
  | _ => False
  end.
Proof.
  destruct (select_from_keeps selections []) as (Hlen & Hall & _);
    [simpl; lia | constructor |].
  fold (select_each selections) in Hlen, Hall.
  unfold uploadAll_form. intros Hform Hparts.
  destruct (Nat.eqb (length (select_each selections)) 0) eqn:Es; [discriminate|].
  injection Hform as <-.
  pose proof (Forall2_length _ _ _ Hparts) as Hl. rewrite length_fmap in Hl.
  split; [intros E; rewrite E in Es; discriminate|].
  assert (Hcount : (length parts <= MAX_FILES)%nat) by (unfold MAX_FILES; lia).
  split; [exact Hcount|].
  apply multer_receive_no_refusal; [simpl; lia|].
  apply Forall2_fmap_l in Hparts.
  rewrite Forall_forall in Hall.
  apply Forall_forall. intros part Hpart.
  apply list_elem_of_lookup in Hpart as [i Hi].
  destruct (Forall2_lookup_r _ _ _ _ _ Hparts Hi) as (f & Hf & Hfield & Hname).
  simpl in Hfield, Hname. split; [exact Hfield|]. rewrite Hname.
  apply Hall. apply list_elem_of_lookup. eauto.
Qed.

(** ** The bytes behind the sizes of the answer *)

(** One step of a unit that holds the upload. *)
Lemma optimiseFile_step_data (f : MulterFile) (d : Buffer) (now : Z) (fs fs' : FS)
    (outDir : str) (ph : phase) (res : progress) :
  holds_upload fs f d -> unit_ok f d ph ->
  optimiseFile_step now fs f outDir ph = (res, fs') ->
  match res with
  | Next ph' => unit_ok f d ph'
  | Done (Fulfilled m) => value_ok f d m
  | Done (Rejected _) => True
  end.
Proof.
  intros Hup Hunit. destruct ph as [|pl b|b ob]; simpl.
  - unfold fs_readFile. destruct (fs !! file_path f) as [nd|] eqn:E.
    + destruct (Hup nd E) as [m ->].
      destruct (select_plugin _) as [pl|] eqn:Ep; intros [= <- _]; simpl; auto.
    + intros [= <- _]. exact I.
  - destruct Hunit as [-> Hsel].
    destruct (imagemin_buffer pl d) as [ob|] eqn:Ec; intros [= <- _]; simpl; [|exact I].
    split; [reflexivity|]. exists pl. auto.
  - destruct Hunit as [-> Hcodec].
    destruct (fs_writeFile now fs _ ob) as [code|fs1]; intros [= <- _]; [exact I|].
    exists ob. simpl. auto.
Qed.

Lemma holds_upload_ext (fs fs' : FS) (f : MulterFile) (d : Buffer) :
  (fs' !! file_path f = fs !! file_path f \/ fs' !! file_path f = None) ->
  holds_upload fs f d -> holds_upload fs' f d.
Proof.
  intros [E|E] H nd Hnd; rewrite E in Hnd; [apply H; exact Hnd | discriminate].
Qed.

(** An event keeps the bytes. *)
Lemma pool_step_data (datas : list Buffer) (files : list MulterFile) (t : tick) (p : pool) :
  Forall staged files ->
  data_inv datas files p -> data_inv datas files (pool_step files OPTIMIZED_DIR t p).
Proof.
  intros Hst [D1 D2 D3].
  assert (Hframe : forall i f d, files !! i = Some f -> datas !! i = Some d ->
            holds_upload (pool_fs (pool_step files OPTIMIZED_DIR t p)) f d).
  { intros i f d Hf Hd. apply (holds_upload_ext (pool_fs p)); [|apply (D1 i f d Hf Hd)].
    left. apply pool_step_frame. intros x. apply staged_not_optimized.
    rewrite Forall_forall in Hst. apply Hst. apply list_elem_of_lookup. eauto. }
  destruct (pool_step_cases files OPTIMIZED_DIR t p)
    as [[E _] | (pre & i & ph & post & file & Ha & Hfile &
                 [(ph' & fs' & Hs & E) | (o & fs' & Hs & E)])].
  - rewrite E. split; assumption.
  - assert (Hin : (i, ph) ∈ pool_active p).
    { rewrite Ha. apply elem_of_app. right. left. }
    split; [exact Hframe | | rewrite E; exact D3].
    rewrite E. simpl. intros j ph0 f d Hj Hf Hd.
    apply elem_of_app in Hj as [Hj | Hj].
    + apply (D2 j ph0 f d); [rewrite Ha; apply elem_of_app; auto | assumption..].
    + apply elem_of_cons in Hj as [[= -> ->] | Hj].
      * assert (f = file) by congruence. subst f.
        apply (optimiseFile_step_data file d _ _ _ _ _ _ (D1 i file d Hf Hd)
                 (D2 i ph file d Hin Hf Hd) Hs).
      * apply (D2 j ph0 f d); [|assumption..].
        rewrite Ha. apply elem_of_app. right. right. exact Hj.
  - assert (Hin : (i, ph) ∈ pool_active p).
    { rewrite Ha. apply elem_of_app. right. left. }
    split; [exact Hframe | |].
    + rewrite E. simpl. intros j ph0 f d Hj Hf Hd.
      assert (Hcases : (j, ph0) ∈ pre ++ post \/ ph0 = AwaitRead).
      { unfold limit_next in Hj. destruct (pool_queue p) as [|k q]; simpl in Hj; [auto|].
        apply elem_of_app in Hj as [Hj | Hj]; [auto|].
        apply list_elem_of_singleton in Hj. injection Hj as _ ->. auto. }
      destruct Hcases as [Hj' | ->]; [|exact I].
      apply (D2 j ph0 f d); [|assumption..].
      rewrite Ha. apply elem_of_app in Hj' as [Hj' | Hj']; apply elem_of_app; [auto|].
      right. right. exact Hj'.
    + rewrite E. simpl. intros j m f d Hslot Hf Hd.
      apply list_lookup_insert_Some in Hslot as [(-> & Ho & _) | (_ & Hslot)].
      * injection Ho as ->. assert (f = file) by congruence. subst f.
        apply (optimiseFile_step_data file d _ _ _ _ _ _ (D1 j file d Hf Hd)
                 (D2 j ph file d Hin Hf Hd) Hs).
      * apply (D3 j m f d Hslot Hf Hd).
Qed.

Lemma with_fs_data (datas : list Buffer) (files : list MulterFile) (p : pool) (fs' : FS) :
  (forall f, f ∈ files ->
     fs' !! file_path f = pool_fs p !! file_path f \/ fs' !! file_path f = None) ->
  data_inv datas files p -> data_inv datas files (with_fs p fs').
Proof.
  intros Hfs [D1 D2 D3]. split; simpl; [|exact D2 | exact D3].
  intros i f d Hf Hd. apply (holds_upload_ext (pool_fs p)); [|apply (D1 i f d Hf Hd)].
  apply Hfs. apply list_elem_of_lookup. eauto.
Qed.

Lemma on_processing_error_data (datas : list Buffer) (reason : error) (r : request) :
  data_inv datas (req_files r) (req_pool r) ->
  data_inv datas (req_files r) (req_pool (on_processing_error reason r)).
Proof.
  intros Hd. unfold on_processing_error.
  pose proof (unlink_all_lookup (req_files r) (pool_fs (req_pool r))) as Hl.
  destruct (unlink_all (req_files r) (pool_fs (req_pool r))) as [fs' l]. simpl in *.
  apply with_fs_data; [|exact Hd].
  intros f Hf. rewrite Hl. destruct (pool_fs (req_pool r) !! file_path f) as [[m d|m]|]; auto.
  destruct (decide _); auto.
Qed.

Lemma resume_data (datas : list Buffer) (random : list Byte.byte) (now : Z) (r : request) :
  Forall staged (req_files r) ->
  data_inv datas (req_files r) (req_pool r) ->
  data_inv datas (req_files (resume random now r)) (req_pool (resume random now r)).
Proof.
  intros Hst Hd. rewrite resume_files. unfold resume.
  destruct (req_response r); [exact Hd|].
  destruct (promise_all (req_pool r)) as [[processed|reason]|]; [| |exact Hd].
  - unfold on_processed. destruct (Nat.ltb 1 (length processed)).
    + pose proof (fun q Hq => createZip_frame random now (pool_fs (req_pool r))
                                (map optimizedPath processed) q Hq) as Hframe.
      assert (Hzip : data_inv datas (req_files r)
                       (with_fs (req_pool r)
                          (createZip random now (pool_fs (req_pool r))
                             (map optimizedPath processed)).2)).
      { apply with_fs_data; [|exact Hd]. intros f Hf. left. apply Hframe.
        intros x. apply staged_not_optimized.
        rewrite Forall_forall in Hst. apply Hst. exact Hf. }
      destruct (createZip random now (pool_fs (req_pool r)) (map optimizedPath processed))
        as [[zipName|procErr] fs']; simpl in Hzip; [exact Hzip|].
      apply (on_processing_error_data datas procErr
               {| req_files := req_files r; req_pool := with_fs (req_pool r) fs';
                  req_response := req_response r; req_log := req_log r |}).
      exact Hzip.
    + simpl. apply with_fs_data; [auto | exact Hd].
  - apply on_processing_error_data. exact Hd.
Qed.

Lemma request_run_data (datas : list Buffer) (random : list Byte.byte) (ticks : list tick)
    (r : request) :
  Forall staged (req_files r) ->
  data_inv datas (req_files r) (req_pool r) ->
  data_inv datas (req_files r) (req_pool (request_run random ticks r)).
Proof.
  unfold request_run. revert r. induction ticks as [|t ticks IH]; intros r Hst Hd;
    [exact Hd|].
  simpl.
  assert (Hfiles : req_files (request_step random r t) = req_files r)
    by (unfold request_step; rewrite resume_files; reflexivity).
  rewrite <- Hfiles. apply IH; [rewrite Hfiles; exact Hst|].
  unfold request_step.
  apply (resume_data datas random (tick_now t)
           {| req_files := req_files r;
              req_pool := pool_step (req_files r) OPTIMIZED_DIR t (req_pool r);
              req_response := req_response r; req_log := req_log r |}); simpl.
  - exact Hst.
  - apply pool_step_data; assumption.
Qed.

(** With no two files stored under one name, every stored file holds the
    bytes of its part once Multer is done. *)
Lemma multer_receive_data (parts : list Part) (stored0 stored : list MulterFile)
    (fs fs' : FS) :
  multer_receive parts stored0 fs = (None, stored, fs') ->
  NoDup ((fun p => file_path (stored_file p)) <$> parts) ->
  forall part, part ∈ parts ->
    fs' !! file_path (stored_file part) = Some (File (part_now part) (part_data part)).
Proof.
  revert stored0 fs. induction parts as [|p parts IH]; intros stored0 fs Hm Hnd part Hin.
  { apply elem_of_nil in Hin. contradiction. }
  rewrite fmap_cons in Hnd. apply NoDup_cons in Hnd as [Hnotin Hnd].
  rewrite multer_receive_cons in Hm. cbv zeta in Hm.
  destruct (Nat.leb MAX_FILES (length stored0)); [discriminate|].
  destruct (negb (NodePath.str_eqb (part_fieldname p) (lit "images")));
    [discriminate|].
  destruct (negb (allowed (part_originalname p))); [discriminate|].
  destruct (fs_writeFile _ _ _ _) as [code|fs1] eqn:Ew; [discriminate|].
  destruct (MAX_TOTAL_SIZE <? _); [discriminate|].
  apply fs_writeFile_inr in Ew.
  apply elem_of_cons in Hin as [-> | Hin]; [|apply (IH _ _ Hm Hnd part Hin)].
  destruct (multer_receive_spec _ _ _ _ _ _ Hm) as (new & Hnew & _ & _ & Hframe & _).
  pose proof (multer_receive_stored _ _ _ _ _ Hm) as Hstored.
  rewrite Hstored in Hnew. apply app_inv_head in Hnew. subst new.
  destruct (Hframe (file_path (stored_file p))) as [E | Hq].
  - rewrite E, Ew. apply lookup_insert_eq.
  - exfalso. apply Hnotin. rewrite <- list_fmap_compose in Hq. exact Hq.
Qed.

(** The request as it starts to wait holds the bytes of its parts. *)
Lemma post_upload_data (random : list Byte.byte) (now : Z) (parts : list Part) (fs : FS) :
  NoDup ((fun p => file_path (stored_file p)) <$> parts) ->
  (forall e, req_response (post_upload random now parts fs) <> Some (Json400 e)) ->
  data_inv (part_data <$> parts) (stored_file <$> parts)
           (req_pool (post_upload random now parts fs)).
Proof.
  intros Hnd Hnot.
  destruct (multer_receive parts [] fs) as [[[e|] stored] fs1] eqn:Hm.
  { exfalso. rewrite (post_upload_multer_error _ _ _ _ _ _ _ Hm) in Hnot.
    apply (Hnot (inl e)). reflexivity. }
  pose proof (multer_receive_stored _ _ _ _ _ Hm) as Hstored. simpl in Hstored.
  destruct (Z.ltb_spec MAX_TOTAL_SIZE (aggregate_size parts)) as [Hbig|Hsmall].
  { exfalso. rewrite (post_upload_oversize _ _ _ _ _ _ Hm Hbig) in Hnot.
    apply (Hnot (inr (lit "Total upload size exceeds 100 MiB"))). reflexivity. }
  unfold post_upload, upload. rewrite Hm.
  rewrite (total_size_accepted _ _ _ _ Hm).
  assert (Hlt : (MAX_TOTAL_SIZE <? aggregate_size parts) = false)
    by (apply Z.ltb_ge; exact Hsmall).
  rewrite Hlt.
  pose proof (resume_data (part_data <$> parts) random now
                {| req_files := stored; req_pool := processFiles stored (Some 6%nat) fs1;
                   req_response := None; req_log := [] |}) as Hres.
  rewrite resume_files in Hres. simpl in Hres. rewrite <- Hstored. apply Hres.
  - destruct (multer_receive_spec _ _ _ _ _ _ Hm) as (new & Hnew & Hst & _).
    simpl in Hnew. subst new. exact Hst.
  - rewrite Hstored. split; simpl.
    + intros i f d Hf Hd nd Hnd'.
      apply list_lookup_fmap_Some in Hf as (part & -> & Hp).
      rewrite list_lookup_fmap, Hp in Hd. injection Hd as <-.
      rewrite (multer_receive_data _ _ _ _ _ Hm Hnd part) in Hnd'
        by (apply list_elem_of_lookup; eauto).
      injection Hnd' as <-. eauto.
    + intros i ph f d Hin _ _.
      apply list_elem_of_fmap in Hin as (j & [= _ ->] & _). exact I.
    + intros i m f d Hslot. rewrite lookup_replicate in Hslot.
      destruct Hslot as [? _]. discriminate.
Qed.

(** X18.  When no two files of a batch were stored under one name and
    the request is answered 200, the two sizes in the entry of each file
    are the size of the bytes uploaded for that file and the size of
    what the codec made of those bytes, with the plugin that the
    extension of its original name selects. *)
Theorem success_sizes_are_measured (random : list Byte.byte) (now : Z)
    (parts : list Part) (fs : FS) (ticks : list tick) (payload : Payload) :
  let r := request_run random ticks (post_upload random now parts fs) in
  NoDup ((fun p => storage_filename (part_originalname p) (part_now p) (part_random p))
           <$> parts) ->
  req_response r = Some (Json200 payload) ->
  forall i part, parts !! i = Some part ->
    exists e pl optimizedBuffer,
      payload_files payload !! i = Some e /\
      select_plugin (toLowerCase (NodePath.extname (part_originalname part))) = Some pl /\
      imagemin_buffer pl (part_data part) = Some optimizedBuffer /\
      entry_sizeBefore e = byteLength (part_data part) /\
      entry_sizeAfter e = byteLength optimizedBuffer.
Proof.
  intros r Hnames Hr i part Hp.
  assert (Hnd : NoDup ((fun p => file_path (stored_file p)) <$> parts)).
  { revert Hnames. generalize parts as l. clear -root_proper.
    induction l as [|p parts IH]; [constructor|].
    rewrite !fmap_cons. intros [Hnotin Hnd]%NoDup_cons.
    apply NoDup_cons. split; [|apply IH; exact Hnd].
    intros (q & Hq & Hin)%list_elem_of_fmap. apply Hnotin.
    apply list_elem_of_fmap. exists q. split; [|exact Hin].
    simpl in Hq. rewrite !join_upload_child in Hq by apply storage_filename_proper.
    apply app_inv_head in Hq. injection Hq as Hq. exact Hq. }
  destruct (request_reaches_served random now parts fs ticks) as [[e He] | [Hfiles Hs]];
    fold r in He || fold r in Hfiles, Hs; [congruence|].
  destruct (post_upload_served random now parts fs)
    as [(e & fs0 & He & Hp0) | [Hfiles0 Hs0]].
  { exfalso. unfold r in Hr.
    rewrite request_run_quiet in Hr; [congruence | congruence | rewrite Hp0; reflexivity]. }
  assert (Hnot : forall e, req_response (post_upload random now parts fs)
                           <> Some (Json400 e)).
  { intros e E. unfold r in Hr. rewrite request_run_answered in Hr; congruence. }
  pose proof (post_upload_data random now parts fs Hnd Hnot) as Hd0.
  rewrite <- Hfiles0 in Hd0.
  assert (Hst0 : Forall staged (req_files (post_upload random now parts fs))).
  { destruct Hs0 as ([[P1 _ _ _ _ _] _] & _). exact P1. }
  pose proof (request_run_data _ random ticks _ Hst0 Hd0) as [_ _ D3].
  fold r in D3. rewrite Hfiles0 in D3.
  assert (Hf : req_files r !! i = Some (stored_file part))
    by (rewrite Hfiles, list_lookup_fmap, Hp; reflexivity).
  destruct (success_entry random r payload i _ Hs Hr Hf) as (m & Hm & Hslot & _).
  destruct (D3 i m (stored_file part) (part_data part) Hslot) as (ob & (pl & Hsel & Hc) & H1 & H2).
  - rewrite list_lookup_fmap, Hp. reflexivity.
  - rewrite list_lookup_fmap, Hp. reflexivity.
  - exists (payload_entry m), pl, ob. simpl in Hsel. auto.
Qed.

(** ** The unique part of a stored name *)

Lemma number_to_string_inj (a b : Z) : number_to_string a = number_to_string b -> a = b.
Proof.
  unfold number_to_string. intros H.
  apply (f_equal string_of_list_ascii) in H.
  rewrite !string_of_list_ascii_of_string in H.
  assert (Hnil : forall n, Z.to_int n <> Decimal.Pos Decimal.Nil /\
                           Z.to_int n <> Decimal.Neg Decimal.Nil).
  { intros n. split; intros E; pose proof (f_equal Z.of_int E) as E';
      rewrite DecimalZ.of_to in E'; simpl in E'; subst n; vm_compute in E;
      discriminate E. }
  apply (f_equal DecimalString.NilZero.int_of_string) in H.
  rewrite !DecimalString.NilZero.isi in H by apply Hnil.
  injection H as H. apply DecimalZ.to_int_inj. exact H.
Qed.

Lemma number_to_string_digits (n : Z) :
  0 <= n ->
  forallb (fun c => negb (Ascii.eqb c "-")) (number_to_string n) = true.
Proof.
  intros Hn. unfold number_to_string.
  assert (Hu : forall d, forallb (fun c => negb (Ascii.eqb c "-"))
                           (lit (DecimalString.NilEmpty.string_of_uint d)) = true).
  { induction d; simpl; auto. }
  assert (Hz : forall d, forallb (fun c => negb (Ascii.eqb c "-"))
                           (lit (DecimalString.NilZero.string_of_uint d)) = true).
  { intros d. unfold DecimalString.NilZero.string_of_uint.
    destruct d; try apply Hu. reflexivity. }
  destruct n as [|p|p]; [reflexivity | apply Hz | lia].
Qed.

(** A text is cut in one way only at its first hyphen. *)
Lemma split_at_hyphen (a a' b b' : str) :
  forallb (fun c => negb (Ascii.eqb c "-")) a = true ->
  forallb (fun c => negb (Ascii.eqb c "-")) a' = true ->
  a ++ "-"%char :: b = a' ++ "-"%char :: b' -> a = a' /\ b = b'.
Proof.
  revert a'. induction a as [|x a IH]; intros [|y a'] Ha Ha' H; simpl in *.
  - injection H as ->. auto.
  - injection H as <- _. simpl in Ha'. discriminate.
  - injection H as -> _. simpl in Ha. discriminate.
  - injection H as -> H.
    apply andb_true_iff in Ha as [_ Ha]. apply andb_true_iff in Ha' as [_ Ha'].
    destruct (IH a' Ha Ha' H) as [-> ->]. auto.
Qed.

(** X19.  Two uploads of a file of the same name are stored under
    different names unless they arrive in the same millisecond and draw
    the same random number: the name given by the storage callback
    determines the clock reading and the random number it was made
    from. *)
Theorem stored_names_differ (originalname : str) (now1 random1 now2 random2 : Z) :
  0 <= now1 -> 0 <= now2 ->
  now1 <> now2 \/ random1 <> random2 ->
  storage_filename originalname now1 random1
  <> storage_filename originalname now2 random2.
Proof.
  intros H1 H2 Hdiff Heq. unfold storage_filename in Heq.
  apply app_inv_head in Heq. simpl in Heq. injection Heq as Heq.
  apply app_inv_tail in Heq.
  apply split_at_hyphen in Heq as [Hn Hr]; try (apply number_to_string_digits; assumption).
  apply number_to_string_inj in Hn. apply number_to_string_inj in Hr.
  destruct Hdiff; contradiction.
Qed.

Lemma hex_digit_inj (n m : N) :
  (n < 16)%N -> (m < 16)%N -> hex_digit n = hex_digit m -> n = m.
Proof.
  intros Hn Hm.
  assert (En : exists k, (k < 16)%nat /\ n = N.of_nat k)
    by (exists (N.to_nat n); lia).
  assert (Em : exists k, (k < 16)%nat /\ m = N.of_nat k)
    by (exists (N.to_nat m); lia).
  destruct En as (k & Hk & ->). destruct Em as (j & Hj & ->).
  unfold hex_digit. rewrite !Nnat.Nat2N.id. intros H. f_equal.
  do 16 (destruct k as [|k]; [do 16 (destruct j as [|j]; [simpl in H; congruence|]); lia|]).
  lia.
Qed.

Lemma to_hex_inj (a b : list Byte.byte) : to_hex a = to_hex b -> a = b.
Proof.
  unfold to_hex. revert b. induction a as [|x a IH]; intros [|y b]; simpl;
    try discriminate; [reflexivity|].
  intros H. injection H as Hhi Hlo H.
  assert (Hx : (Byte.to_N x < 256)%N) by (pose proof (Byte.to_N_bounded x); lia).
  assert (Hy : (Byte.to_N y < 256)%N) by (pose proof (Byte.to_N_bounded y); lia).
  apply hex_digit_inj in Hhi;
    [|apply N.Div0.div_lt_upper_bound; lia | apply N.Div0.div_lt_upper_bound; lia].
  apply hex_digit_inj in Hlo; [|apply N.mod_lt; lia | apply N.mod_lt; lia].
  assert (Exy : Byte.to_N x = Byte.to_N y).
  { rewrite (N.div_mod (Byte.to_N x) 16), (N.div_mod (Byte.to_N y) 16) by lia.
    rewrite Hhi, Hlo. reflexivity. }
  apply (f_equal Byte.of_N) in Exy. rewrite !Byte.of_to_N in Exy. injection Exy as ->.
  f_equal. apply IH. exact H.
Qed.

(** X20.  Two archives have the same name only when [crypto.randomBytes]
    returned the same bytes for both: the name [createZip] builds
    determines the random bytes it was made from. *)
Theorem zip_names_differ (random1 random2 : list Byte.byte) :
  random1 <> random2 -> zip_name random1 <> zip_name random2.
Proof.
  intros Hdiff Heq. unfold zip_name in Heq.
  apply app_inv_head in Heq. apply app_inv_tail in Heq.
  apply to_hex_inj in Heq. contradiction.
Qed.


(** ** What is on disk behind an answer *)

Lemma stored_paths_NoDup (parts : list Part) :
  NoDup ((fun p => storage_filename (part_originalname p) (part_now p) (part_random p))
           <$> parts) ->
  NoDup ((fun p => file_path (stored_file p)) <$> parts).
Proof.
  induction parts as [|p parts IH]; [constructor|].
  rewrite !fmap_cons. intros [Hnotin Hnd]%NoDup_cons.
  apply NoDup_cons. split; [|apply IH; exact Hnd].
  intros (q & Hq & Hin)%list_elem_of_fmap. apply Hnotin.
  apply list_elem_of_fmap. exists q. split; [|exact Hin].
  simpl in Hq. rewrite !join_upload_child in Hq by apply storage_filename_proper.
  apply app_inv_head in Hq. injection Hq as Hq. exact Hq.
Qed.

(** [createZip] writes at the path of its container only. *)
Lemma createZip_other (random : list Byte.byte) (now : Z) (fs : FS)
    (filePaths : list str) (q : str) :
  q <> OPTIMIZED_DIR ++ "/"%char :: zip_name random ->
  (createZip random now fs filePaths).2 !! q = fs !! q.
Proof.
  intros Hq. unfold createZip. rewrite zip_path_eq.
  destruct (fs_writeFile now fs _ _) as [code|fs1] eqn:Ew; [reflexivity|].
  apply fs_writeFile_inr in Ew. subst fs1.
  destruct (archive_failed _); simpl; apply lookup_insert_ne; congruence.
Qed.

(** The handler leaves the output of an accepted name alone: it is
    neither the archive nor an original. *)
Lemma resume_output_kept (random : list Byte.byte) (now : Z) (r : request) (name : str) :
  Forall staged (req_files r) ->
  select_plugin (toLowerCase (NodePath.extname name)) <> None ->
  pool_fs (req_pool (resume random now r))
    !! (OPTIMIZED_DIR ++ "/"%char :: optimizedName name)
  = pool_fs (req_pool r) !! (OPTIMIZED_DIR ++ "/"%char :: optimizedName name).
Proof.
  intros Hst Hsel. set (q := OPTIMIZED_DIR ++ "/"%char :: optimizedName name).
  assert (Hz : q <> OPTIMIZED_DIR ++ "/"%char :: zip_name random).
  { unfold q. intros E. apply app_inv_head in E. injection E as E.
    exact (optimizedName_not_zip name random Hsel E). }
  assert (Hq : NodePath.startsWith q (OPTIMIZED_DIR ++ lit "/") = true).
  { apply startsWith_app. exists (optimizedName name). unfold q.
    rewrite <- app_assoc. reflexivity. }
  unfold resume. destruct (req_response r); [reflexivity|].
  destruct (promise_all (req_pool r)) as [[processed|reason]|]; [| |reflexivity].
  - unfold on_processed. destruct (Nat.ltb 1 (length processed)); [|reflexivity].
    pose proof (createZip_other random now (pool_fs (req_pool r))
                  (map optimizedPath processed) q Hz) as Hk.
    destruct (createZip _ _ _ _) as [[zipName|procErr] fs']; [exact Hk|].
    rewrite on_processing_error_outgoing by assumption. exact Hk.
  - apply on_processing_error_outgoing; assumption.
Qed.

(** With no two output names alike, an event keeps the outputs written
    so far, and the output it writes is the codec's for its own file. *)
Lemma pool_step_outputs_hold (datas : list Buffer) (files : list MulterFile) (N : nat)
    (t : tick) (p : pool) :
  NoDup ((fun f => optimizedName (file_originalname f)) <$> files) ->
  pool_inv files OPTIMIZED_DIR N p -> data_inv datas files p ->
  outputs_hold datas files p ->
  outputs_hold datas files (pool_step files OPTIMIZED_DIR t p).
Proof.
  intros Hnd Hinv [D1 D2 D3] Hout j m f d Hslot Hf Hd.
  destruct (pool_step_cases files OPTIMIZED_DIR t p)
    as [[E _] | (pre & i & ph & post & file & Ha & Hfile &
                 [(ph' & fs' & Hs & E) | (o & fs' & Hs & E)])].
  - rewrite E in *. apply (Hout j m f d Hslot Hf Hd).
  - rewrite E in Hslot |- *. simpl in *.
    apply optimiseFile_step_next in Hs as [_ ->]. apply (Hout j m f d Hslot Hf Hd).
  - assert (Hin : (i, ph) ∈ pool_active p).
    { rewrite Ha. apply elem_of_app. right. left. }
    rewrite E in Hslot |- *. simpl in *.
    apply list_lookup_insert_Some in Hslot as [(-> & Ho & _) | (Hne & Hslot)].
    + injection Ho as ->. assert (f = file) by congruence. subst f.
      apply optimiseFile_step_fulfilled in Hs as (_ & b & ob & -> & ->).
      exists (tick_now t), ob. split; [apply lookup_insert_eq|].
      apply (D2 j (AwaitWrite b ob) file d Hin Hf Hd).
    + destruct (Hout j m f d Hslot Hf Hd) as (t0 & ob & Hl & Hc).
      exists t0, ob. split; [|exact Hc].
      destruct o as [m'|reason].
      * apply optimiseFile_step_fulfilled in Hs as ((_ & _ & Hp') & b & ob' & _ & ->).
        rewrite lookup_insert_ne; [exact Hl|].
        destruct (inv_values _ _ _ _ Hinv j m Hslot) as (f' & Hf' & _ & _ & Hp).
        assert (f' = f) by congruence. subst f'.
        rewrite Hp, Hp'.
        rewrite !join_optimized_child by apply optimizedName_proper.
        intros Heq. apply app_inv_head in Heq. injection Heq as Heq.
        apply Hne.
        apply (NoDup_lookup _ i j (optimizedName (file_originalname file)) Hnd).
        -- rewrite list_lookup_fmap, Hfile. reflexivity.
        -- rewrite list_lookup_fmap, Hf. simpl. rewrite Heq. reflexivity.
      * apply optimiseFile_step_rejected in Hs as ->. exact Hl.
Qed.

Lemma request_step_outputs_hold (datas : list Buffer) (random : list Byte.byte)
    (r : request) (t : tick) :
  NoDup ((fun f => optimizedName (file_originalname f)) <$> req_files r) ->
  req_inv r -> data_inv datas (req_files r) (req_pool r) ->
  outputs_hold datas (req_files r) (req_pool r) ->
  outputs_hold datas (req_files r) (req_pool (request_step random r t)).
Proof.
  intros Hnd [[P1 P2 _ _ _ _] _] Hd Hout.
  pose proof (pool_step_outputs_hold datas (req_files r) 6 t (req_pool r) Hnd P2 Hd Hout)
    as Hout'.
  pose proof (pool_step_inv (req_files r) OPTIMIZED_DIR 6 t (req_pool r) P2) as P2'.
  unfold request_step.
  set (r1 := {| req_files := req_files r;
                req_pool := pool_step (req_files r) OPTIMIZED_DIR t (req_pool r);
                req_response := req_response r; req_log := req_log r |}).
  destruct (resume_pool_shape random (tick_now t) r1) as (_ & _ & Hslots).
  intros j m f d Hslot Hf Hdat. rewrite Hslots in Hslot. simpl in Hslot.
  destruct (Hout' j m f d Hslot Hf Hdat) as (t0 & ob & Hl & Hc).
  exists t0, ob. split; [|exact Hc].
  destruct (inv_values _ _ _ _ P2' j m Hslot) as (f' & Hf' & _ & _ & Hp).
  assert (f' = f) by congruence. subst f'.
  rewrite Hp, join_optimized_child in Hl |- * by apply optimizedName_proper.
  rewrite (resume_output_kept random (tick_now t) r1 (file_originalname f) P1);
    [exact Hl|].
  destruct Hc as (pl & Hsel & _). congruence.
Qed.

(** The three invariants of a request that passed the intake, through
    any number of events. *)
Lemma request_run_holds (datas : list Buffer) (random : list Byte.byte)
    (ticks : list tick) (r : request) :
  NoDup ((fun f => optimizedName (file_originalname f)) <$> req_files r) ->
  req_inv r -> data_inv datas (req_files r) (req_pool r) ->
  outputs_hold datas (req_files r) (req_pool r) ->
  data_inv datas (req_files r) (req_pool (request_run random ticks r)) /\
  outputs_hold datas (req_files r) (req_pool (request_run random ticks r)).
Proof.
  unfold request_run. revert r.
  induction ticks as [|t ticks IH]; intros r Hnd Hinv Hd Hout; [auto|].
  simpl.
  assert (Hfiles : req_files (request_step random r t) = req_files r)
    by (unfold request_step; rewrite resume_files; reflexivity).
  rewrite <- Hfiles. apply IH; rewrite ?Hfiles.
  - exact Hnd.
  - apply request_step_inv. exact Hinv.
  - destruct Hinv as [[P1 _ _ _ _ _] _].
    apply (request_run_data datas random [t] r P1 Hd).
  - apply request_step_outputs_hold; assumption.
Qed.

(** While it has not answered, the handler does not answer 400. *)
Lemma resume_not_400 (random : list Byte.byte) (now : Z) (r : request)
    (e : MulterError + str) :
  req_response r = None -> req_response (resume random now r) <> Some (Json400 e).
Proof.
  intros Er. unfold resume. rewrite Er.
  destruct (promise_all (req_pool r)) as [[processed|reason]|]; [| |congruence].
  - unfold on_processed. destruct (Nat.ltb 1 (length processed)).
    + destruct (createZip _ _ _ _) as [[zipName|procErr] fs'].
      * simpl. discriminate.
      * unfold on_processing_error. simpl. destruct (unlink_all _ _). simpl.
        discriminate.
    + simpl. discriminate.
  - unfold on_processing_error. destruct (unlink_all _ _). simpl. discriminate.
Qed.

(** A request is answered at the intake, or it starts to wait with its
    files stored and nothing reported yet. *)
Lemma post_upload_holds (random : list Byte.byte) (now : Z) (parts : list Part) (fs : FS) :
  NoDup ((fun p => file_path (stored_file p)) <$> parts) ->
  let r := post_upload random now parts fs in
  (exists e fs', req_response r = Some (Json400 e) /\ req_pool r = idle fs') \/
  (req_files r = stored_file <$> parts /\ req_served random r /\
   data_inv (part_data <$> parts) (stored_file <$> parts) (req_pool r) /\
   outputs_hold (part_data <$> parts) (stored_file <$> parts) (req_pool r)).
Proof.
  intros Hnd r.
  destruct (multer_receive parts [] fs) as [[[e|] stored] fs1] eqn:Hm.
  { left. unfold r. rewrite (post_upload_multer_error _ _ _ _ _ _ _ Hm). simpl. eauto. }
  destruct (Z.ltb_spec MAX_TOTAL_SIZE (aggregate_size parts)) as [Hbig|Hsmall].
  { left. unfold r. rewrite (post_upload_oversize _ _ _ _ _ _ Hm Hbig). simpl. eauto. }
  right.
  assert (Hr : r = resume random now
                 {| req_files := stored; req_pool := processFiles stored (Some 6%nat) fs1;
                    req_response := None; req_log := [] |}).
  { unfold r, post_upload, upload. rewrite Hm.
    rewrite (total_size_accepted _ _ _ _ Hm).
    assert (Hlt : (MAX_TOTAL_SIZE <? aggregate_size parts) = false)
      by (apply Z.ltb_ge; exact Hsmall).
    rewrite Hlt. reflexivity. }
  assert (Hnot : forall e, req_response r <> Some (Json400 e)).
  { intros e. rewrite Hr. apply resume_not_400. reflexivity. }
  destruct (post_upload_served random now parts fs)
    as [(e & fs' & He & _) | [Hfiles Hs]]; [exfalso; exact (Hnot e He)|].
  split; [exact Hfiles|]. split; [exact Hs|].
  split; [apply post_upload_data; assumption|].
  intros i m f d Hslot. exfalso. revert Hslot. rewrite Hr.
  destruct (resume_pool_shape random now
              {| req_files := stored; req_pool := processFiles stored (Some 6%nat) fs1;
                 req_response := None; req_log := [] |}) as (_ & _ & ->).
  simpl. unfold processFiles, pool_start. 
  destruct (default 6%nat (Some 6%nat)); simpl; rewrite lookup_replicate;
    intros [? _]; discriminate.
Qed.

(** A request after any number of events: answered at the intake, or
    with every output reported so far on disk. *)
Lemma request_reaches_holds (random : list Byte.byte) (now : Z) (parts : list Part)
    (fs : FS) (ticks : list tick) :
  NoDup ((fun p => storage_filename (part_originalname p) (part_now p) (part_random p))
           <$> parts) ->
  NoDup ((fun p => optimizedName (part_originalname p)) <$> parts) ->
  let r0 := post_upload random now parts fs in
  let r := request_run random ticks r0 in
  (exists e fs', req_response r0 = Some (Json400 e) /\ req_pool r0 = idle fs') \/
  (req_files r = stored_file <$> parts /\ req_served random r0 /\ req_served random r /\
   data_inv (part_data <$> parts) (stored_file <$> parts) (req_pool r) /\
   outputs_hold (part_data <$> parts) (stored_file <$> parts) (req_pool r)).
Proof.
  intros Hnames Hopt r0 r.
  destruct (post_upload_holds random now parts fs (stored_paths_NoDup parts Hnames))
    as [Hleft | (Hfiles & Hs & Hd & Hout)]; [left; exact Hleft|].
  fold r0 in Hfiles, Hs, Hd, Hout. right.
  split; [unfold r; rewrite request_run_files; exact Hfiles|].
  split; [exact Hs|]. split; [apply request_run_served; exact Hs|].
  rewrite <- Hfiles in Hd, Hout |- *.
  apply request_run_holds; try assumption; [|apply Hs].
  rewrite Hfiles, <- list_fmap_compose. exact Hopt.
Qed.


(** X16.  A failure does not stop the batch.  Take a batch in which no
    two files get the same stored name or the same output name.
    Whatever the handler has answered, by the time three operations per
    file have completed no unit is running or waiting and every unit has
    settled.  The output of every unit that fulfilled is then a regular
    file in the outgoing area, under the name derived from the file at
    the unit's position, and holds what the codec made of the bytes
    uploaded for that file, also when the answer was the 500 of the
    failure path. *)
Theorem units_run_to_completion (random : list Byte.byte) (now : Z)
    (parts : list Part) (fs : FS) (ticks : list tick) :
  (3 * length parts <= length ticks)%nat ->
  NoDup ((fun p => storage_filename (part_originalname p) (part_now p) (part_random p))
           <$> parts) ->
  NoDup ((fun p => optimizedName (part_originalname p)) <$> parts) ->
  let r := request_run random ticks (post_upload random now parts fs) in
  pool_active (req_pool r) = [] /\ pool_queue (req_pool r) = [] /\
  Forall is_Some (pool_slots (req_pool r)) /\
  (forall i m, pool_slots (req_pool r) !! i = Some (Some (Fulfilled m)) ->
     exists part t pl optimizedBuffer,
       parts !! i = Some part /\
       optimizedPath m
       = OPTIMIZED_DIR ++ "/"%char :: optimizedName (part_originalname part) /\
       pool_fs (req_pool r) !! optimizedPath m = Some (File t optimizedBuffer) /\
       select_plugin (toLowerCase (NodePath.extname (part_originalname part)))
       = Some pl /\
       imagemin_buffer pl (part_data part) = Some optimizedBuffer).
Proof.
  intros Hticks Hnames Hopt r.
  destruct (request_reaches_holds random now parts fs ticks Hnames Hopt)
    as [(e & fs' & He & Hp) | (Hfiles & Hs0 & Hs & _ & Hout)].
  - unfold r. rewrite request_run_quiet; [| congruence | rewrite Hp; reflexivity].
    rewrite Hp. simpl. split; [reflexivity|]. split; [reflexivity|].
    split; [constructor|]. intros i m Hslot. rewrite lookup_nil in Hslot. discriminate.
  - fold r in Hfiles, Hs, Hout.
    destruct Hs as (Hinv & _ & _).
    pose proof Hinv as [[_ P2 _ _ _ _] _].
    rewrite Hfiles in P2.
    assert (Hidle : pool_active (req_pool r) = []).
    { apply request_run_finishes; [apply Hs0|].
      pose proof (post_upload_work random now parts fs). lia. }
    split; [exact Hidle|].
    split; [apply (idle_no_queue _ _ 6 _ ltac:(lia) P2 Hidle)|].
    split; [apply (idle_all_completed _ _ 6 _ ltac:(lia) P2 Hidle)|].
    intros i m Hslot. destruct P2 as [_ _ _ _ _ _ _ _ I9].
    destruct (I9 i m Hslot) as (file & Hf & _ & _ & Hpath).
    pose proof Hf as Hf'. rewrite list_lookup_fmap in Hf.
    destruct (parts !! i) as [part|] eqn:Hp; [|discriminate].
    injection Hf as <-.
    assert (Hd : (part_data <$> parts) !! i = Some (part_data part))
      by (rewrite list_lookup_fmap, Hp; reflexivity).
    destruct (Hout i m _ _ Hslot Hf' Hd) as (t & ob & Hl & pl & Hsel & Hcodec).
    exists part, t, pl, ob. split; [reflexivity|].
    split; [rewrite Hpath; apply join_optimized_child, optimizedName_proper|].
    auto.
Qed.


(** ** Two runs of the cleanup job *)




End Pipeline.

(** ** Concrete runs *)

Lemma demo_root_proper : Forall (fun s => proper_segment s = true) demo_root.
Proof. repeat constructor. Qed.



Lemma createZip_failure_leaves_container_witness :
  Forall (fun s => proper_segment s = true) demo_root /\
  (createZip demo_root zip_archiver demo_random 7 demo_fs [[]]).1
  = Rejected ArchiveError /\
  get_download demo_root
    (createZip demo_root zip_archiver demo_random 7 demo_fs [[]]).2
    (zip_name demo_random)
  = Download (OPTIMIZED_DIR demo_root ++ "/"%char :: zip_name demo_random)
      (zip_name demo_random).
Proof.
  assert (E : (createZip demo_root zip_archiver demo_random 7 demo_fs [[]]).1
              = Rejected ArchiveError) by (vm_compute; reflexivity).
  split; [exact demo_root_proper|]. split; [exact E|].
  destruct (createZip_failure_leaves_container demo_root zip_archiver
              demo_root_proper demo_random 7 demo_fs [[]] ArchiveError E)
    as [(code & Hc & _) | (_ & _ & _ & H)]; [discriminate Hc | exact H].
Defined.

(** C8 as stated fails.  [createZip] is called with one path, the empty
    string: [archive.file] emits 'error' and the promise is rejected, and
    the container, which did not exist before, is at its final path,
    where [GET /download] serves it. *)
Lemma createZip_partial_container_counterexample :
  let filePaths : list str := [[]] in
  let zipPath := lit "/srv/sora-lite/optimized/bundle-0123456789abcdef.zip" in
  let result := createZip demo_root zip_archiver demo_random 7 demo_fs filePaths in
  result.1 = Rejected ArchiveError /\
  demo_fs !! zipPath = None /\
  (exists written, result.2 !! zipPath = Some (File 7 written)) /\
  get_download demo_root result.2 (lit "bundle-0123456789abcdef.zip")
  = Download zipPath (lit "bundle-0123456789abcdef.zip").
Proof.
  vm_compute. split; [reflexivity|]. split; [reflexivity|].
  split; [eexists; reflexivity | reflexivity].
Qed.

(** C7, where the code departs from it.  For the accepted name
    "photo.PNG" the claim gives "photo-opt.PNG".  [optimiseFile] strips
    the lower-cased extension, which the name does not end with, and
    writes "photo.PNG-opt.png"; the storage callback of the same server,
    which strips the extension as written, names the upload
    "photo-1700-42.PNG". *)
Theorem optimised_name_of_uppercase_extension :
  let file := {| file_originalname := lit "photo.PNG";
                 file_filename := lit "photo-1700-42.PNG";
                 file_path := lit "/srv/sora-lite/uploads/photo-1700-42.PNG";
                 file_size := 100 |} in
  let fs := <[file_path file := File 1700 100]> demo_fs in
  let result := optimiseFile id demo_codec 2000 fs file (OPTIMIZED_DIR demo_root) in
  allowed (lit "photo.PNG") = true /\
  optimizedName (lit "photo.PNG") = lit "photo.PNG-opt.png" /\
  storage_filename (lit "photo.PNG") 1700 42 = lit "photo-1700-42.PNG" /\
  match result.1 with
  | Fulfilled m => optimizedPath m = lit "/srv/sora-lite/optimized/photo.PNG-opt.png"
  | Rejected _ => False
  end /\
  result.2 !! lit "/srv/sora-lite/optimized/photo.PNG-opt.png" = Some (File 2000 50) /\
  result.2 !! lit "/srv/sora-lite/optimized/photo-opt.PNG" = None.
Proof. vm_compute. repeat split; reflexivity. Qed.



Lemma oversize_parts_violate : violates_intake id oversize_parts.
Proof. right. right. vm_compute. reflexivity. Qed.

Lemma intake_rejects_before_processing_witness :
  violates_intake id oversize_parts /\
  pool_active
    (req_pool (post_upload id demo_root demo_archiver demo_random 2000 oversize_parts
                 demo_fs)) = [].
Proof.
  split; [exact oversize_parts_violate|].
  exact (proj1 (proj2 (intake_rejects_before_processing id demo_codec demo_root
                         demo_archiver demo_root_proper demo_random 2000
                         oversize_parts demo_fs oversize_parts_violate))).
Defined.

(** C3 as stated fails: the two files of a batch that is above the
    aggregate limit are written to the incoming area, where they were not
    before, and the batch is rejected afterwards. *)
Lemma intake_stages_files_counterexample :
  let staging := multer_receive id demo_root oversize_parts [] demo_fs in
  violates_intake id oversize_parts /\
  staging.1.1 = None /\
  file_path <$> staging.1.2
  = [lit "/srv/sora-lite/uploads/a-1700-1.png"; lit "/srv/sora-lite/uploads/b-1700-2.png"] /\
  demo_fs !! lit "/srv/sora-lite/uploads/a-1700-1.png" = None /\
  staging.2 !! lit "/srv/sora-lite/uploads/a-1700-1.png" = Some (File 1700 62914560) /\
  staging.2 !! lit "/srv/sora-lite/uploads/b-1700-2.png" = Some (File 1700 62914560) /\
  req_response (post_upload id demo_root demo_archiver demo_random 2000 oversize_parts
                  demo_fs)
  = Some (Json400 (inr (lit "Total upload size exceeds 100 MiB"))).
Proof.
  split; [exact oversize_parts_violate|]. vm_compute. repeat split; reflexivity.
Qed.

Lemma oversize_batch_rejected_witness :
  MAX_TOTAL_SIZE < aggregate_size id oversize_parts /\
  exists e,
    req_response (post_upload id demo_root demo_archiver demo_random 2000 oversize_parts
                    demo_fs) = Some (Json400 e).
Proof.
  assert (H : MAX_TOTAL_SIZE < aggregate_size id oversize_parts)
    by (vm_compute; reflexivity).
  split; [exact H|].
  exact (proj1 (oversize_batch_rejected id demo_root demo_archiver demo_root_proper
                  demo_random 2000 oversize_parts demo_fs H)).
Defined.

Abbreviation staged_of parts :=
  (let staging := multer_receive id demo_root parts [] demo_fs in
   (staging.1.2, staging.2)).

Lemma processFiles_concurrency_bound_witness :
  let files := (staged_of twelve_parts).1 in
  let fs := (staged_of twelve_parts).2 in
  let p := pool_run id demo_codec files (OPTIMIZED_DIR demo_root)
             (demo_ticks [0; 3; 5; 1; 1; 4; 0; 2; 2; 2; 0; 5; 3; 1]%nat)
             (processFiles files None fs) in
  (1 <= default 6 None)%nat /\ length files = 12%nat /\
  (length (pool_active p) <= 6)%nat.
Proof.
  cbv zeta. split; [vm_compute; lia|]. split; [vm_compute; reflexivity|].
  refine (proj1 (processFiles_concurrency_bound id demo_codec _ _ None _ _ _)).
  vm_compute. lia.
Defined.

Lemma processFiles_settles_in_order_witness :
  let files := (staged_of demo_parts).1 in
  let fs := (staged_of demo_parts).2 in
  let ticks := demo_ticks [2; 0; 1; 1; 0; 0; 0; 0; 0]%nat in
  let p := pool_run id demo_codec files (OPTIMIZED_DIR demo_root) ticks
             (processFiles files (Some 2%nat) fs) in
  (1 <= default 6 (Some 2))%nat /\ (3 * length files <= length ticks)%nat /\
  exists results,
    promise_all p = Some (Fulfilled results) /\ length results = length files /\
    originalName <$> results = file_originalname <$> files.
Proof.
  cbv zeta.
  assert (H1 : (1 <= default 6 (Some 2))%nat) by (vm_compute; lia).
  assert (H2 : (3 * length (staged_of demo_parts).1
                <= length (demo_ticks [2; 0; 1; 1; 0; 0; 0; 0; 0]%nat))%nat)
    by (vm_compute; lia).
  split; [exact H1|]. split; [exact H2|].
  pose proof (processFiles_settles_in_order id demo_codec (staged_of demo_parts).1
                (OPTIMIZED_DIR demo_root) (Some 2%nat) (staged_of demo_parts).2
                (demo_ticks [2; 0; 1; 1; 0; 0; 0; 0; 0]%nat) H1 H2) as H.
  cbv zeta in H.
  destruct (promise_all _) as [[results|reason]|] eqn:E in H.
  - exists results. split; [exact E|]. split; [exact (proj1 H)|].
    revert E. vm_compute. intros [= <-]. reflexivity.
  - exfalso. revert E. vm_compute. discriminate.
  - contradiction.
Defined.

(** C6 as stated fails: the batch made of the one file ".png" passes the
    intake, and [processFiles] returns no result for it: the unit rejects
    with 'Unsupported file type', for any event that completes its read. *)
Lemma processFiles_rejects_accepted_batch_counterexample :
  let r := post_upload id demo_root demo_archiver demo_random 2000
             [demo_part ".png" 100 1] demo_fs in
  let p := pool_run id demo_codec (req_files r) (OPTIMIZED_DIR demo_root)
             (demo_ticks [0; 0; 0]%nat) (processFiles (req_files r) (Some 6%nat)
                                           (pool_fs (req_pool r))) in
  allowed (lit ".png") = true /\
  req_response r = None /\
  file_originalname <$> req_files r = [lit ".png"] /\
  promise_all p = Some (Rejected UnsupportedFileType).
Proof. vm_compute. repeat split; reflexivity. Qed.

Abbreviation failing_request picks :=
  (request_run id demo_codec demo_root demo_archiver demo_random (demo_ticks picks)
     (post_upload id demo_root demo_archiver demo_random 2000 failing_parts demo_fs)).

Lemma codec_failure_fails_batch_witness :
  pool_slots (req_pool (failing_request [0; 0; 0; 0; 0]%nat)) !! 1%nat
  = Some (Some (Rejected CodecError)) /\
  req_response (failing_request [0; 0; 0; 0; 0]%nat)
  = Some (Json500 (lit "Failed to process images")).
Proof.
  assert (H : pool_slots (req_pool (failing_request [0; 0; 0; 0; 0]%nat)) !! 1%nat
              = Some (Some (Rejected CodecError))) by (vm_compute; reflexivity).
  split; [exact H|].
  exact (proj1 (codec_failure_fails_batch id demo_codec demo_root demo_archiver
                  demo_root_proper demo_random 2000 failing_parts demo_fs
                  (demo_ticks [0; 0; 0; 0; 0]%nat) 1%nat H)).
Defined.

Lemma failure_path_frame_witness :
  let r := failing_request [0; 0; 0; 0]%nat in
  let r' := request_step id demo_codec demo_root demo_archiver demo_random r
              {| tick_now := 3000; tick_pick := 0 |} in
  req_response r = None /\
  pool_rejected (req_pool r') <> None /\
  pool_fs (req_pool r) !! lit "/srv/sora-lite/optimized/a-opt.png" = Some (File 3000 50) /\
  req_response r' = Some (Json500 (lit "Failed to process images")) /\
  (forall q, NodePath.startsWith q (OPTIMIZED_DIR demo_root ++ lit "/") = true ->
     pool_fs (req_pool r') !! q = pool_fs (req_pool r) !! q).
Proof.
  cbv zeta.
  assert (H1 : req_response (failing_request [0; 0; 0; 0]%nat) = None)
    by (vm_compute; reflexivity).
  assert (H2 : pool_rejected
                 (req_pool (request_step id demo_codec demo_root demo_archiver
                              demo_random (failing_request [0; 0; 0; 0]%nat)
                              {| tick_now := 3000; tick_pick := 0 |})) <> None)
    by (vm_compute; discriminate).
  split; [exact H1|]. split; [exact H2|]. split; [vm_compute; reflexivity|].
  pose proof (failure_path_frame id demo_codec demo_root demo_archiver demo_root_proper
                demo_random 2000 failing_parts demo_fs (demo_ticks [0; 0; 0; 0]%nat)
                {| tick_now := 3000; tick_pick := 0 |} H1 H2) as (Hresp & _ & _ & Hout & _).
  split; [exact Hresp | exact Hout].
Defined.

(** ** Concrete runs of the further properties *)

Lemma staged_path_confined_witness :
  Forall (fun s => proper_segment s = true) demo_root /\
  storage_filename (lit "../../etc/my  photo.png") 1700 42 = lit "my_photo-1700-42.png" /\
  NodePath.join [UPLOAD_DIR demo_root;
                 storage_filename (lit "../../etc/my  photo.png") 1700 42]
  = UPLOAD_DIR demo_root
    ++ "/"%char :: storage_filename (lit "../../etc/my  photo.png") 1700 42.
Proof.
  split; [exact demo_root_proper|]. split; [vm_compute; reflexivity|].
  exact (proj1 (proj2 (staged_path_confined demo_root demo_root_proper
                         (lit "../../etc/my  photo.png") 1700 42))).
Defined.

Lemma output_path_confined_witness :
  Forall (fun s => proper_segment s = true) demo_root /\
  optimizedName (lit "../../etc/photo.png") = lit "photo-opt.png" /\
  NodePath.join [OPTIMIZED_DIR demo_root; optimizedName (lit "../../etc/photo.png")]
  = OPTIMIZED_DIR demo_root ++ "/"%char :: optimizedName (lit "../../etc/photo.png").
Proof.
  split; [exact demo_root_proper|]. split; [vm_compute; reflexivity|].
  exact (proj1 (proj2 (output_path_confined demo_root demo_root_proper
                         (lit "../../etc/photo.png")))).
Defined.


Lemma filter_and_codec_dispatch_witness :
  allowed (lit "holiday/.PNG") = true /\
  select_plugin (toLowerCase (NodePath.extname (lit "holiday/.PNG"))) = None.
Proof.
  assert (H : allowed (lit "holiday/.PNG") = true) by (vm_compute; reflexivity).
  split; [exact H|].
  apply (proj1 (filter_and_codec_dispatch (lit "holiday/.PNG") H)).
  vm_compute. left. reflexivity.
Defined.

Lemma sweep_removes_only_expired_witness :
  Forall (fun s => proper_segment s = true) demo_root /\
  swept_fs !! lit "/srv/sora-lite/uploads/new-3-4.png" = Some (File 290000 10) /\
  (sweep demo_root 400000 swept_fs).1 !! lit "/srv/sora-lite/uploads/new-3-4.png"
  = Some (File 290000 10).
Proof.
  assert (H : swept_fs !! lit "/srv/sora-lite/uploads/new-3-4.png" = Some (File 290000 10))
    by (vm_compute; reflexivity).
  split; [exact demo_root_proper|]. split; [exact H|].
  apply (proj1 (proj2 (sweep_removes_only_expired demo_root demo_root_proper 400000
                         swept_fs (lit "/srv/sora-lite/uploads/new-3-4.png")))).
  - exact H.
  - unfold CLEANUP_AFTER_MS. lia.
Defined.

Lemma sweep_cleans_each_directory_witness :
  Forall (fun s => proper_segment s = true) demo_root /\
  proper_segment (lit "old-1-2.png") = true /\
  CLEANUP_AFTER_MS < 400000 - 1000 /\
  swept_fs !! UPLOAD_DIR demo_root = Some (Dir 0) /\
  swept_fs !! (UPLOAD_DIR demo_root ++ "/"%char :: lit "old-1-2.png")
  = Some (File 1000 10) /\
  (sweep demo_root 400000 swept_fs).1
    !! (UPLOAD_DIR demo_root ++ "/"%char :: lit "old-1-2.png") = None.
Proof.
  assert (Hp : proper_segment (lit "old-1-2.png") = true) by (vm_compute; reflexivity).
  assert (Hexp : CLEANUP_AFTER_MS < 400000 - 1000) by (unfold CLEANUP_AFTER_MS; lia).
  assert (Hd : swept_fs !! UPLOAD_DIR demo_root = Some (Dir 0))
    by (vm_compute; reflexivity).
  assert (Hf : swept_fs !! (UPLOAD_DIR demo_root ++ "/"%char :: lit "old-1-2.png")
               = Some (File 1000 10)) by (vm_compute; reflexivity).
  split; [exact demo_root_proper|]. split; [exact Hp|]. split; [exact Hexp|].
  split; [exact Hd|]. split; [exact Hf|].
  exact (proj1 (sweep_cleans_each_directory demo_root demo_root_proper 400000 0 swept_fs
                  (lit "old-1-2.png") 1000 10 Hp Hexp) Hd Hf).
Defined.

Lemma intake_accepts_within_limits_witness :
  Forall (fun s => proper_segment s = true) demo_root /\
  (length demo_parts <= MAX_FILES)%nat /\
  aggregate_size id demo_parts <= MAX_TOTAL_SIZE /\
  req_response (post_upload id demo_root demo_archiver demo_random 2000 demo_parts demo_fs)
  = None.
Proof.
  assert (H1 : (length demo_parts <= MAX_FILES)%nat) by (vm_compute; lia).
  assert (H2 : Forall (fun p : @Part Z =>
                         part_fieldname p = lit "images" /\
                         allowed (part_originalname p) = true /\
                         0 <= id (part_data p)) demo_parts).
  { repeat constructor; vm_compute; discriminate. }
  assert (H3 : aggregate_size id demo_parts <= MAX_TOTAL_SIZE)
    by (vm_compute; discriminate).
  assert (H4 : forall (p : @Part Z) (m : Z), p ∈ demo_parts ->
                 demo_fs !! file_path (stored_file id demo_root p) <> Some (Dir m)).
  { intros p m Hp. unfold demo_parts in Hp.
    repeat (apply elem_of_cons in Hp as [-> | Hp]); try (vm_compute; discriminate).
    apply elem_of_nil in Hp. contradiction. }
  split; [exact demo_root_proper|]. split; [exact H1|]. split; [exact H3|].
  exact (proj1 (proj2 (intake_accepts_within_limits id demo_root demo_archiver
                         demo_root_proper demo_random 2000 demo_parts demo_fs
                         H1 H2 H3 H4))).
Defined.

Abbreviation demo_request picks :=
  (request_run id demo_codec demo_root demo_archiver demo_random (demo_ticks picks)
     (post_upload id demo_root demo_archiver demo_random 2000 demo_parts demo_fs)).

Lemma request_is_answered_witness :
  (3 * length demo_parts <= length (demo_ticks [2; 0; 1; 1; 0; 0; 0; 0; 0]%nat))%nat /\
  exists resp,
    req_response (demo_request [2; 0; 1; 1; 0; 0; 0; 0; 0]%nat) = Some resp /\
    handler_answer resp.
Proof.
  assert (H : (3 * length demo_parts
               <= length (demo_ticks [2; 0; 1; 1; 0; 0; 0; 0; 0]%nat))%nat)
    by (vm_compute; lia).
  split; [exact H|].
  pose proof (request_is_answered id demo_codec demo_root demo_archiver demo_root_proper
                demo_random 2000 demo_parts demo_fs
                (demo_ticks [2; 0; 1; 1; 0; 0; 0; 0; 0]%nat) H) as Hr.
  cbv zeta in Hr. destruct Hr as (resp & H1 & H2 & _).
  exists resp. split; assumption.
Defined.

Lemma success_payload_in_order_witness :
  exists payload,
    req_response (demo_request [2; 0; 1; 1; 0; 0; 0; 0; 0]%nat) = Some (Json200 payload) /\
    entry_originalName <$> payload_files payload
    = [lit "a b.png"; lit "photo.jpg"; lit "c.jpeg"] /\
    entry_optimizedName <$> payload_files payload
    = [lit "a b-opt.png"; lit "photo-opt.jpg"; lit "c-opt.jpeg"].
Proof.
  destruct (req_response (demo_request [2; 0; 1; 1; 0; 0; 0; 0; 0]%nat))
    as [[payload| | | | | |]|] eqn:E;
    try (exfalso; revert E; vm_compute; discriminate).
  exists payload. split; [reflexivity|].
  pose proof (success_payload_in_order id demo_codec demo_root demo_archiver
                demo_root_proper demo_random 2000 demo_parts demo_fs
                (demo_ticks [2; 0; 1; 1; 0; 0; 0; 0; 0]%nat) payload E)
    as (_ & Hnames & _).
  split; [rewrite Hnames; vm_compute; reflexivity|].
  revert E. vm_compute. intros [= <-]. reflexivity.
Defined.


Lemma units_run_to_completion_witness :
  (3 * length failing_parts <= length (demo_ticks [0; 0; 0; 0; 0; 0; 0; 0; 0]%nat))%nat /\
  NoDup ((fun p : @Part Z =>
            storage_filename (part_originalname p) (part_now p) (part_random p))
           <$> failing_parts) /\
  NoDup ((fun p : @Part Z => optimizedName (part_originalname p)) <$> failing_parts) /\
  req_response (failing_request [0; 0; 0; 0; 0; 0; 0; 0; 0]%nat)
  = Some (Json500 (lit "Failed to process images")) /\
  pool_active (req_pool (failing_request [0; 0; 0; 0; 0; 0; 0; 0; 0]%nat)) = [] /\
  forall m,
    pool_slots (req_pool (failing_request [0; 0; 0; 0; 0; 0; 0; 0; 0]%nat)) !! 0%nat
    = Some (Some (Fulfilled m)) ->
    exists t,
      pool_fs (req_pool (failing_request [0; 0; 0; 0; 0; 0; 0; 0; 0]%nat))
        !! (OPTIMIZED_DIR demo_root ++ "/"%char :: optimizedName (lit "a.png"))
      = Some (File t 50).
Proof.
  assert (H : (3 * length failing_parts
               <= length (demo_ticks [0; 0; 0; 0; 0; 0; 0; 0; 0]%nat))%nat)
    by (vm_compute; lia).
  assert (Hnd : NoDup ((fun p : @Part Z =>
                          storage_filename (part_originalname p) (part_now p)
                            (part_random p)) <$> failing_parts)).
  { apply (bool_decide_unpack (NoDup _)). vm_compute. exact I. }
  assert (Hopt : NoDup ((fun p : @Part Z => optimizedName (part_originalname p))
                          <$> failing_parts)).
  { apply (bool_decide_unpack (NoDup _)). vm_compute. exact I. }
  split; [exact H|]. split; [exact Hnd|]. split; [exact Hopt|].
  split; [vm_compute; reflexivity|].
  destruct (units_run_to_completion id demo_codec demo_root demo_archiver
              demo_root_proper demo_random 2000 failing_parts demo_fs
              (demo_ticks [0; 0; 0; 0; 0; 0; 0; 0; 0]%nat) H Hnd Hopt)
    as (Hidle & _ & _ & Hslots).
  split; [exact Hidle|].
  intros m Hm. destruct (Hslots 0%nat m Hm) as (part & t & pl & ob & Hp & Hpath & Hl & _ & Hc).
  injection Hp as <-. exists t. rewrite Hpath in Hl. refine (eq_trans Hl _).
  revert Hc. vm_compute. intros [= <-]. reflexivity.
Defined.

Lemma createZip_success_witness :
  Forall (fun s => proper_segment s = true) demo_root /\
  (createZip demo_root demo_archiver demo_random 7 demo_fs
     [lit "/srv/sora-lite/optimized/a-opt.png"]).1
  = Fulfilled (lit "bundle-0123456789abcdef.zip") /\
  length (lit "bundle-0123456789abcdef.zip") = (11 + 2 * length demo_random)%nat.
Proof.
  assert (E : (createZip demo_root demo_archiver demo_random 7 demo_fs
                 [lit "/srv/sora-lite/optimized/a-opt.png"]).1
              = Fulfilled (lit "bundle-0123456789abcdef.zip"))
    by (vm_compute; reflexivity).
  split; [exact demo_root_proper|]. split; [exact E|].
  exact (proj1 (proj2 (createZip_success demo_root demo_archiver demo_root_proper
                         demo_random 7 demo_fs [lit "/srv/sora-lite/optimized/a-opt.png"]
                         (lit "bundle-0123456789abcdef.zip") E))).
Defined.

Lemma selected_batch_passes_filter_witness :
  uploadAll_form (select_each demo_selections)
  = Some [(lit "images", {| cf_name := lit "a.png"; cf_size := 100 |});
          (lit "images", {| cf_name := lit "b.JPG"; cf_size := 50 |})] /\
  (multer_receive id demo_root selected_parts [] demo_fs).1.1 = None.
Proof.
  assert (H1 : uploadAll_form (select_each demo_selections)
               = Some [(lit "images", {| cf_name := lit "a.png"; cf_size := 100 |});
                       (lit "images", {| cf_name := lit "b.JPG"; cf_size := 50 |})])
    by (vm_compute; reflexivity).
  assert (H2 : Forall2 (fun (field : str * ClientFile) (part : @Part Z) =>
                          part_fieldname part = field.1 /\
                          part_originalname part = cf_name field.2)
                 [(lit "images", {| cf_name := lit "a.png"; cf_size := 100 |});
                  (lit "images", {| cf_name := lit "b.JPG"; cf_size := 50 |})]
                 selected_parts).
  { repeat constructor. }
  split; [exact H1|].
  pose proof (proj2 (proj2 (selected_batch_passes_filter id demo_root demo_selections _
                              selected_parts demo_fs H1 H2))) as H.
  destruct ((multer_receive id demo_root selected_parts [] demo_fs).1.1)
    as [[| | | |code]|] eqn:E; try contradiction; try reflexivity;
    exfalso; revert E; vm_compute; discriminate.
Defined.


Lemma success_sizes_are_measured_witness :
  NoDup ((fun p : @Part Z =>
            storage_filename (part_originalname p) (part_now p) (part_random p))
           <$> demo_parts) /\
  exists payload e,
    req_response (demo_request [2; 0; 1; 1; 0; 0; 0; 0; 0]%nat) = Some (Json200 payload) /\
    payload_files payload !! 0%nat = Some e /\
    entry_sizeBefore e = 100 /\ entry_sizeAfter e = 50.
Proof.
  assert (Hnd : NoDup ((fun p : @Part Z =>
                          storage_filename (part_originalname p) (part_now p)
                            (part_random p)) <$> demo_parts)).
  { apply (bool_decide_unpack (NoDup _)). vm_compute. exact I. }
  split; [exact Hnd|].
  destruct (req_response (demo_request [2; 0; 1; 1; 0; 0; 0; 0; 0]%nat))
    as [[payload| | | | | |]|] eqn:E;
    try (exfalso; revert E; vm_compute; discriminate).
  destruct (success_sizes_are_measured id demo_codec demo_root demo_archiver
              demo_root_proper demo_random 2000 demo_parts demo_fs
              (demo_ticks [2; 0; 1; 1; 0; 0; 0; 0; 0]%nat) payload Hnd E
              0%nat (demo_part "a b.png" 100 1) eq_refl)
    as (e & pl & ob & He & _ & Hcodec & Hbefore & Hafter).
  exists payload, e. split; [reflexivity|]. split; [exact He|].
  split; [exact Hbefore|].
  rewrite Hafter. revert Hcodec. vm_compute. intros [= <-]. reflexivity.
Defined.

Lemma stored_names_differ_witness :
  0 <= 1700 /\ 0 <= 1701 /\
  storage_filename (lit "a.png") 1700 42 <> storage_filename (lit "a.png") 1701 42.
Proof.
  assert (H1 : 0 <= 1700) by lia. assert (H2 : 0 <= 1701) by lia.
  split; [exact H1|]. split; [exact H2|].
  apply (stored_names_differ (lit "a.png") 1700 42 1701 42 H1 H2). left. lia.
Defined.

Lemma zip_names_differ_witness :
  demo_random <> [] /\ zip_name demo_random <> zip_name [].
Proof.
  assert (H : demo_random <> []) by discriminate.
  split; [exact H|]. exact (zip_names_differ demo_random [] H).
Defined.


